(** * Change detection and delete execution of the persistence engine

    A shallow embedding of
    - [src/persistence/SubjectChangedColumnsComputer.ts]
      ([compute], [computeDiffColumns], [computeDiffRelationalColumns]),
    - [src/query-builder/DeleteQueryBuilder.ts] ([execute], and the table
      cache and the statement memory of [BaseQueryRunner]),
    - [src/driver/oracle/OracleQueryRunner.ts] (connection, statements and
      transactions) and
    - [src/query-builder/QueryBuilder.ts] (conditions and parameters),
    together with the properties the specification states about them and
    further properties of the code. *)

From stdpp Require Import base numbers strings pretty list gmap.

(** ** JavaScript values *)

(** Objects are known by their identity only: an entity, a [Date], an array
    or an object literal is a reference into a heap that the change computer
    never writes to.  A Subject is an object as well; it lives in the store
    the computer mutates and is referred to by its handle.  Numbers are
    restricted to integers. *)
Definition ref := nat.
Definition handle := nat.

Inductive jsval : Type :=
| VUndefined
| VNull
| VBool (b : bool)
| VNum (n : Z)
| VStr (s : string)
| VObj (r : ref)
| VSubject (h : handle).

#[global] Instance jsval_eq_dec : EqDecision jsval.
Proof. solve_decision. Defined.

(** [a === b]: primitives by value, objects by identity. *)
Definition strict_eq (a b : jsval) : bool := bool_decide (a = b).

Definition is_undefined (v : jsval) : bool :=
  match v with VUndefined => true | _ => false end.

(** [v !== null && v !== undefined] *)
Definition is_provided_non_null (v : jsval) : bool :=
  match v with VUndefined | VNull => false | _ => true end.

(** [v !== null && v instanceof Object] *)
Definition is_object (v : jsval) : bool :=
  match v with VObj _ | VSubject _ => true | _ => false end.

(** ** Metadata descriptors (read-only input) *)

(** [column.type] is either a type name or one of the constructor functions
    [Boolean], [Date], [Number], [String]. *)
Inductive ColumnType : Type :=
| TypeName (name : string)
| BooleanCtor
| DateCtor
| NumberCtor
| StringCtor.

#[global] Instance ColumnType_eq_dec : EqDecision ColumnType.
Proof. solve_decision. Defined.

(** Metadata objects are compared by identity in the source
    ([changeMap.column === column]); [relationId] and [columnId] stand for
    that identity, so that two descriptors with the same content remain
    distinguishable. *)
Record RelationMetadata : Type := mkRelation {
  relationId : nat;
  relationPropertyName : string;
  referencedColumnNames : list string
}.

#[global] Instance RelationMetadata_eq_dec : EqDecision RelationMetadata.
Proof. solve_decision. Defined.

Record ColumnMetadata : Type := mkColumn {
  columnId : nat;
  propertyName : string;
  type : ColumnType;
  isVirtual : bool;
  isDiscriminator : bool;
  isUpdateDate : bool;
  isVersion : bool;
  isCreateDate : bool;
  relationMetadata : option RelationMetadata
}.

#[global] Instance ColumnMetadata_eq_dec : EqDecision ColumnMetadata.
Proof. solve_decision. Defined.

Record EntityMetadata : Type := mkEntityMetadata {
  columns : list ColumnMetadata;
  relationsWithJoinColumns : list RelationMetadata
}.

(** ** Subjects *)

(** [SubjectChangeMap]: both tags are optional in the source type
    ([{column?, relation?, value}]). *)
Record SubjectChangeMap : Type := mkChangeMap {
  cm_column : option ColumnMetadata;
  cm_relation : option RelationMetadata;
  cm_value : jsval
}.

(** The fields of a Subject the computer reads or writes.  [entity] and
    [databaseEntity] are absent or an object; [mustBeInserted], whether a
    field or a getter over fields the computer does not write, is a constant
    of the Subject during [compute].  Each Subject owns its three lists. *)
Record Subject : Type := mkSubject {
  metadata : EntityMetadata;
  entity : option ref;
  databaseEntity : option ref;
  mustBeInserted : bool;
  diffColumns : list ColumnMetadata;
  diffRelations : list RelationMetadata;
  changeMaps : list SubjectChangeMap
}.

(** [subject.entity] read as a value. *)
Definition entity_value (subject : Subject) : jsval :=
  match entity subject with
  | Some r => VObj r
  | None => VUndefined
  end.

(** [changeMap.value = v] *)
Definition set_value (v : jsval) (m : SubjectChangeMap) : SubjectChangeMap :=
  mkChangeMap (cm_column m) (cm_relation m) v.

Definition with_changeMaps (l : list SubjectChangeMap) (s : Subject) : Subject :=
  mkSubject (metadata s) (entity s) (databaseEntity s) (mustBeInserted s)
            (diffColumns s) (diffRelations s) l.

(** [subject.diffColumns.push(column)] *)
Definition push_diffColumn (column : ColumnMetadata) (s : Subject) : Subject :=
  mkSubject (metadata s) (entity s) (databaseEntity s) (mustBeInserted s)
            (diffColumns s ++ [column]) (diffRelations s) (changeMaps s).

(** [subject.diffRelations.push(relation)] *)
Definition push_diffRelation (relation : RelationMetadata) (s : Subject) : Subject :=
  mkSubject (metadata s) (entity s) (databaseEntity s) (mustBeInserted s)
            (diffColumns s) (diffRelations s ++ [relation]) (changeMaps s).

(** ** Collaborators that are not part of the computer *)

(** The first operand of [EntityMetadata.compareIds]: the related value as it
    is, or the id map [relation.getRelationIdMap] has just built (a fresh
    object literal, given by its property/value pairs; [undefined] when the
    call returns none). *)
Inductive IdOperand : Type :=
| OfValue (v : jsval)
| FreshMap (m : list (string * jsval)).

Definition id_operand_of (m : option (list (string * jsval))) : IdOperand :=
  match m with
  | Some fields => FreshMap fields
  | None => OfValue VUndefined
  end.

(** [ColumnMetadata.getEntityValue], [RelationMetadata.getEntityValue],
    [RelationMetadata.getRelationIdMap], [EntityMetadata.compareIds], the
    [DateUtils] conversions and [JSON.stringify] are defined outside the
    computer; it is verified against any implementation of them. *)
Class Collaborators : Type := {
  column_getEntityValue : ColumnMetadata -> ref -> jsval;
  relation_getEntityValue : RelationMetadata -> ref -> jsval;
  getRelationIdMap : RelationMetadata -> jsval -> option (list (string * jsval));
  compareIds : IdOperand -> jsval -> bool;
  mixedDateToDateString : jsval -> jsval;
  mixedDateToTimeString : jsval -> jsval;
  mixedDateToUtcDatetimeString : jsval -> jsval;
  simpleArrayToString : jsval -> jsval;
  JSON_stringify : jsval -> jsval
}.

(** ** The change computer *)

(** [changeMaps.find(p)] followed by an update of the found record's value,
    or a push of a new record when none is found. *)
Definition upsert (P : SubjectChangeMap -> Prop) `{!∀ m, Decision (P m)}
    (fresh : SubjectChangeMap) (v : jsval)
    (l : list SubjectChangeMap) : list SubjectChangeMap :=
  match list_find P l with
  | Some (i, m) => <[i := set_value v m]> l
  | None => l ++ [fresh]
  end.

Definition is_column_change (column : ColumnMetadata) (m : SubjectChangeMap) : Prop :=
  cm_column m = Some column.

Definition is_relation_change (relation : RelationMetadata) (m : SubjectChangeMap) : Prop :=
  cm_relation m = Some relation.

#[global] Instance is_column_change_dec column m : Decision (is_column_change column m).
Proof. unfold is_column_change. apply _. Defined.

#[global] Instance is_relation_change_dec relation m : Decision (is_relation_change relation m).
Proof. unfold is_relation_change. apply _. Defined.

Section Computer.
Context `{Collaborators}.

(** Lines 41-45: the columns the column pass ignores. *)
Definition isSpecialColumn (column : ColumnMetadata) : bool :=
  isVirtual column || isDiscriminator column || isUpdateDate column
  || isVersion column || isCreateDate column.

Definition type_is (column : ColumnMetadata) (name : string) : bool :=
  bool_decide (type column = TypeName name).

(** Lines 67-89: the pair [(normalizedValue, databaseValue)] that is
    compared at line 92. *)
Definition normalizeForComparison (column : ColumnMetadata)
    (entityValue databaseValue : jsval) : jsval * jsval :=
  if is_provided_non_null entityValue then
    if type_is column "date" then
      (mixedDateToDateString entityValue, databaseValue)
    else if type_is column "time" then
      (mixedDateToTimeString entityValue, databaseValue)
    else if type_is column "datetime" || bool_decide (type column = DateCtor) then
      (mixedDateToUtcDatetimeString entityValue,
       mixedDateToUtcDatetimeString databaseValue)
    else if type_is column "json" || type_is column "jsonb" then
      (JSON_stringify entityValue,
       if is_provided_non_null databaseValue
       then JSON_stringify databaseValue else databaseValue)
    else if type_is column "sample-array" then
      (simpleArrayToString entityValue, simpleArrayToString databaseValue)
    else (entityValue, databaseValue)
  else (entityValue, databaseValue).

(** Lines 62-66: the column backs a relation whose value is set on the
    entity. *)
Definition relationSuppliesValue (entity : ref) (column : ColumnMetadata) : bool :=
  match relationMetadata column with
  | Some relation => is_provided_non_null (relation_getEntityValue relation entity)
  | None => false
  end.

(** Lines 56-94: [true] when the callback returns before recording. *)
Definition columnUnchanged (entity : ref) (subject : Subject)
    (column : ColumnMetadata) (entityValue : jsval) : bool :=
  match databaseEntity subject with
  | Some dbEntity =>
      let databaseValue := column_getEntityValue column dbEntity in
      if relationSuppliesValue entity column then true
      else
        let '(normalizedValue, databaseValue') :=
          normalizeForComparison column entityValue databaseValue in
        strict_eq normalizedValue databaseValue'
  | None => false
  end.

(** Lines 95-106. *)
Definition recordColumnChange (subject : Subject) (column : ColumnMetadata)
    (entityValue : jsval) : Subject :=
  let subject := push_diffColumn column subject in
  with_changeMaps
    (upsert (is_column_change column)
            (mkChangeMap (Some column) None entityValue)
            entityValue (changeMaps subject))
    subject.

(** Lines 38-107: the callback of [subject.metadata.columns.forEach]. *)
Definition diffColumn (entity : ref) (subject : Subject)
    (column : ColumnMetadata) : Subject :=
  if isSpecialColumn column then subject
  else
    let entityValue := column_getEntityValue column entity in
    if is_undefined entityValue then subject
    else if columnUnchanged entity subject column entityValue then subject
    else recordColumnChange subject column entityValue.

Definition computeDiffColumns (subject : Subject) : Subject :=
  match entity subject with
  | None => subject
  | Some e => foldl (diffColumn e) subject (columns (metadata subject))
  end.

(** Line 155: [allSubjects.find(s => s.mustBeInserted && s.entity === relatedEntity)] *)
Definition isInsertedSubjectOf (store : gmap handle Subject)
    (relatedEntity : jsval) (h : handle) : bool :=
  match store !! h with
  | Some s => mustBeInserted s && strict_eq (entity_value s) relatedEntity
  | None => false
  end.

Definition findValueSubject (store : gmap handle Subject)
    (allSubjects : list handle) (relatedEntity : jsval) : option handle :=
  find (isInsertedSubjectOf store relatedEntity) allSubjects.

(** Lines 155-157: the Subject found, if any, takes the place of the related
    entity. *)
Definition recordedValue (store : gmap handle Subject) (allSubjects : list handle)
    (relatedEntity : jsval) : jsval :=
  match findValueSubject store allSubjects relatedEntity with
  | Some valueSubject => VSubject valueSubject
  | None => relatedEntity
  end.

(** Lines 136-145: [areRelatedIdsEqual]. *)
Definition areRelatedIdsEqual (relation : RelationMetadata)
    (relatedEntity : jsval) (dbEntity : ref) : bool :=
  let relatedEntityRelationIdMap :=
    if is_object relatedEntity
    then id_operand_of (getRelationIdMap relation relatedEntity)
    else OfValue relatedEntity in
  let databaseRelatedEntityRelationIdMap := relation_getEntityValue relation dbEntity in
  compareIds relatedEntityRelationIdMap databaseRelatedEntityRelationIdMap.

(** Lines 153-169, run on the Subject stored at [h]. *)
Definition recordRelationChange (allSubjects : list handle) (h : handle)
    (store : gmap handle Subject) (subject : Subject)
    (relation : RelationMetadata) (relatedEntity : jsval) : gmap handle Subject :=
  let store := <[h := subject]> store in
  let relatedEntity := recordedValue store allSubjects relatedEntity in
  <[h := with_changeMaps
           (upsert (is_relation_change relation)
                   (mkChangeMap None (Some relation) relatedEntity)
                   relatedEntity (changeMaps subject))
           subject]> store.

(** Lines 119-170: the callback of
    [subject.metadata.relationsWithJoinColumns.forEach]. *)
Definition diffRelation (allSubjects : list handle) (h : handle) (entity : ref)
    (store : gmap handle Subject) (relation : RelationMetadata) : gmap handle Subject :=
  match store !! h with
  | None => store
  | Some subject =>
      let relatedEntity := relation_getEntityValue relation entity in
      if is_undefined relatedEntity then store
      else
        match databaseEntity subject with
        | Some dbEntity =>
            if areRelatedIdsEqual relation relatedEntity dbEntity then store
            else recordRelationChange allSubjects h store
                   (push_diffRelation relation subject) relation relatedEntity
        | None =>
            recordRelationChange allSubjects h store subject relation relatedEntity
        end
  end.

Definition computeDiffRelationalColumns (allSubjects : list handle) (h : handle)
    (store : gmap handle Subject) : gmap handle Subject :=
  match store !! h with
  | None => store
  | Some subject =>
      match entity subject with
      | None => store
      | Some e =>
          foldl (diffRelation allSubjects h e) store
                (relationsWithJoinColumns (metadata subject))
      end
  end.

(** [compute(subjects)]: the array holds handles, so that one Subject may
    occur in it more than once.  An array holds Subjects only; on a handle
    without a Subject in the store the passes leave the store as it is. *)
Definition computeSubject (subjects : list handle)
    (store : gmap handle Subject) (h : handle) : gmap handle Subject :=
  computeDiffRelationalColumns subjects h (alter computeDiffColumns h store).

Definition compute (subjects : list handle)
    (store : gmap handle Subject) : gmap handle Subject :=
  foldl (computeSubject subjects) store subjects.

End Computer.

(** ** The outcome of a step, as one condition *)

Section Outcome.
Context `{Collaborators}.

(** The column step reaches line 95: the column is ordinary (lines 41-46),
    its entity value is provided (line 52) and the comparison with the
    snapshot does not return (lines 56-94). *)
Definition columnRecorded (e : ref) (subject : Subject) (column : ColumnMetadata) : bool :=
  negb (isSpecialColumn column)
  && negb (is_undefined (column_getEntityValue column e))
  && negb (columnUnchanged e subject column (column_getEntityValue column e)).

(** The relation step reaches line 149: the related value is provided and
    the Subject has a snapshot whose related ids differ. *)
Definition relationPushed (e : ref) (subject : Subject) (relation : RelationMetadata) : bool :=
  negb (is_undefined (relation_getEntityValue relation e))
  && match databaseEntity subject with
     | Some db => negb (areRelatedIdsEqual relation (relation_getEntityValue relation e) db)
     | None => false
     end.

(** The record the column step writes for a column without one. *)
Definition columnChange (e : ref) (column : ColumnMetadata) : SubjectChangeMap :=
  mkChangeMap (Some column) None (column_getEntityValue column e).

End Outcome.

(** The fields that identify a Subject and that no pass writes. *)
Definition identity_kept (s s' : Subject) : Prop :=
  metadata s' = metadata s
  ∧ entity s' = entity s
  ∧ databaseEntity s' = databaseEntity s
  ∧ mustBeInserted s' = mustBeInserted s.

(** The two stores hold Subjects under the same handles, with the same
    identifying fields. *)
Definition store_identity_kept (store store' : gmap handle Subject) : Prop :=
  ∀ h, match store !! h, store' !! h with
       | Some s, Some s' => identity_kept s s'
       | None, None => True
       | _, _ => False
       end.

(** ** The specification's wording, for comparison with the code *)

(** Section 4.1: "for each ordinary column (excluding virtual, discriminator,
    version, create-date columns)". *)
Definition spec_excluded (column : ColumnMetadata) : bool :=
  isVirtual column || isDiscriminator column || isVersion column || isCreateDate column.

Section SpecWording.
Context `{Collaborators}.

(** Section 4.1: date columns as calendar-date strings, time columns as
    time-of-day strings, datetime columns as UTC timestamp strings on both
    sides, JSON columns via serialization, delimited-array columns (the
    column type the drivers call "simple-array") via the canonical join. *)
Definition spec_normalize (column : ColumnMetadata)
    (entityValue databaseValue : jsval) : jsval * jsval :=
  if is_provided_non_null entityValue then
    if type_is column "date" then
      (mixedDateToDateString entityValue, databaseValue)
    else if type_is column "time" then
      (mixedDateToTimeString entityValue, databaseValue)
    else if type_is column "datetime" || bool_decide (type column = DateCtor) then
      (mixedDateToUtcDatetimeString entityValue,
       mixedDateToUtcDatetimeString databaseValue)
    else if type_is column "json" || type_is column "jsonb" then
      (JSON_stringify entityValue,
       if is_provided_non_null databaseValue
       then JSON_stringify databaseValue else databaseValue)
    else if type_is column "simple-array" then
      (simpleArrayToString entityValue, simpleArrayToString databaseValue)
    else (entityValue, databaseValue)
  else (entityValue, databaseValue).

(** "Equal-after-normalization". *)
Definition spec_equal_after_normalization (column : ColumnMetadata)
    (entityValue databaseValue : jsval) : bool :=
  let '(a, b) := spec_normalize column entityValue databaseValue in strict_eq a b.

End SpecWording.

(** ** Invariant of a Subject's change records *)

(** A record is tagged with a column or with a relation, not both and not
    neither. *)
Definition well_tagged (m : SubjectChangeMap) : Prop :=
  (is_Some (cm_column m) ∧ cm_relation m = None)
  ∨ (cm_column m = None ∧ is_Some (cm_relation m)).

(** At most one record per column and at most one per relation. *)
Definition changeMaps_wf (l : list SubjectChangeMap) : Prop :=
  Forall well_tagged l
  ∧ NoDup (omap cm_column l)
  ∧ NoDup (omap cm_relation l).

(** What a pass may do to a list of change records, whatever the list holds
    at first: a record of the new list is tagged with exactly one of a column
    or a relation unless it carries the tags of a record of the old list; the
    columns of the new records are those of the old ones followed by columns
    that are new and pairwise distinct, and likewise for the relations. *)
Definition appended_without_duplicates (l l' : list SubjectChangeMap) : Prop :=
  (∀ m', m' ∈ l' →
     well_tagged m'
     ∨ ∃ m, m ∈ l ∧ cm_column m' = cm_column m ∧ cm_relation m' = cm_relation m)
  ∧ (∃ cols, omap cm_column l' = omap cm_column l ++ cols
             ∧ NoDup cols ∧ ∀ c, c ∈ cols → c ∉ omap cm_column l)
  ∧ (∃ rels, omap cm_relation l' = omap cm_relation l ++ rels
             ∧ NoDup rels ∧ ∀ r, r ∈ rels → r ∉ omap cm_relation l).

Definition store_appended (store store' : gmap handle Subject) : Prop :=
  ∀ h s, store !! h = Some s →
    ∃ s', store' !! h = Some s'
          ∧ appended_without_duplicates (changeMaps s) (changeMaps s').

(** ** A turn of [compute] on one Subject *)

Section Turn.
Context `{Collaborators}.

(** Lines 159-169 on a Subject: the record of the relation takes the
    value. *)
Definition recordRelation (subject : Subject) (relation : RelationMetadata)
    (recorded : jsval) : Subject :=
  with_changeMaps
    (upsert (is_relation_change relation)
            (mkChangeMap None (Some relation) recorded)
            recorded (changeMaps subject))
    subject.

(** The callback of lines 119-170 as a function of the Subject it runs on,
    given the value line 155 finds for the record. *)
Definition relationStep (recorded : jsval) (entity : ref) (subject : Subject)
    (relation : RelationMetadata) : Subject :=
  let relatedEntity := relation_getEntityValue relation entity in
  if is_undefined relatedEntity then subject
  else
    match databaseEntity subject with
    | Some dbEntity =>
        if areRelatedIdsEqual relation relatedEntity dbEntity then subject
        else recordRelation (push_diffRelation relation subject) relation recorded
    | None => recordRelation subject relation recorded
    end.

(** The steps of one turn of [compute] on a Subject: its columns, then its
    relations with join columns. *)
Definition turnSteps (md : EntityMetadata) : list (ColumnMetadata + RelationMetadata) :=
  (inl <$> columns md) ++ (inr <$> relationsWithJoinColumns md).

Definition subjectStep (store : gmap handle Subject) (allSubjects : list handle)
    (entity : ref) (subject : Subject) (step : ColumnMetadata + RelationMetadata)
    : Subject :=
  match step with
  | inl column => diffColumn entity subject column
  | inr relation =>
      relationStep
        (recordedValue store allSubjects (relation_getEntityValue relation entity))
        entity subject relation
  end.

(** Lines 20-21 on a Subject of the batch. *)
Definition subjectTurn (store : gmap handle Subject) (allSubjects : list handle)
    (subject : Subject) : Subject :=
  match entity subject with
  | None => subject
  | Some e => foldl (subjectStep store allSubjects e) subject (turnSteps (metadata subject))
  end.

End Turn.

(** What the turns of [compute] have made of the Subject [s0]: they keep
    its identifying fields, append to its two diff lists, and keep its change
    records tagged with exactly one of a column or a relation. *)
Definition reached (s0 s : Subject) : Prop :=
  identity_kept s0 s
  ∧ Forall well_tagged (changeMaps s)
  ∧ diffColumns s0 `prefix_of` diffColumns s
  ∧ diffRelations s0 `prefix_of` diffRelations s.

(** The Subject holds a change record of the column, or of the relation,
    with the value. *)
Definition column_recorded_with (column : ColumnMetadata) (v : jsval) (s : Subject) : Prop :=
  ∃ m, m ∈ changeMaps s ∧ cm_column m = Some column ∧ cm_value m = v.

Definition relation_recorded_with (relation : RelationMetadata) (v : jsval)
    (s : Subject) : Prop :=
  ∃ m, m ∈ changeMaps s ∧ cm_relation m = Some relation ∧ cm_value m = v.

(** ** A concrete heap, used to run the computer on examples *)

Module Fixture.

Inductive obj : Type :=
| ODate (dateString timeString utcDatetimeString : string)
| OArray (items : list string)
| OPlain (fields : list (string * jsval)).

(** [fields[name]] *)
Definition field (name : string) (fields : list (string * jsval)) : jsval :=
  match find (λ kv, bool_decide (kv.1 = name)) fields with
  | Some kv => kv.2
  | None => VUndefined
  end.

Definition fields_of (hp : gmap ref obj) (v : jsval) : option (list (string * jsval)) :=
  match v with
  | VObj r => match hp !! r with Some (OPlain fields) => Some fields | _ => None end
  | _ => None
  end.

(** Modelled from the spec: [ColumnMetadata.getEntityValue] and
    [RelationMetadata.getEntityValue] are missing from the sources at hand;
    "read the entity-side value" is taken as reading the property the
    descriptor names. *)
Definition getProperty (hp : gmap ref obj) (name : string) (r : ref) : jsval :=
  match hp !! r with
  | Some (OPlain fields) => field name fields
  | _ => VUndefined
  end.

(** Modelled from the spec: [RelationMetadata.getRelationIdMap] is missing
    from the sources at hand; it reduces a related entity to the map of the
    primary-key columns the join columns reference. *)
Definition relationIdMap (hp : gmap ref obj) (relation : RelationMetadata)
    (v : jsval) : option (list (string * jsval)) :=
  match fields_of hp v with
  | Some fields =>
      Some (map (λ name, (name, field name fields)) (referencedColumnNames relation))
  | None => None
  end.

Definition same_fields (a b : list (string * jsval)) : bool :=
  forallb (λ kv, strict_eq (field kv.1 b) kv.2) a
  && forallb (λ kv, strict_eq (field kv.1 a) kv.2) b.

(** Modelled from the spec: [EntityMetadata.compareIds] is missing from the
    sources at hand; two primary-key-value maps are compared field by field.
    An absent side is never equal, and a value without fields (a bare scalar)
    is equal to the same scalar only. *)
Definition compare_ids (hp : gmap ref obj) (first : IdOperand) (second : jsval) : bool :=
  match first with
  | FreshMap fa =>
      match fields_of hp second with
      | Some fb => same_fields fa fb
      | None => false
      end
  | OfValue v =>
      if is_provided_non_null v && is_provided_non_null second then
        match fields_of hp v, fields_of hp second with
        | Some fa, Some fb => same_fields fa fb
        | None, None => strict_eq v second
        | _, _ => false
        end
      else false
  end.

(** Modelled from the spec: the [DateUtils] conversions are missing from the
    sources at hand; a [Date] object carries the strings the three
    conversions print for it, any other value is returned as it is. *)
Definition date_part (part : string -> string -> string -> string)
    (hp : gmap ref obj) (v : jsval) : jsval :=
  match v with
  | VObj r =>
      match hp !! r with
      | Some (ODate d t u) => VStr (part d t u)
      | _ => v
      end
  | _ => v
  end.

(** Modelled from the spec: [DateUtils.simpleArrayToString] is missing from
    the sources at hand; the canonical join of an array is its items
    separated by commas, any other value is returned as it is. *)
Definition simple_array_to_string (hp : gmap ref obj) (v : jsval) : jsval :=
  match v with
  | VObj r =>
      match hp !! r with
      | Some (OArray items) => VStr (String.concat "," items)
      | _ => v
      end
  | _ => v
  end.

Definition quote : string := String (Ascii.ascii_of_nat 34) EmptyString.

Definition json_of_primitive (v : jsval) : string :=
  match v with
  | VBool true => "true"
  | VBool false => "false"
  | VNum n => pretty n
  | VStr s => quote +:+ s +:+ quote
  | _ => "null"
  end.

(** [JSON.stringify] on primitives and on objects whose properties are
    primitives. *)
Definition json_stringify (hp : gmap ref obj) (v : jsval) : jsval :=
  match v with
  | VUndefined | VSubject _ => VUndefined
  | VObj r =>
      match hp !! r with
      | Some (OPlain fields) =>
          VStr ("{" +:+ String.concat ","
                  (map (λ kv, quote +:+ kv.1 +:+ quote +:+ ":" +:+ json_of_primitive kv.2) fields)
                +:+ "}")
      | Some (OArray items) =>
          VStr ("[" +:+ String.concat "," (map (λ s, quote +:+ s +:+ quote) items) +:+ "]")
      | Some (ODate _ _ u) => VStr (quote +:+ u +:+ quote)
      | None => VUndefined
      end
  | _ => VStr (json_of_primitive v)
  end.

Definition collaborators (hp : gmap ref obj) : Collaborators := {|
  column_getEntityValue := λ column r, getProperty hp (propertyName column) r;
  relation_getEntityValue := λ relation r, getProperty hp (relationPropertyName relation) r;
  getRelationIdMap := relationIdMap hp;
  compareIds := compare_ids hp;
  mixedDateToDateString := date_part (λ d _ _, d) hp;
  mixedDateToTimeString := date_part (λ _ t _, t) hp;
  mixedDateToUtcDatetimeString := date_part (λ _ _ u, u) hp;
  simpleArrayToString := simple_array_to_string hp;
  JSON_stringify := json_stringify hp
|}.

(** *** Descriptors of a [Post] entity with a many-to-one [tag] *)

Definition plainColumn (id : nat) (name : string) (ty : ColumnType) : ColumnMetadata :=
  mkColumn id name ty false false false false false None.

Definition tagRelation : RelationMetadata := mkRelation 1 "tag" ["id"].

(** A relation none of the example entities provides a value for. *)
Definition ownerRelation : RelationMetadata := mkRelation 2 "owner" ["id"].

Definition idColumn : ColumnMetadata := plainColumn 1 "id" (TypeName "int").
Definition titleColumn : ColumnMetadata := plainColumn 2 "title" (TypeName "varchar").
Definition labelsColumn : ColumnMetadata := plainColumn 3 "labels" (TypeName "simple-array").
Definition updatedAtColumn : ColumnMetadata :=
  mkColumn 4 "updatedAt" (TypeName "datetime") false false true false false None.
Definition tagIdColumn : ColumnMetadata :=
  mkColumn 5 "tagId" (TypeName "int") false false false false false (Some tagRelation).

Definition postMetadata : EntityMetadata :=
  mkEntityMetadata [idColumn; titleColumn; labelsColumn; updatedAtColumn; tagIdColumn]
                   [tagRelation].

Definition newSubject (md : EntityMetadata) (e db : option ref) (insert : bool) : Subject :=
  mkSubject md e db insert [] [] [].

Definition tagMetadata : EntityMetadata := mkEntityMetadata [idColumn] [].

(** *** A heap with two versions of a post, its snapshot and a tag

    Object 4 is the stored snapshot of a post, its [tag] reduced to the
    id-only object 5.  Object 11 is that post with the bare primary key [1]
    as its [tag]; object 2 is the same post with the entity 3 as its [tag],
    populated with its primary key only.  Object 1 is the post with labels, a
    date and the bare key; object 12 is the post with the related entity and
    a [tagId] of its own.  The arrays 6 and 7 and the dates 8 and 9 are
    pairwise distinct objects with the same content.  Object 10 is a post
    with an explicit null title and an explicit null tag. *)
Definition memory : gmap ref obj :=
  list_to_map [
    (1, OPlain [("id", VNum 10); ("title", VStr "hello"); ("labels", VObj 6);
                ("updatedAt", VObj 8); ("tag", VNum 1)]);
    (2, OPlain [("id", VNum 10); ("title", VStr "hello"); ("tag", VObj 3)]);
    (3, OPlain [("id", VNum 1)]);
    (4, OPlain [("id", VNum 10); ("title", VStr "hello"); ("labels", VObj 7);
                ("updatedAt", VObj 9); ("tagId", VNum 1); ("tag", VObj 5)]);
    (5, OPlain [("id", VNum 1)]);
    (6, OArray ["a"; "b"]);
    (7, OArray ["a"; "b"]);
    (8, ODate "2020-01-02" "03:04:05" "2020-01-02 03:04:05");
    (9, ODate "2020-01-02" "03:04:05" "2020-01-02 03:04:05");
    (10, OPlain [("id", VNum 11); ("title", VNull); ("tag", VNull)]);
    (11, OPlain [("id", VNum 10); ("title", VStr "hello"); ("tag", VNum 1)]);
    (12, OPlain [("id", VNum 10); ("title", VStr "hello"); ("tagId", VNum 2);
                 ("tag", VObj 3)])
  ].

Definition world : Collaborators := collaborators memory.

(** A post about to be inserted (no snapshot). *)
Definition freshPost : Subject := newSubject postMetadata (Some 1) None true.

(** The post with labels, a date and the bare key, loaded with its
    snapshot. *)
Definition loadedPost : Subject := newSubject postMetadata (Some 1) (Some 4) false.

(** The post with the bare key, loaded with its snapshot. *)
Definition loadedPostWithKey : Subject := newSubject postMetadata (Some 11) (Some 4) false.

(** The post with the related entity and a [tagId], loaded with its
    snapshot. *)
Definition loadedPostWithTagId : Subject := newSubject postMetadata (Some 12) (Some 4) false.

(** The post with the related entity, loaded with its snapshot. *)
Definition loadedPostWithTag : Subject := newSubject postMetadata (Some 2) (Some 4) false.

(** The tag entity, about to be inserted. *)
Definition freshTag : Subject := newSubject tagMetadata (Some 3) None true.

(** The post with the related entity, about to be inserted. *)
Definition freshPostWithTag : Subject := newSubject postMetadata (Some 2) None true.

(** A post whose [title] and [tag] are explicitly null and whose [labels]
    are not provided, about to be inserted. *)
Definition freshNullPost : Subject := newSubject postMetadata (Some 10) None true.

(** The post about to be inserted, with a change record of its title
    scheduled beforehand. *)
Definition preparedPost : Subject :=
  mkSubject postMetadata (Some 1) None true [] []
            [mkChangeMap (Some titleColumn) None (VStr "old")].

(** A Subject without an entity. *)
Definition emptySubject : Subject := newSubject postMetadata None (Some 4) false.

End Fixture.

(** ** [DeleteQueryBuilder.execute] *)

Module DeleteQueryBuilder.

(** The awaited calls on the query runner and its broadcaster. *)
Inductive Call : Type :=
| StartTransaction
| BroadcastBeforeRemoveEvent
| Query
| BroadcastAfterRemoveEvent
| CommitTransaction
| RollbackTransaction
| Release.

#[global] Instance Call_eq_dec : EqDecision Call.
Proof. solve_decision. Defined.

Definition Error := string.

(** What becomes of the promise of a call: it is fulfilled, it is rejected
    with an error, or it is never settled (as the promise of
    [OracleQueryRunner.release] on a runner without a connection). *)
Inductive Answer : Type :=
| Resolves
| Rejects (e : Error)
| NeverSettles.

(** What the query runner answers: for each call, what becomes of its
    promise, and the raw result of the query.  No call is awaited twice in
    one run of [execute]. *)
Record Environment : Type := mkEnvironment {
  answer : Call -> Answer;
  rawResult : jsval
}.

(** [expressionMap], as far as [execute] reads it, and whether the query
    runner was created by this call ([queryRunner !== this.queryRunner]). *)
Record ExpressionMap : Type := mkExpressionMap {
  useTransaction : bool;
  callListeners : bool;
  mainAliasHasMetadata : bool
}.

Record DeleteResult : Type := mkDeleteResult { raw : jsval }.

(** The state [execute] works on: the query runner's flag, the local
    variable [transactionStartedByUs] and the calls issued so far. *)
Record State : Type := mkState {
  isTransactionActive : bool;
  transactionStartedByUs : bool;
  calls : list Call
}.

(** How an asynchronous block ends: with a value, with an exception, or
    not at all, when it awaits a promise that is never settled. *)
Inductive Completion (A : Type) : Type :=
| Normal (a : A)
| Throw (e : Error)
| Unsettled.
Arguments Normal {A} a.
Arguments Throw {A} e.
Arguments Unsettled {A}.

Definition Async (A : Type) : Type := State -> Completion A * State.

#[global] Instance Async_ret : MRet Async := λ A a st, (Normal a, st).

#[global] Instance Async_bind : MBind Async := λ A B f m st,
  match m st with
  | (Normal a, st') => f a st'
  | (Throw e, st') => (Throw e, st')
  | (Unsettled, st') => (Unsettled, st')
  end.

Definition throw {A} (e : Error) : Async A := λ st, (Throw e, st).

(** The handler runs on an exception only; a body that is not settled
    reaches neither the handler nor what follows. *)
Definition tryCatch {A} (body : Async A) (handler : Error -> Async A) : Async A := λ st,
  match body st with
  | (Normal a, st') => (Normal a, st')
  | (Throw e, st') => handler e st'
  | (Unsettled, st') => (Unsettled, st')
  end.

(** The finalizer runs once the body has completed; its exception replaces
    the completion of the body, and while it is not settled nothing
    completes. *)
Definition tryFinally {A} (body : Async A) (finalizer : Async unit) : Async A := λ st,
  match body st with
  | (Unsettled, st') => (Unsettled, st')
  | (completion, st') =>
      match finalizer st' with
      | (Normal _, st'') => (completion, st'')
      | (Throw e, st'') => (Throw e, st'')
      | (Unsettled, st'') => (Unsettled, st'')
      end
  end.

Definition when (b : bool) (m : Async unit) : Async unit :=
  if b then m else mret tt.

Definition get {A} (f : State -> A) : Async A := λ st, (Normal (f st), st).

Definition setTransactionStartedByUs (b : bool) : Async unit := λ st,
  (Normal tt, mkState (isTransactionActive st) b (calls st)).

(** The effect of a successful call on the runner's flag. *)
Definition settle (c : Call) (active : bool) : bool :=
  match c with
  | StartTransaction => true
  | CommitTransaction | RollbackTransaction => false
  | _ => active
  end.

(** [await c]: the call is issued; the block goes on when its promise is
    fulfilled, throws when it is rejected and stops for good when it is never
    settled. *)
Definition await (env : Environment) (c : Call) : Async unit := λ st,
  let issued := calls st ++ [c] in
  match answer env c with
  | Resolves => (Normal tt, mkState (settle c (isTransactionActive st))
                                    (transactionStartedByUs st) issued)
  | Rejects e => (Throw e, mkState (isTransactionActive st) (transactionStartedByUs st) issued)
  | NeverSettles =>
      (Unsettled, mkState (isTransactionActive st) (transactionStartedByUs st) issued)
  end.

(** Lines 47-68: the [try] block. *)
Definition tryBlock (expressionMap : ExpressionMap) (env : Environment) : Async DeleteResult :=
  active ← get isTransactionActive;
  when (useTransaction expressionMap && negb active)
       (await env StartTransaction;; setTransactionStartedByUs true);;
  when (callListeners expressionMap && mainAliasHasMetadata expressionMap)
       (await env BroadcastBeforeRemoveEvent);;
  await env Query;;
  when (callListeners expressionMap && mainAliasHasMetadata expressionMap)
       (await env BroadcastAfterRemoveEvent);;
  started ← get transactionStartedByUs;
  when started (await env CommitTransaction);;
  mret (mkDeleteResult (rawResult env)).

(** Lines 70-79: the [catch] block. *)
Definition catchBlock (env : Environment) (error : Error) : Async DeleteResult :=
  started ← get transactionStartedByUs;
  when started (tryCatch (await env RollbackTransaction) (λ rollbackError, mret tt));;
  throw error.

(** Lines 81-85: the [finally] block. *)
Definition finallyBlock (ownQueryRunner : bool) (env : Environment) : Async unit :=
  when ownQueryRunner (await env Release).

(** [execute], from the point where the statement and the query runner have
    been obtained (lines 43-44 issue no call on the runner). *)
Definition execute (expressionMap : ExpressionMap) (ownQueryRunner : bool)
    (env : Environment) : Async DeleteResult :=
  tryFinally (tryCatch (tryBlock expressionMap env) (catchBlock env))
             (finallyBlock ownQueryRunner env).

(** A run of [execute] on a query runner whose flag is [active]. *)
Definition run (expressionMap : ExpressionMap) (ownQueryRunner : bool)
    (env : Environment) (active : bool) : Completion DeleteResult * State :=
  execute expressionMap ownQueryRunner env (mkState active false []).

Definition outcome (r : Completion DeleteResult * State) : Completion DeleteResult := r.1.
Definition issued (r : Completion DeleteResult * State) : list Call := calls r.2.

(** [callListeners === true && mainAlias.hasMetadata] *)
Definition listenersCalled (expressionMap : ExpressionMap) : bool :=
  callListeners expressionMap && mainAliasHasMetadata expressionMap.

(** The calls the [try] block awaits between the start of the transaction
    and its commit, in program order. *)
Definition stepsBeforeCommit (expressionMap : ExpressionMap) : list Call :=
  (if listenersCalled expressionMap then [BroadcastBeforeRemoveEvent] else [])
  ++ [Query]
  ++ (if listenersCalled expressionMap then [BroadcastAfterRemoveEvent] else []).

(** The first of the given calls that is rejected, with its error, when
    every call before it is fulfilled. *)
Fixpoint firstRejection (env : Environment) (steps : list Call) : option (Call * Error) :=
  match steps with
  | [] => None
  | c :: rest =>
      match answer env c with
      | Resolves => firstRejection env rest
      | Rejects e => Some (c, e)
      | NeverSettles => None
      end
  end.

(** What [execute] completes with once the [catch] block has thrown [e]:
    the [finally] block awaits the release of a query runner the call
    created. *)
Definition afterRelease (ownQueryRunner : bool) (env : Environment) (e : Error)
    : Completion DeleteResult :=
  if ownQueryRunner then
    match answer env Release with
    | Resolves => Throw e
    | Rejects releaseError => Throw releaseError
    | NeverSettles => Unsettled
    end
  else Throw e.

(** A query runner whose query and whose release are both rejected. *)
Definition failingQueryAndRelease : Environment :=
  mkEnvironment
    (λ c, match c with
          | Query => Rejects "query failed"
          | Release => Rejects "release failed"
          | _ => Resolves
          end)
    VNull.

(** A query runner whose query is rejected. *)
Definition failingQuery : Environment :=
  mkEnvironment (λ c, match c with Query => Rejects "query failed" | _ => Resolves end) VNull.

(** A query runner that fulfils every call. *)
Definition accepting : Environment := mkEnvironment (λ _, Resolves) (VNum 1).

(** A query runner whose query and whose rollback are both rejected. *)
Definition failingQueryAndRollback : Environment :=
  mkEnvironment
    (λ c, match c with
          | Query => Rejects "query failed"
          | RollbackTransaction => Rejects "rollback failed"
          | _ => Resolves
          end)
    VNull.

(** An [OracleQueryRunner] whose driver cannot obtain a connection: the
    start of the transaction sets the flag only, every statement (the query,
    COMMIT, ROLLBACK) is rejected with the error of the connection, and the
    promise of the release is never settled. *)
Definition unconnectedRunner : Environment :=
  mkEnvironment
    (λ c, match c with
          | Query | CommitTransaction | RollbackTransaction => Rejects "ORA-12541"
          | Release => NeverSettles
          | _ => Resolves
          end)
    VUndefined.

End DeleteQueryBuilder.

(** ** [OracleQueryRunner]: connection, statements and transactions *)

Module OracleQueryRunner.

Definition DriverError := string.

(** What the promises of the runner reject with: the three errors the
    runner raises itself, a failed statement wrapped with its text and
    parameters, and an error of the driver passed on as it is. *)
Inductive Error : Type :=
| QueryRunnerAlreadyReleasedError
| TransactionAlreadyStartedError
| TransactionNotStartedError
| QueryFailedError (query : string) (parameters : option (list jsval)) (driverError : DriverError)
| DriverFailure (e : DriverError).

Inductive Mode : Type := master | slave.

(** What the driver and its connection answer when they are asked: whether
    a connection is obtained, what a statement executes to, whether the
    connection closes. *)
Record Driver : Type := mkDriver {
  isReplicated : bool;
  obtainMasterConnection : option DriverError;
  obtainSlaveConnection : option DriverError;
  execute : string -> DriverError + jsval;
  close : option DriverError
}.

(** The fields of the runner the modelled methods read or write, and the
    statements handed to the connection so far, each with its parameters and
    its [autoCommit] option.  [databaseConnectionPromise] is absent or the
    promise of the first attempt to connect, known by how it settles.  The
    calls of the logger are left out. *)
Record Runner : Type := mkRunner {
  mode : Mode;
  isReleased : bool;
  isTransactionActive : bool;
  databaseConnection : bool;
  databaseConnectionPromise : option (option DriverError);
  executed : list (string * option (list jsval) * bool)
}.

(** How a promise ends: resolved, rejected, or never settled. *)
Inductive Settled (A : Type) : Type :=
| Resolved (a : A)
| Rejected (e : Error)
| Pending.
Arguments Resolved {A} a.
Arguments Rejected {A} e.
Arguments Pending {A}.

Definition newRunner (m : Mode) : Runner := mkRunner m false false false None [].

Definition setTransactionActive (b : bool) (r : Runner) : Runner :=
  mkRunner (mode r) (isReleased r) b (databaseConnection r)
           (databaseConnectionPromise r) (executed r).

Definition setReleased (r : Runner) : Runner :=
  mkRunner (mode r) true (isTransactionActive r) (databaseConnection r)
           (databaseConnectionPromise r) (executed r).

(** Lines 62-83. *)
Definition connect (driver : Driver) (r : Runner) : Settled unit * Runner :=
  if databaseConnection r then (Resolved tt, r)
  else
    match databaseConnectionPromise r with
    | Some (Some e) => (Rejected (DriverFailure e), r)
    | Some None => (Resolved tt, r)
    | None =>
        let answer :=
          match mode r with
          | slave => if isReplicated driver then obtainSlaveConnection driver
                     else obtainMasterConnection driver
          | master => obtainMasterConnection driver
          end in
        match answer with
        | Some e =>
            (Rejected (DriverFailure e),
             mkRunner (mode r) (isReleased r) (isTransactionActive r) false
                      (Some (Some e)) (executed r))
        | None =>
            (Resolved tt,
             mkRunner (mode r) (isReleased r) (isTransactionActive r) true
                      (Some None) (executed r))
        end
    end.

(** Lines 144-180.  On a released runner the error is raised before any
    promise is made; a caller that awaits the call sees a rejection. *)
Definition query (driver : Driver) (sql : string) (parameters : option (list jsval))
    (r : Runner) : Settled jsval * Runner :=
  if isReleased r then (Rejected QueryRunnerAlreadyReleasedError, r)
  else
    let autoCommit := if isTransactionActive r then false else true in
    match connect driver r with
    | (Resolved _, r) =>
        let r := mkRunner (mode r) (isReleased r) (isTransactionActive r)
                          (databaseConnection r) (databaseConnectionPromise r)
                          (executed r ++ [(sql, parameters, autoCommit)]) in
        match execute driver sql with
        | inl err => (Rejected (QueryFailedError sql parameters err), r)
        | inr rows => (Resolved rows, r)
        end
    | (Rejected e, r) => (Rejected e, r)
    | (Pending, r) => (Pending, r)
    end.

(** Lines 89-101. *)
Definition release (driver : Driver) (r : Runner) : Settled unit * Runner :=
  let r := setReleased r in
  if databaseConnection r then
    match close driver with
    | Some err => (Rejected (DriverFailure err), r)
    | None => (Resolved tt, r)
    end
  else (Pending, r).

(** Lines 106-115. *)
Definition startTransaction (r : Runner) : Settled unit * Runner :=
  if isReleased r then (Rejected QueryRunnerAlreadyReleasedError, r)
  else if isTransactionActive r then (Rejected TransactionAlreadyStartedError, r)
  else (Resolved tt, setTransactionActive true r).

(** Lines 121-127 and 133-139: the statement is awaited, then the flag is
    cleared. *)
Definition endTransaction (statement : string) (driver : Driver) (r : Runner)
    : Settled unit * Runner :=
  if negb (isTransactionActive r) then (Rejected TransactionNotStartedError, r)
  else
    match query driver statement None r with
    | (Resolved _, r) => (Resolved tt, setTransactionActive false r)
    | (Rejected e, r) => (Rejected e, r)
    | (Pending, r) => (Pending, r)
    end.

Definition commitTransaction : Driver -> Runner -> Settled unit * Runner :=
  endTransaction "COMMIT".

Definition rollbackTransaction : Driver -> Runner -> Settled unit * Runner :=
  endTransaction "ROLLBACK".

(** The calls a user of the runner can make, and a sequence of them, each
    answered by the driver as it is at that moment. *)
Inductive Call : Type :=
| CallQuery (sql : string) (parameters : option (list jsval))
| CallStartTransaction
| CallCommitTransaction
| CallRollbackTransaction
| CallRelease.

Definition call (driver : Driver) (c : Call) (r : Runner) : Runner :=
  match c with
  | CallQuery sql parameters => (query driver sql parameters r).2
  | CallStartTransaction => (startTransaction r).2
  | CallCommitTransaction => (commitTransaction driver r).2
  | CallRollbackTransaction => (rollbackTransaction driver r).2
  | CallRelease => (release driver r).2
  end.

Definition calls (l : list (Driver * Call)) (r : Runner) : Runner :=
  foldl (λ r dc, call dc.1 dc.2 r) r l.

(** A driver that connects, executes every statement and closes. *)
Definition healthyDriver : Driver :=
  mkDriver false None None (λ _, inr VNull) None.

(** A driver that cannot connect. *)
Definition unreachableDriver : Driver :=
  mkDriver false (Some "ORA-12541") (Some "ORA-12541") (λ _, inr VNull) None.

(** A driver that executes every statement but COMMIT. *)
Definition commitFailingDriver : Driver :=
  mkDriver false None None
           (λ sql, if bool_decide (sql = "COMMIT") then inl "ORA-02091" else inr VNull)
           None.

End OracleQueryRunner.

(** ** [BaseQueryRunner]: the table cache and the statement memory

    The class follows [DeleteQueryBuilder] in
    [src/query-builder/DeleteQueryBuilder.ts]; the line numbers are those of
    that file. *)

Module BaseQueryRunner.

Definition Error := string.

(** A table of the cache, as far as the runner names its fields;
    [tableId] stands for the identity of the object. *)
Record Table : Type := mkTable {
  tableId : nat;
  name : string;
  columns : jsval;
  indices : jsval;
  foreignKeys : jsval;
  uniques : jsval;
  checks : jsval;
  justCreated : jsval;
  engine : jsval
}.

#[global] Instance Table_eq_dec : EqDecision Table.
Proof. solve_decision. Defined.

(** The fields of the runner the modelled methods read or write
    ([sqlInMemory] by its two lists), with the calls of the two abstract
    methods so far: the statements given to [query] and the lists of names
    given to [loadTables]. *)
Record Runner : Type := mkRunner {
  loadedTables : list Table;
  sqlMemoryMode : bool;
  upQueries : list string;
  downQueries : list string;
  sent : list string;
  loads : list (list string)
}.

(** What the two abstract methods answer.  They are taken to leave the
    cache and the memory alone, as those of [OracleQueryRunner] do. *)
Record Environment : Type := mkEnvironment {
  loadTablesAnswer : list string -> Error + list Table;
  queryAnswer : string -> Error + jsval
}.

Inductive Completion (A : Type) : Type :=
| Normal (a : A)
| Throw (e : Error).
Arguments Normal {A} a.
Arguments Throw {A} e.

Definition query (env : Environment) (sql : string) (r : Runner)
    : Completion jsval * Runner :=
  let r := mkRunner (loadedTables r) (sqlMemoryMode r) (upQueries r) (downQueries r)
                    (sent r ++ [sql]) (loads r) in
  match queryAnswer env sql with
  | inl e => (Throw e, r)
  | inr rows => (Normal rows, r)
  end.

Definition loadTables (env : Environment) (tablePaths : list string) (r : Runner)
    : Completion (list Table) * Runner :=
  let r := mkRunner (loadedTables r) (sqlMemoryMode r) (upQueries r) (downQueries r)
                    (sent r) (loads r ++ [tablePaths]) in
  match loadTablesAnswer env tablePaths with
  | inl e => (Throw e, r)
  | inr tables => (Normal tables, r)
  end.

Definition setLoadedTables (tables : list Table) (r : Runner) : Runner :=
  mkRunner tables (sqlMemoryMode r) (upQueries r) (downQueries r) (sent r) (loads r).

Definition setMemory (memoryMode : bool) (ups downs : list string) (r : Runner) : Runner :=
  mkRunner (loadedTables r) memoryMode ups downs (sent r) (loads r).

Definition doubleQuote : string := String (Ascii.ascii_of_nat 34) EmptyString.

(** An argument of [executeQueries] is one statement or a list of
    statements (lines 498-501). *)
Definition statements (queries : string + list string) : list string :=
  match queries with inl q => [q] | inr l => l end.

Section Methods.

(** [PromiseUtils.runInSequence] is not part of the runner; the methods are
    modelled for any implementation of it. *)
Variable runInSequence :
  list string -> (string -> Runner -> Completion jsval * Runner)
  -> Runner -> Completion (list jsval) * Runner.

Variable env : Environment.

(** Lines 346-349. *)
Definition getTable (tablePath : string) (r : Runner) : Completion (option Table) * Runner :=
  match loadTables env [tablePath] r with
  | (Normal tables, r) => (Normal (head tables), setLoadedTables tables r)
  | (Throw e, r) => (Throw e, r)
  end.

(** Lines 354-357. *)
Definition getTables (tableNames : list string) (r : Runner)
    : Completion (list Table) * Runner :=
  match loadTables env tableNames r with
  | (Normal tables, r) => (Normal tables, setLoadedTables tables r)
  | (Throw e, r) => (Throw e, r)
  end.

(** Lines 364-367. *)
Definition enableSqlMemory (r : Runner) : Runner := setMemory true [] [] r.

(** Lines 375-378. *)
Definition disableSqlMemory (r : Runner) : Runner := setMemory false [] [] r.

(** Lines 383-385. *)
Definition clearSqlMemory (r : Runner) : Runner := setMemory (sqlMemoryMode r) [] [] r.

(** Lines 390-392. *)
Definition getMemorySql (r : Runner) : list string * list string :=
  (upQueries r, downQueries r).

(** Lines 397-399. *)
Definition executeMemoryUpSql (r : Runner) : Completion unit * Runner :=
  match runInSequence (upQueries r) (query env) r with
  | (Normal _, r) => (Normal tt, r)
  | (Throw e, r) => (Throw e, r)
  end.

(** Lines 404-406: [reverse] turns the list of the memory round in place
    and hands that list on. *)
Definition executeMemoryDownSql (r : Runner) : Completion unit * Runner :=
  let r := setMemory (sqlMemoryMode r) (upQueries r) (reverse (downQueries r)) r in
  match runInSequence (downQueries r) (query env) r with
  | (Normal _, r) => (Normal tt, r)
  | (Throw e, r) => (Throw e, r)
  end.

(** Lines 415-426. *)
Definition getCachedTable (tableName : string) (r : Runner) : Completion Table * Runner :=
  match find (λ table, bool_decide (name table = tableName)) (loadedTables r) with
  | Some table => (Normal table, r)
  | None =>
      match loadTables env [tableName] r with
      | (Normal foundTables, r) =>
          match foundTables with
          | table :: _ =>
              (Normal table, setLoadedTables (loadedTables r ++ [table]) r)
          | [] =>
              (Throw ("Table " +:+ doubleQuote +:+ tableName +:+ doubleQuote
                      +:+ " does not exist."), r)
          end
      | (Throw e, r) => (Throw e, r)
      end
  end.

(** Lines 431-443: the fields of the found table are overwritten; it
    remains the same object, so every entry of the cache that is this object
    shows the new fields. *)
Definition overwrite (foundTable changedTable : Table) : Table :=
  mkTable (tableId foundTable) (name changedTable) (columns changedTable)
          (indices changedTable) (foreignKeys changedTable) (uniques changedTable)
          (checks changedTable) (justCreated changedTable) (engine changedTable).

Definition replaceCachedTable (table changedTable : Table) (r : Runner) : Runner :=
  match find (λ loadedTable, bool_decide (name loadedTable = name table))
             (loadedTables r) with
  | Some foundTable =>
      setLoadedTables
        ((λ loadedTable,
            if bool_decide (tableId loadedTable = tableId foundTable)
            then overwrite foundTable changedTable else loadedTable)
           <$> loadedTables r) r
  | None => r
  end.

(** Lines 497-511. *)
Definition executeQueries (ups downs : string + list string) (r : Runner)
    : Completion unit * Runner :=
  let ups := statements ups in
  let downs := statements downs in
  let r := setMemory (sqlMemoryMode r) (upQueries r ++ ups) (downQueries r ++ downs) r in
  if sqlMemoryMode r then (Normal tt, r)
  else
    match runInSequence ups (query env) r with
    | (Normal _, r) => (Normal tt, r)
    | (Throw e, r) => (Throw e, r)
    end.

(** Calls of [executeQueries] one after the other, however each of them
    settles. *)
Definition executeQueriesEach
    (calls : list ((string + list string) * (string + list string))) (r : Runner)
    : Runner :=
  foldl (λ r call, (executeQueries call.1 call.2 r).2) r calls.

End Methods.

(** An implementation of [runInSequence] for the examples: the callback is
    awaited on the items one after the other, up to the first rejection. *)
Fixpoint runSequentially (collection : list string)
    (callback : string -> Runner -> Completion jsval * Runner) (r : Runner)
    : Completion (list jsval) * Runner :=
  match collection with
  | [] => (Normal [], r)
  | item :: rest =>
      match callback item r with
      | (Normal result, r) =>
          match runSequentially rest callback r with
          | (Normal results, r) => (Normal (result :: results), r)
          | (Throw e, r) => (Throw e, r)
          end
      | (Throw e, r) => (Throw e, r)
      end
  end.

Definition newRunner : Runner := mkRunner [] false [] [] [] [].

Definition usersTable : Table :=
  mkTable 1 "users" (VObj 1) (VObj 2) (VObj 3) (VObj 4) (VObj 5) (VBool false) VUndefined.

Definition renamedTable : Table :=
  mkTable 2 "members" (VObj 6) (VObj 2) (VObj 3) (VObj 4) (VObj 5) (VBool false) VUndefined.

(** A database that holds the table "users" only and accepts every
    statement. *)
Definition usersDatabase : Environment :=
  mkEnvironment
    (λ names, inr (if bool_decide ("users" ∈ names) then [usersTable] else []))
    (λ _, inr VNull).

(** A table the database names with its schema. *)
Definition qualifiedTable : Table :=
  mkTable 3 "public.users" (VObj 1) (VObj 2) (VObj 3) (VObj 4) (VObj 5) (VBool false)
          VUndefined.

(** A database that answers every request with the schema-qualified
    table. *)
Definition qualifiedDatabase : Environment :=
  mkEnvironment (λ _, inr [qualifiedTable]) (λ _, inr VNull).

End BaseQueryRunner.

(** ** [QueryBuilder]: conditions and parameters

    From [src/query-builder/QueryBuilder.ts]. *)

Module QueryBuilder.

(** The type of a condition: "simple", "and" or "or". *)
Inductive ConditionType : Type := Simple | And | Or.

(** The metadata of the main selection, as far as the modelled methods
    read it. *)
Record MainMetadata : Type := mkMainMetadata {
  hasDiscriminatorColumn : bool;
  discriminatorColumnFullName : string;
  discriminatorValue : jsval
}.

(** The heap of objects, as far as an assignment to [this.parameters]
    reads it: whether a lookup of "__proto__" that starts at the object
    reaches the accessor of [Object.prototype], as it does on an object
    literal, and does not on an object without a prototype or with a
    property of that name of its own. *)
Class ObjectHeap : Type := {
  inheritsProtoAccessor : ref -> bool
}.

(** [this.parameters], an object created as [{}] (line 65) and read by its
    own properties ([Object.keys], [Object.assign]).  The values assigned to
    it are data: objects without accessors that are not frozen, and not the
    object itself.  [properties] holds its own properties other than
    "__proto__"; [ownProto] is an own property of that name, which exists
    only once the prototype chain has lost the accessor; [prototype] is
    [None] for [Object.prototype] and the value an assignment to "__proto__"
    has put in its place otherwise. *)
Record ParametersObject : Type := mkParametersObject {
  properties : gmap string jsval;
  ownProto : option jsval;
  prototype : option jsval
}.

Definition emptyObject : ParametersObject := mkParametersObject ∅ None None.

(** The fields of the builder the modelled methods read or write.
    [fromTableName] is [None] while the field is undefined; [mainMetadata]
    stands for [connection.getMetadata(selectionMap.mainSelection.target)],
    which the methods ask for only when no table name is set. *)
Record Builder : Type := mkBuilder {
  fromTableName : option string;
  mainMetadata : MainMetadata;
  wheres : list (ConditionType * string);
  havings : list (ConditionType * string);
  parametersObject : ParametersObject
}.

(** The parameters of the builder: the own properties of [this.parameters]
    other than "__proto__". *)
Definition parameters (qb : Builder) : gmap string jsval :=
  properties (parametersObject qb).

Definition setWheres (l : list (ConditionType * string)) (qb : Builder) : Builder :=
  mkBuilder (fromTableName qb) (mainMetadata qb) l (havings qb) (parametersObject qb).

Definition setHavings (l : list (ConditionType * string)) (qb : Builder) : Builder :=
  mkBuilder (fromTableName qb) (mainMetadata qb) (wheres qb) l (parametersObject qb).

Section Assignments.
Context `{ObjectHeap}.

(** Whether a lookup of "__proto__" that starts at the prototype reaches
    the accessor of [Object.prototype]. *)
Definition accessorReached (prototype : option jsval) : bool :=
  match prototype with
  | None => true
  | Some VNull => false
  | Some (VObj r) => inheritsProtoAccessor r
  | Some _ => true
  end.

(** [object[key] = value].  Every key but "__proto__" becomes an own
    property, whatever the prototype holds (a data property inherited from it
    is shadowed).  The key "__proto__" is an own property when the object has
    one already or its prototype chain has lost the accessor; otherwise the
    accessor is called, which replaces the prototype when the value is an
    object or null and does nothing for any other value, and no own property
    is made. *)
Definition assign (key : string) (value : jsval) (object : ParametersObject)
    : ParametersObject :=
  if bool_decide (key = "__proto__") then
    match ownProto object with
    | Some _ => mkParametersObject (properties object) (Some value) (prototype object)
    | None =>
        if accessorReached (prototype object) then
          if is_object value || bool_decide (value = VNull)
          then mkParametersObject (properties object) None (Some value)
          else object
        else mkParametersObject (properties object) (Some value) (prototype object)
    end
  else
    mkParametersObject (<[key := value]> (properties object)) (ownProto object)
                       (prototype object).

(** Lines 794-797. *)
Definition setParameter (key : string) (value : jsval) (qb : Builder) : Builder :=
  mkBuilder (fromTableName qb) (mainMetadata qb) (wheres qb) (havings qb)
            (assign key value (parametersObject qb)).

(** Lines 803-808: the own keys of the given object are assigned one by
    one. *)
Definition setParameters (given : gmap string jsval) (qb : Builder) : Builder :=
  map_fold setParameter qb given.

(** [if (parameters) this.setParameters(parameters)]: an object is truthy. *)
Definition setOptionalParameters (given : option (gmap string jsval)) (qb : Builder)
    : Builder :=
  match given with
  | Some given => setParameters given qb
  | None => qb
  end.

(** Lines 637-641: the method [where]. *)
Definition where_ (condition : string) (given : option (gmap string jsval)) (qb : Builder)
    : Builder :=
  setOptionalParameters given (setWheres (wheres qb ++ [(Simple, condition)]) qb).

(** Lines 647-651. *)
Definition andWhere (condition : string) (given : option (gmap string jsval))
    (qb : Builder) : Builder :=
  setOptionalParameters given (setWheres (wheres qb ++ [(And, condition)]) qb).

(** Lines 668-672. *)
Definition orWhere (condition : string) (given : option (gmap string jsval))
    (qb : Builder) : Builder :=
  setOptionalParameters given (setWheres (wheres qb ++ [(Or, condition)]) qb).

(** Lines 691-695. *)
Definition having (condition : string) (given : option (gmap string jsval))
    (qb : Builder) : Builder :=
  setOptionalParameters given (setHavings (havings qb ++ [(Simple, condition)]) qb).

(** Lines 701-705. *)
Definition andHaving (condition : string) (given : option (gmap string jsval))
    (qb : Builder) : Builder :=
  setOptionalParameters given (setHavings (havings qb ++ [(And, condition)]) qb).

(** Lines 711-715. *)
Definition orHaving (condition : string) (given : option (gmap string jsval))
    (qb : Builder) : Builder :=
  setOptionalParameters given (setHavings (havings qb ++ [(Or, condition)]) qb).

End Assignments.

(** A string is truthy unless it is undefined or empty. *)
Definition isSet (s : option string) : bool :=
  match s with
  | Some s => negb (bool_decide (s = EmptyString))
  | None => false
  end.

(** Whether the methods add the discriminator of the main selection
    (lines 830-833 and 1570-1573). *)
Definition addsDiscriminator (qb : Builder) : bool :=
  negb (isSet (fromTableName qb)) && hasDiscriminatorColumn (mainMetadata qb).

(** Lines 826-837: [Object.assign] copies the own properties into a new
    object, on which a property "__proto__" of the source goes through the
    accessor and makes no own property. *)
Definition getParameters (qb : Builder) : gmap string jsval :=
  if addsDiscriminator qb
  then <["discriminatorColumnValue" := discriminatorValue (mainMetadata qb)]> (parameters qb)
  else parameters qb.

(** [Array.prototype.join]. *)
Definition join (separator : string) (pieces : list string) : string :=
  match pieces with
  | [] => EmptyString
  | piece :: rest => foldl (λ joined next, joined +:+ separator +:+ next) piece rest
  end.

Section Expressions.

(** [replacePropertyNames] rewrites a condition with the metadata of the
    selections; the expressions are modelled for any such rewriting. *)
Variable replacePropertyNames : string -> string.

(** The callback given to [map] in lines 1542-1551 and 1559-1568. *)
Definition renderCondition (index : nat) (condition : ConditionType * string) : string :=
  match condition.1 with
  | And => (if bool_decide (0 < index) then "AND " else EmptyString)
           +:+ replacePropertyNames condition.2
  | Or => (if bool_decide (0 < index) then "OR " else EmptyString)
          +:+ replacePropertyNames condition.2
  | Simple => replacePropertyNames condition.2
  end.

Definition renderConditions (conditions : list (ConditionType * string)) : string :=
  join " " (imap renderCondition conditions).

(** Lines 1540-1555. *)
Definition createHavingExpression (qb : Builder) : string :=
  match havings qb with
  | [] => EmptyString
  | _ =>
      let conditions := renderConditions (havings qb) in
      if bool_decide (conditions = EmptyString) then EmptyString
      else " HAVING " +:+ conditions
  end.

(** Lines 1557-1578. *)
Definition createWhereExpression (qb : Builder) : string :=
  let conditions := renderConditions (wheres qb) in
  if addsDiscriminator qb
  then " WHERE "
       +:+ (if bool_decide (conditions = EmptyString) then EmptyString
            else "(" +:+ conditions +:+ ") AND")
       +:+ " " +:+ discriminatorColumnFullName (mainMetadata qb)
       +:+ "=:discriminatorColumnValue"
  else if bool_decide (conditions = EmptyString) then EmptyString
       else " WHERE " +:+ conditions.

End Expressions.

(** The calls that add a condition or parameters. *)
Inductive Call : Type :=
| CallWhere (condition : string) (given : option (gmap string jsval))
| CallAndWhere (condition : string) (given : option (gmap string jsval))
| CallOrWhere (condition : string) (given : option (gmap string jsval))
| CallHaving (condition : string) (given : option (gmap string jsval))
| CallAndHaving (condition : string) (given : option (gmap string jsval))
| CallOrHaving (condition : string) (given : option (gmap string jsval))
| CallSetParameter (key : string) (value : jsval)
| CallSetParameters (given : gmap string jsval).

Section Calls.
Context `{ObjectHeap}.

Definition call (c : Call) (qb : Builder) : Builder :=
  match c with
  | CallWhere condition given => where_ condition given qb
  | CallAndWhere condition given => andWhere condition given qb
  | CallOrWhere condition given => orWhere condition given qb
  | CallHaving condition given => having condition given qb
  | CallAndHaving condition given => andHaving condition given qb
  | CallOrHaving condition given => orHaving condition given qb
  | CallSetParameter key value => setParameter key value qb
  | CallSetParameters given => setParameters given qb
  end.

Definition calls (l : list Call) (qb : Builder) : Builder := foldl (λ qb c, call c qb) qb l.

End Calls.

(** A heap of object literals. *)
Definition literals : ObjectHeap := {| inheritsProtoAccessor := λ _, true |}.

(** A builder on an entity of a single-table inheritance, and one on a
    plain table. *)
Definition childBuilder : Builder :=
  mkBuilder None (mkMainMetadata true "person.type" (VStr "Student")) [] [] emptyObject.

Definition tableBuilder : Builder :=
  mkBuilder (Some "person") (mkMainMetadata false EmptyString VUndefined) [] []
            emptyObject.

End QueryBuilder.

(** * Properties *)

(** ** Updating or appending a change record *)

Section Upsert.
Context (P : SubjectChangeMap -> Prop) `{!∀ m, Decision (P m)}.
Context (fresh : SubjectChangeMap) (v : jsval).

Lemma set_value_well_tagged m : well_tagged m → well_tagged (set_value v m).
Proof. unfold well_tagged. simpl. tauto. Qed.

(** Overwriting a record by one with the same tag keeps the list of tags. *)
Lemma omap_insert_same {A} (f : SubjectChangeMap -> option A)
    (l : list SubjectChangeMap) i m m' :
  l !! i = Some m → f m' = f m → omap f (<[i := m']> l) = omap f l.
Proof.
  intros Hi Hf.
  rewrite <- (take_drop_middle l i m Hi) at 2.
  rewrite insert_take_drop by (eapply lookup_lt_Some; eauto).
  rewrite !omap_app. simpl. by rewrite Hf.
Qed.

Lemma upsert_well_tagged l :
  well_tagged fresh → Forall well_tagged l → Forall well_tagged (upsert P fresh v l).
Proof.
  intros Hfresh Hl. unfold upsert.
  destruct (list_find P l) as [[i m]|] eqn:Hfind.
  - apply list_find_Some in Hfind as (Hi & _ & _).
    apply Forall_insert; [done|].
    apply set_value_well_tagged. eapply Forall_lookup_1; eauto.
  - apply Forall_app. split; [done|]. by constructor.
Qed.

(** The tags of the records after an upsert: unchanged when a record was
    found, extended by the tag of the new record otherwise. *)
Lemma upsert_tags {A} (f : SubjectChangeMap -> option A) l :
  (∀ m, f (set_value v m) = f m) →
  omap f (upsert P fresh v l)
  = match list_find P l with
    | Some _ => omap f l
    | None => omap f l ++ omap f [fresh]
    end.
Proof.
  intros Hf. unfold upsert.
  destruct (list_find P l) as [[i m]|] eqn:Hfind.
  - apply list_find_Some in Hfind as (Hi & _ & _).
    eapply omap_insert_same; eauto.
  - by rewrite omap_app.
Qed.

(** After an upsert a record satisfying [P] carries the value. *)
Lemma upsert_records l :
  (∀ m, P m → P (set_value v m)) → P fresh → cm_value fresh = v →
  ∃ m, m ∈ upsert P fresh v l ∧ P m ∧ cm_value m = v.
Proof.
  intros Hset Hfresh Hval. unfold upsert.
  destruct (list_find P l) as [[i m]|] eqn:Hfind.
  - apply list_find_Some in Hfind as (Hi & HP & _).
    exists (set_value v m). split_and!; [|by apply Hset|done].
    apply list_elem_of_lookup. exists i.
    apply list_lookup_insert_eq. eapply lookup_lt_Some; eauto.
  - exists fresh. split_and!; [|done|done].
    apply elem_of_app. right. by apply list_elem_of_singleton.
Qed.

End Upsert.

Lemma column_change_not_found column l :
  list_find (is_column_change column) l = None → column ∉ omap cm_column l.
Proof.
  intros Hnone Hin. apply list_find_None in Hnone.
  apply list_elem_of_omap in Hin as (m & Hm & Hc).
  eapply Forall_forall in Hnone; eauto.
Qed.

Lemma relation_change_not_found relation l :
  list_find (is_relation_change relation) l = None → relation ∉ omap cm_relation l.
Proof.
  intros Hnone Hin. apply list_find_None in Hnone.
  apply list_elem_of_omap in Hin as (m & Hm & Hc).
  eapply Forall_forall in Hnone; eauto.
Qed.

Lemma NoDup_snoc {A} (l : list A) (x : A) : NoDup l → x ∉ l → NoDup (l ++ [x]).
Proof.
  intros Hl Hx. apply NoDup_app. split_and!; [done| |apply NoDup_singleton].
  intros y Hy Hy'. apply list_elem_of_singleton in Hy'. by subst.
Qed.

Lemma upsert_column_wf column v l :
  changeMaps_wf l →
  changeMaps_wf (upsert (is_column_change column) (mkChangeMap (Some column) None v) v l).
Proof.
  intros (Htag & Hcol & Hrel). split_and!.
  - apply upsert_well_tagged; [|done]. left. simpl. eauto.
  - rewrite upsert_tags by done.
    destruct (list_find _ l) eqn:Hfind; [done|].
    simpl. apply NoDup_snoc; [done|]. by apply column_change_not_found.
  - rewrite upsert_tags by done.
    destruct (list_find _ l) eqn:Hfind; [done|].
    simpl. by rewrite app_nil_r.
Qed.

Lemma upsert_relation_wf relation v l :
  changeMaps_wf l →
  changeMaps_wf (upsert (is_relation_change relation) (mkChangeMap None (Some relation) v) v l).
Proof.
  intros (Htag & Hcol & Hrel). split_and!.
  - apply upsert_well_tagged; [|done]. right. simpl. eauto.
  - rewrite upsert_tags by done.
    destruct (list_find _ l) eqn:Hfind; [done|].
    simpl. by rewrite app_nil_r.
  - rewrite upsert_tags by done.
    destruct (list_find _ l) eqn:Hfind; [done|].
    simpl. apply NoDup_snoc; [done|]. by apply relation_change_not_found.
Qed.

(** ** Lists of change records that grow without duplicates *)

Lemma appended_without_duplicates_refl l : appended_without_duplicates l l.
Proof.
  split_and!.
  - intros m Hm. right. by exists m.
  - exists []. rewrite app_nil_r. split_and!; [done|constructor|].
    intros c Hc. by apply not_elem_of_nil in Hc.
  - exists []. rewrite app_nil_r. split_and!; [done|constructor|].
    intros c Hc. by apply not_elem_of_nil in Hc.
Qed.

(** Keys appended in two rounds, each round new to what preceded it. *)
Lemma appended_keys_trans {A} (k k' k'' : list A) :
  (∃ a, k' = k ++ a ∧ NoDup a ∧ ∀ x, x ∈ a → x ∉ k) →
  (∃ a, k'' = k' ++ a ∧ NoDup a ∧ ∀ x, x ∈ a → x ∉ k') →
  ∃ a, k'' = k ++ a ∧ NoDup a ∧ ∀ x, x ∈ a → x ∉ k.
Proof.
  intros (a1 & -> & Hnd1 & Hnew1) (a2 & -> & Hnd2 & Hnew2).
  exists (a1 ++ a2). split_and!.
  - by rewrite app_assoc.
  - apply NoDup_app. split_and!; [done| |done].
    intros x Hx1 Hx2. apply (Hnew2 x Hx2). apply elem_of_app. by right.
  - intros x Hx. apply elem_of_app in Hx as [Hx|Hx]; [by apply Hnew1|].
    intros Hk. apply (Hnew2 x Hx). apply elem_of_app. by left.
Qed.

Lemma appended_without_duplicates_trans l l' l'' :
  appended_without_duplicates l l' →
  appended_without_duplicates l' l'' →
  appended_without_duplicates l l''.
Proof.
  intros (Htag1 & Hcol1 & Hrel1) (Htag2 & Hcol2 & Hrel2). split_and!.
  - intros m'' Hm''.
    destruct (Htag2 m'' Hm'') as [Hw|(m' & Hm' & Hc & Hr)]; [by left|].
    destruct (Htag1 m' Hm') as [Hw|(m & Hm & Hc' & Hr')].
    + left. unfold well_tagged in *. by rewrite Hc, Hr.
    + right. exists m. split_and!; congruence.
  - by eapply appended_keys_trans.
  - by eapply appended_keys_trans.
Qed.

Lemma upsert_column_appended column v l :
  appended_without_duplicates l
    (upsert (is_column_change column) (mkChangeMap (Some column) None v) v l).
Proof.
  split_and!.
  - intros m' Hm'. unfold upsert in Hm'.
    destruct (list_find _ l) as [[i m]|] eqn:Hfind.
    + apply list_find_Some in Hfind as (Hi & _ & _).
      apply list_elem_of_lookup in Hm' as [j Hj].
      destruct (decide (i = j)) as [<-|Hne].
      * rewrite list_lookup_insert_eq in Hj by (eapply lookup_lt_Some; eauto).
        injection Hj as <-. right. exists m. split_and!; [|done|done].
        apply list_elem_of_lookup. eauto.
      * rewrite list_lookup_insert_ne in Hj by done.
        right. exists m'. split_and!; [|done|done].
        apply list_elem_of_lookup. eauto.
    + apply elem_of_app in Hm' as [Hm'|Hm'].
      * right. by exists m'.
      * apply list_elem_of_singleton in Hm' as ->. left. left. simpl. eauto.
  - rewrite upsert_tags by done.
    destruct (list_find _ l) eqn:Hfind.
    + exists []. rewrite app_nil_r. split_and!; [done|constructor|].
      intros c Hc. by apply not_elem_of_nil in Hc.
    + exists [column]. split_and!; [done|apply NoDup_singleton|].
      intros c Hc. apply list_elem_of_singleton in Hc as ->.
      by apply column_change_not_found.
  - rewrite upsert_tags by done.
    exists []. split_and!; [|constructor|].
    + destruct (list_find _ l); simpl; by rewrite ?app_nil_r.
    + intros c Hc. by apply not_elem_of_nil in Hc.
Qed.

Lemma upsert_relation_appended relation v l :
  appended_without_duplicates l
    (upsert (is_relation_change relation) (mkChangeMap None (Some relation) v) v l).
Proof.
  split_and!.
  - intros m' Hm'. unfold upsert in Hm'.
    destruct (list_find _ l) as [[i m]|] eqn:Hfind.
    + apply list_find_Some in Hfind as (Hi & _ & _).
      apply list_elem_of_lookup in Hm' as [j Hj].
      destruct (decide (i = j)) as [<-|Hne].
      * rewrite list_lookup_insert_eq in Hj by (eapply lookup_lt_Some; eauto).
        injection Hj as <-. right. exists m. split_and!; [|done|done].
        apply list_elem_of_lookup. eauto.
      * rewrite list_lookup_insert_ne in Hj by done.
        right. exists m'. split_and!; [|done|done].
        apply list_elem_of_lookup. eauto.
    + apply elem_of_app in Hm' as [Hm'|Hm'].
      * right. by exists m'.
      * apply list_elem_of_singleton in Hm' as ->. left. right. simpl. eauto.
  - rewrite upsert_tags by done.
    exists []. split_and!; [|constructor|].
    + destruct (list_find _ l); simpl; by rewrite ?app_nil_r.
    + intros c Hc. by apply not_elem_of_nil in Hc.
  - rewrite upsert_tags by done.
    destruct (list_find _ l) eqn:Hfind.
    + exists []. rewrite app_nil_r. split_and!; [done|constructor|].
      intros c Hc. by apply not_elem_of_nil in Hc.
    + exists [relation]. split_and!; [done|apply NoDup_singleton|].
      intros c Hc. apply list_elem_of_singleton in Hc as ->.
      by apply relation_change_not_found.
Qed.

(** ** The column pass *)

Section ColumnPass.
Context `{Collaborators}.

Lemma recordColumnChange_diffColumns subject column v :
  diffColumns (recordColumnChange subject column v) = diffColumns subject ++ [column].
Proof. reflexivity. Qed.

Lemma recordColumnChange_changeMaps subject column v :
  changeMaps (recordColumnChange subject column v)
  = upsert (is_column_change column) (mkChangeMap (Some column) None v) v
           (changeMaps subject).
Proof. reflexivity. Qed.

(** A step of the pass returns early or records the entity-side value. *)
Lemma diffColumn_cases e subject column :
  diffColumn e subject column = subject
  ∨ diffColumn e subject column
    = recordColumnChange subject column (column_getEntityValue column e).
Proof.
  unfold diffColumn.
  destruct (isSpecialColumn column); [by left|].
  destruct (is_undefined _); [by left|].
  destruct (columnUnchanged _ _ _ _); [by left|by right].
Qed.

(** The pass touches the diff list and the change records only. *)
Lemma diffColumn_frame e subject column :
  metadata (diffColumn e subject column) = metadata subject
  ∧ entity (diffColumn e subject column) = entity subject
  ∧ databaseEntity (diffColumn e subject column) = databaseEntity subject
  ∧ mustBeInserted (diffColumn e subject column) = mustBeInserted subject
  ∧ diffRelations (diffColumn e subject column) = diffRelations subject.
Proof. destruct (diffColumn_cases e subject column) as [-> | ->]; done. Qed.

Lemma foldl_diffColumn_frame e l subject :
  metadata (foldl (diffColumn e) subject l) = metadata subject
  ∧ entity (foldl (diffColumn e) subject l) = entity subject
  ∧ databaseEntity (foldl (diffColumn e) subject l) = databaseEntity subject
  ∧ mustBeInserted (foldl (diffColumn e) subject l) = mustBeInserted subject
  ∧ diffRelations (foldl (diffColumn e) subject l) = diffRelations subject.
Proof.
  revert subject. induction l as [|c l IH]; intros subject; simpl; [done|].
  destruct (IH (diffColumn e subject c)) as (-> & -> & -> & -> & ->).
  apply diffColumn_frame.
Qed.

Lemma computeDiffColumns_frame subject :
  metadata (computeDiffColumns subject) = metadata subject
  ∧ entity (computeDiffColumns subject) = entity subject
  ∧ databaseEntity (computeDiffColumns subject) = databaseEntity subject
  ∧ mustBeInserted (computeDiffColumns subject) = mustBeInserted subject
  ∧ diffRelations (computeDiffColumns subject) = diffRelations subject.
Proof.
  unfold computeDiffColumns. destruct (entity subject) eqn:He; [|done].
  rewrite <- He. apply foldl_diffColumn_frame.
Qed.

Lemma diffColumn_wf e subject column :
  changeMaps_wf (changeMaps subject) →
  changeMaps_wf (changeMaps (diffColumn e subject column)).
Proof.
  intros Hwf. destruct (diffColumn_cases e subject column) as [-> | ->]; [done|].
  rewrite recordColumnChange_changeMaps. by apply upsert_column_wf.
Qed.

Lemma computeDiffColumns_wf subject :
  changeMaps_wf (changeMaps subject) →
  changeMaps_wf (changeMaps (computeDiffColumns subject)).
Proof.
  unfold computeDiffColumns. destruct (entity subject) as [e|]; [|done].
  generalize (columns (metadata subject)). intros l. revert subject.
  induction l as [|c l IH]; intros subject Hwf; simpl; [done|].
  apply IH. by apply diffColumn_wf.
Qed.

Lemma diffColumn_appended e subject column :
  appended_without_duplicates (changeMaps subject)
                              (changeMaps (diffColumn e subject column)).
Proof.
  destruct (diffColumn_cases e subject column) as [-> | ->].
  - apply appended_without_duplicates_refl.
  - rewrite recordColumnChange_changeMaps. apply upsert_column_appended.
Qed.

Lemma computeDiffColumns_appended subject :
  appended_without_duplicates (changeMaps subject)
                              (changeMaps (computeDiffColumns subject)).
Proof.
  unfold computeDiffColumns.
  destruct (entity subject) as [e|]; [|apply appended_without_duplicates_refl].
  generalize (columns (metadata subject)). intros l. revert subject.
  induction l as [|c l IH]; intros subject; simpl.
  - apply appended_without_duplicates_refl.
  - eapply appended_without_duplicates_trans; [apply diffColumn_appended|apply IH].
Qed.

(** A special column is skipped whatever the entity holds. *)
Lemma diffColumn_special e subject column :
  isSpecialColumn column = true → diffColumn e subject column = subject.
Proof. unfold diffColumn. by intros ->. Qed.

(** A column whose comparison finds no change is skipped. *)
Lemma diffColumn_unchanged e subject column :
  columnUnchanged e subject column (column_getEntityValue column e) = true →
  diffColumn e subject column = subject.
Proof.
  unfold diffColumn. intros ->.
  destruct (isSpecialColumn column); [done|].
  by destruct (is_undefined (column_getEntityValue column e)).
Qed.

(** The code's normalization and the specification's differ on the name of
    the delimited-array column type only. *)
Lemma normalizeForComparison_spec column entityValue databaseValue :
  type column ≠ TypeName "simple-array" →
  type column ≠ TypeName "sample-array" →
  normalizeForComparison column entityValue databaseValue
  = spec_normalize column entityValue databaseValue.
Proof.
  intros Hsimple Hsample.
  unfold normalizeForComparison, spec_normalize, type_is.
  rewrite (bool_decide_eq_false_2 _ Hsimple), (bool_decide_eq_false_2 _ Hsample).
  done.
Qed.

(** With a snapshot, a column of any other type whose two sides are equal
    after normalization is left alone. *)
Lemma equal_after_normalization_skipped e db subject column :
  databaseEntity subject = Some db →
  type column ≠ TypeName "simple-array" →
  type column ≠ TypeName "sample-array" →
  spec_equal_after_normalization column (column_getEntityValue column e)
                                 (column_getEntityValue column db) = true →
  diffColumn e subject column = subject.
Proof.
  intros Hdb Hsimple Hsample Heq. apply diffColumn_unchanged.
  unfold columnUnchanged. rewrite Hdb.
  destruct (relationSuppliesValue e column); [done|].
  rewrite normalizeForComparison_spec by done.
  exact Heq.
Qed.

(** The pass over a list of columns is the pass over its ordinary columns. *)
Lemma foldl_diffColumn_ordinary e l subject :
  foldl (diffColumn e) subject l
  = foldl (diffColumn e) subject (filter (λ c, isSpecialColumn c = false) l).
Proof.
  revert subject. induction l as [|c l IH]; intros subject; [done|].
  simpl. rewrite filter_cons.
  destruct (decide (isSpecialColumn c = false)) as [Hc|Hc].
  - simpl. apply IH.
  - apply not_false_is_true in Hc. rewrite (diffColumn_special _ _ _ Hc). apply IH.
Qed.

End ColumnPass.

Lemma filter_insert_irrelevant {A} (P : A → Prop) `{!∀ x, Decision (P x)}
    (l : list A) i x y :
  l !! i = Some x → ¬ P x → ¬ P y → filter P (<[i := y]> l) = filter P l.
Proof.
  intros Hi Hx Hy. rewrite <- (take_drop_middle l i x Hi) at 2.
  rewrite insert_take_drop by (eapply lookup_lt_Some; eauto).
  rewrite !filter_app. f_equal.
  by rewrite !filter_cons_False.
Qed.

Section ColumnClaims.
Context `{Collaborators}.

(** Recording a change of another column leaves the entries of [column]. *)
Lemma recordColumnChange_other subject column other v :
  other ≠ column →
  filter (eq column) (diffColumns (recordColumnChange subject other v))
  = filter (eq column) (diffColumns subject)
  ∧ filter (is_column_change column) (changeMaps (recordColumnChange subject other v))
    = filter (is_column_change column) (changeMaps subject).
Proof.
  intros Hne. split.
  - rewrite recordColumnChange_diffColumns, filter_app, filter_cons_False by congruence.
    by rewrite filter_nil, app_nil_r.
  - rewrite recordColumnChange_changeMaps. unfold upsert.
    destruct (list_find _ _) as [[i m]|] eqn:Hfind.
    + apply list_find_Some in Hfind as (Hi & Hm & _).
      unfold is_column_change in *.
      eapply filter_insert_irrelevant; eauto; simpl; congruence.
    + rewrite filter_app, filter_cons_False.
      * by rewrite filter_nil, app_nil_r.
      * unfold is_column_change. simpl. congruence.
Qed.

(** C3 (as amended): the column pass considers every column of the
    Subject's metadata except exactly the virtual, discriminator,
    update-date, version and create-date columns: the pass equals the pass
    over the columns outside that list, a column in the list is skipped
    whatever the entity holds, and a column outside it whose entity value is
    not undefined reaches the comparison and is recorded unless the
    comparison finds it unchanged. *)
Theorem ordinary_columns_are_diffed (subject : Subject) :
  (∀ column, isSpecialColumn column = spec_excluded column || isUpdateDate column)
  ∧ computeDiffColumns subject
    = match entity subject with
      | None => subject
      | Some e =>
          foldl (diffColumn e) subject
                (filter (λ c, isSpecialColumn c = false) (columns (metadata subject)))
      end
  ∧ (∀ e column, isSpecialColumn column = true → diffColumn e subject column = subject)
  ∧ (∀ e column,
       isSpecialColumn column = false →
       column_getEntityValue column e ≠ VUndefined →
       diffColumn e subject column
       = if columnUnchanged e subject column (column_getEntityValue column e)
         then subject
         else recordColumnChange subject column (column_getEntityValue column e)).
Proof.
  split_and!.
  - intros column. unfold isSpecialColumn, spec_excluded.
    by destruct (isVirtual column), (isDiscriminator column), (isUpdateDate column),
                (isVersion column), (isCreateDate column).
  - unfold computeDiffColumns. destruct (entity subject); [|done].
    apply foldl_diffColumn_ordinary.
  - intros e column. apply diffColumn_special.
  - intros e column Hord Hval. unfold diffColumn. rewrite Hord.
    by destruct (column_getEntityValue column e).
Qed.

(** C5: with a stored snapshot, a column backed by an owning relation whose
    entity-side value is neither null nor undefined is skipped by the plain
    comparison: its step leaves the Subject as it is, and the whole column
    pass adds no diffColumns entry and no change record for that column. *)
Theorem relation_backed_column_skipped (e db : ref) (subject : Subject)
    (column : ColumnMetadata) (relation : RelationMetadata) :
  entity subject = Some e →
  databaseEntity subject = Some db →
  relationMetadata column = Some relation →
  relation_getEntityValue relation e ≠ VNull →
  relation_getEntityValue relation e ≠ VUndefined →
  diffColumn e subject column = subject
  ∧ filter (eq column) (diffColumns (computeDiffColumns subject))
    = filter (eq column) (diffColumns subject)
  ∧ filter (is_column_change column) (changeMaps (computeDiffColumns subject))
    = filter (is_column_change column) (changeMaps subject).
Proof.
  intros He Hdb Hrel Hnull Hundef.
  assert (Hstep : ∀ s, databaseEntity s = Some db → diffColumn e s column = s).
  { intros s Hs. unfold diffColumn, columnUnchanged, relationSuppliesValue.
    rewrite Hs, Hrel.
    destruct (isSpecialColumn column); [done|].
    destruct (is_undefined (column_getEntityValue column e)); [done|].
    by destruct (relation_getEntityValue relation e). }
  split; [by apply Hstep|].
  unfold computeDiffColumns. rewrite He.
  generalize (columns (metadata subject)). intros l.
  revert subject He Hdb. induction l as [|c l IH]; intros subject He Hdb; [done|].
  simpl.
  destruct (diffColumn_frame e subject c) as (_ & He' & Hdb' & _).
  destruct (IH (diffColumn e subject c)) as [-> ->]; [congruence..|].
  destruct (decide (c = column)) as [->|Hne].
  - by rewrite Hstep.
  - destruct (diffColumn_cases e subject c) as [-> | ->]; [done|].
    by apply recordColumnChange_other.
Qed.

End ColumnClaims.

(** ** The relation pass *)

Section RelationPass.
Context `{Collaborators}.

Lemma recordRelationChange_lookup allSubjects h store subject relation relatedEntity :
  recordRelationChange allSubjects h store subject relation relatedEntity !! h
  = Some (with_changeMaps
            (let recorded :=
               recordedValue (<[h := subject]> store) allSubjects relatedEntity in
             upsert (is_relation_change relation)
                    (mkChangeMap None (Some relation) recorded) recorded
                    (changeMaps subject))
            subject).
Proof. unfold recordRelationChange. by rewrite lookup_insert_eq. Qed.

Lemma recordRelationChange_other allSubjects h h' store subject relation relatedEntity :
  h' ≠ h →
  recordRelationChange allSubjects h store subject relation relatedEntity !! h'
  = store !! h'.
Proof. intros Hne. unfold recordRelationChange. by rewrite !lookup_insert_ne. Qed.

(** Looking for the inserted Subject of an entity reads [mustBeInserted] and
    [entity] only, which no pass writes. *)
Lemma isInsertedSubjectOf_insert store h s s' relatedEntity h2 :
  store !! h = Some s →
  mustBeInserted s' = mustBeInserted s →
  entity s' = entity s →
  isInsertedSubjectOf (<[h := s']> store) relatedEntity h2
  = isInsertedSubjectOf store relatedEntity h2.
Proof.
  intros Hs Hm He. unfold isInsertedSubjectOf, entity_value.
  destruct (decide (h2 = h)) as [->|Hne].
  - by rewrite lookup_insert_eq, Hs, Hm, He.
  - by rewrite lookup_insert_ne.
Qed.

Lemma findValueSubject_insert store h s s' allSubjects relatedEntity :
  store !! h = Some s →
  mustBeInserted s' = mustBeInserted s →
  entity s' = entity s →
  findValueSubject (<[h := s']> store) allSubjects relatedEntity
  = findValueSubject store allSubjects relatedEntity.
Proof.
  intros Hs Hm He. unfold findValueSubject.
  induction allSubjects as [|h2 l IH]; [done|]. simpl.
  by rewrite (isInsertedSubjectOf_insert _ _ _ _ _ _ Hs Hm He), IH.
Qed.

(** A step on the Subject at [h] leaves the other Subjects alone. *)
Lemma diffRelation_other allSubjects h h' e store relation :
  h' ≠ h → diffRelation allSubjects h e store relation !! h' = store !! h'.
Proof.
  intros Hne. unfold diffRelation.
  destruct (store !! h) as [subject|]; [|done].
  destruct (is_undefined _); [done|].
  destruct (databaseEntity subject).
  - destruct (areRelatedIdsEqual _ _ _); [done|].
    by apply recordRelationChange_other.
  - by apply recordRelationChange_other.
Qed.

(** What a step does to the Subject it runs on. *)
Lemma diffRelation_cases allSubjects h e store subject relation :
  store !! h = Some subject →
  diffRelation allSubjects h e store relation = store
  ∨ ∃ base,
      (base = subject ∨ base = push_diffRelation relation subject)
      ∧ diffRelation allSubjects h e store relation
        = recordRelationChange allSubjects h store base relation
                               (relation_getEntityValue relation e).
Proof.
  intros Hs. unfold diffRelation. rewrite Hs.
  destruct (is_undefined _); [by left|].
  destruct (databaseEntity subject).
  - destruct (areRelatedIdsEqual _ _ _); [by left|]. right. eauto.
  - right. eauto.
Qed.

Lemma diffRelation_absent allSubjects h e store relation :
  store !! h = None → diffRelation allSubjects h e store relation = store.
Proof. unfold diffRelation. by intros ->. Qed.

(** A step keeps the fields of the Subject that identify it. *)
Lemma diffRelation_frame allSubjects h e store subject relation :
  store !! h = Some subject →
  ∃ subject',
    diffRelation allSubjects h e store relation !! h = Some subject'
    ∧ metadata subject' = metadata subject
    ∧ entity subject' = entity subject
    ∧ databaseEntity subject' = databaseEntity subject
    ∧ mustBeInserted subject' = mustBeInserted subject
    ∧ diffColumns subject' = diffColumns subject.
Proof.
  intros Hs.
  destruct (diffRelation_cases allSubjects h e store subject relation Hs)
    as [-> | (base & Hbase & ->)]; [by eauto 10|].
  rewrite recordRelationChange_lookup. eexists. split; [done|].
  by destruct Hbase as [-> | ->].
Qed.

Lemma diffRelation_wf allSubjects h e store relation :
  map_Forall (λ _ s, changeMaps_wf (changeMaps s)) store →
  map_Forall (λ _ s, changeMaps_wf (changeMaps s))
             (diffRelation allSubjects h e store relation).
Proof.
  intros Hwf. destruct (store !! h) as [subject|] eqn:Hs.
  - destruct (diffRelation_cases allSubjects h e store subject relation Hs)
      as [-> | (base & Hbase & ->)]; [done|].
    assert (changeMaps_wf (changeMaps base)) as Hb.
    { destruct Hbase as [-> | ->]; apply (Hwf _ _ Hs). }
    unfold recordRelationChange.
    apply map_Forall_insert_2; [|by apply map_Forall_insert_2].
    simpl. by apply upsert_relation_wf.
  - by rewrite diffRelation_absent.
Qed.

Lemma computeDiffRelationalColumns_wf allSubjects h store :
  map_Forall (λ _ s, changeMaps_wf (changeMaps s)) store →
  map_Forall (λ _ s, changeMaps_wf (changeMaps s))
             (computeDiffRelationalColumns allSubjects h store).
Proof.
  unfold computeDiffRelationalColumns.
  destruct (store !! h) as [subject|]; [|done].
  destruct (entity subject) as [e|]; [|done].
  generalize (relationsWithJoinColumns (metadata subject)). intros l.
  revert store. induction l as [|r l IH]; intros store Hwf; [done|].
  simpl. apply IH. by apply diffRelation_wf.
Qed.

Lemma computeDiffRelationalColumns_other allSubjects h h' store :
  h' ≠ h → computeDiffRelationalColumns allSubjects h store !! h' = store !! h'.
Proof.
  intros Hne. unfold computeDiffRelationalColumns.
  destruct (store !! h) as [subject|]; [|done].
  destruct (entity subject) as [e|]; [|done].
  generalize (relationsWithJoinColumns (metadata subject)). intros l.
  revert store. induction l as [|r l IH]; intros store; [done|].
  simpl. rewrite IH. by apply diffRelation_other.
Qed.

Lemma computeSubject_wf subjects store h :
  map_Forall (λ _ s, changeMaps_wf (changeMaps s)) store →
  map_Forall (λ _ s, changeMaps_wf (changeMaps s)) (computeSubject subjects store h).
Proof.
  intros Hwf. unfold computeSubject. apply computeDiffRelationalColumns_wf.
  intros h' s'. rewrite lookup_alter. case_decide as Hh; [subst h'|by apply Hwf].
  destruct (store !! h) as [s|] eqn:Hs; simpl; [|done].
  intros [= <-]. apply computeDiffColumns_wf. by apply (Hwf _ _ Hs).
Qed.

Lemma store_appended_refl store : store_appended store store.
Proof. intros h s Hs. exists s. split; [done|apply appended_without_duplicates_refl]. Qed.

Lemma store_appended_trans store store' store'' :
  store_appended store store' → store_appended store' store'' →
  store_appended store store''.
Proof.
  intros H1 H2 h s Hs.
  destruct (H1 h s Hs) as (s' & Hs' & Ha).
  destruct (H2 h s' Hs') as (s'' & Hs'' & Ha').
  exists s''. split; [done|]. by eapply appended_without_duplicates_trans.
Qed.

Lemma diffRelation_appended allSubjects h e store relation :
  store_appended store (diffRelation allSubjects h e store relation).
Proof.
  intros h' s' Hs'.
  destruct (decide (h' = h)) as [->|Hne].
  - destruct (diffRelation_cases allSubjects h e store s' relation Hs')
      as [-> | (base & Hbase & ->)].
    + exists s'. split; [done|apply appended_without_duplicates_refl].
    + rewrite recordRelationChange_lookup. eexists. split; [done|].
      simpl. replace (changeMaps s') with (changeMaps base)
        by (by destruct Hbase as [-> | ->]).
      apply upsert_relation_appended.
  - rewrite diffRelation_other by done.
    exists s'. split; [done|apply appended_without_duplicates_refl].
Qed.

Lemma computeDiffRelationalColumns_appended allSubjects h store :
  store_appended store (computeDiffRelationalColumns allSubjects h store).
Proof.
  unfold computeDiffRelationalColumns.
  destruct (store !! h) as [subject|]; [|apply store_appended_refl].
  destruct (entity subject) as [e|]; [|apply store_appended_refl].
  generalize (relationsWithJoinColumns (metadata subject)). intros l.
  revert store. induction l as [|r l IH]; intros store; simpl.
  - apply store_appended_refl.
  - eapply store_appended_trans; [apply diffRelation_appended|apply IH].
Qed.

Lemma computeSubject_appended subjects store h :
  store_appended store (computeSubject subjects store h).
Proof.
  unfold computeSubject.
  eapply store_appended_trans; [|apply computeDiffRelationalColumns_appended].
  intros h' s Hs. rewrite lookup_alter. case_decide as Hh.
  - subst h'. rewrite Hs. simpl. eexists. split; [done|].
    apply computeDiffColumns_appended.
  - exists s. split; [done|apply appended_without_duplicates_refl].
Qed.

Lemma compute_appended subjects store :
  store_appended store (compute subjects store).
Proof.
  unfold compute. generalize subjects at 2. intros l. revert store.
  induction l as [|h l IH]; intros store; simpl.
  - apply store_appended_refl.
  - eapply store_appended_trans; [apply computeSubject_appended|apply IH].
Qed.

(** A Subject without an entity is not touched by its own turn, and no
    Subject is touched by the turn of another. *)
Lemma computeSubject_absent_entity subjects store h h' s :
  store !! h = Some s → entity s = None →
  computeSubject subjects store h' !! h = Some s.
Proof.
  intros Hs He. unfold computeSubject.
  destruct (decide (h = h')) as [<-|Hne].
  - assert (alter computeDiffColumns h store !! h = Some s) as Hs'.
    { rewrite lookup_alter, decide_True by done. rewrite Hs. simpl.
      unfold computeDiffColumns. by rewrite He. }
    unfold computeDiffRelationalColumns. by rewrite Hs', He.
  - rewrite computeDiffRelationalColumns_other by done.
    by rewrite lookup_alter_ne.
Qed.

End RelationPass.

Section RelationClaims.
Context `{Collaborators}.

(** The Subject after a step that records a change of [relation]. *)
Lemma diffRelation_records allSubjects h e store subject relation :
  store !! h = Some subject →
  relation_getEntityValue relation e ≠ VUndefined →
  (∀ db, databaseEntity subject = Some db →
         areRelatedIdsEqual relation (relation_getEntityValue relation e) db = false) →
  diffRelation allSubjects h e store relation !! h
  = Some (with_changeMaps
            (upsert (is_relation_change relation)
               (mkChangeMap None (Some relation)
                  (recordedValue store allSubjects (relation_getEntityValue relation e)))
               (recordedValue store allSubjects (relation_getEntityValue relation e))
               (changeMaps subject))
            (match databaseEntity subject with
             | Some _ => push_diffRelation relation subject
             | None => subject
             end)).
Proof.
  intros Hs Hval Hchanged. unfold diffRelation. rewrite Hs.
  destruct (relation_getEntityValue relation e) eqn:Hv; try done;
    simpl; (destruct (databaseEntity subject) as [db|] eqn:Hdb;
            [rewrite (Hchanged db eq_refl)|]);
    rewrite recordRelationChange_lookup; simpl; unfold recordedValue;
    by rewrite (findValueSubject_insert _ _ _ _ _ _ Hs).
Qed.

(** C8: after compute has run on any list of Subjects, the change records
    of every Subject are those it held before, in place and with their tags,
    followed by new records that are tagged with exactly one of a column or a
    relation, and no record is appended for a column or a relation that has
    one already; hence, when the records held before are tagged with exactly
    one of a column or a relation and hold at most one record per column and
    per relation (as an empty list does), so are the records after
    compute. *)
Theorem change_records_stay_well_formed (subjects : list handle)
    (store : gmap handle Subject) :
  (∀ h s, store !! h = Some s →
     ∃ s', compute subjects store !! h = Some s'
           ∧ appended_without_duplicates (changeMaps s) (changeMaps s'))
  ∧ ((∀ h s, store !! h = Some s → changeMaps_wf (changeMaps s)) →
     ∀ h s', compute subjects store !! h = Some s' →
       Forall well_tagged (changeMaps s')
       ∧ NoDup (omap cm_column (changeMaps s'))
       ∧ NoDup (omap cm_relation (changeMaps s'))).
Proof.
  split; [apply compute_appended|].
  intros Hwf. unfold compute.
  assert (∀ l st, map_Forall (λ _ s, changeMaps_wf (changeMaps s)) st →
                  map_Forall (λ _ s, changeMaps_wf (changeMaps s))
                             (foldl (computeSubject subjects) st l)) as Hfold.
  { induction l as [|x l IH]; intros st Hst; [done|].
    simpl. apply IH. by apply computeSubject_wf. }
  intros h s' Hs'. by apply (Hfold subjects store Hwf h s' Hs').
Qed.

(** C10: compute does nothing to a Subject whose entity is absent: the
    column pass returns the Subject as it is, the relation pass returns the
    store as it is, and after compute has run on the whole batch the Subject
    is the one it was, with its diffColumns, diffRelations, changeMaps and
    every other field. *)
Theorem absent_entity_untouched (subjects : list handle)
    (store : gmap handle Subject) (h : handle) (s : Subject) :
  store !! h = Some s →
  entity s = None →
  computeDiffColumns s = s
  ∧ (∀ allSubjects, computeDiffRelationalColumns allSubjects h store = store)
  ∧ compute subjects store !! h = Some s.
Proof.
  intros Hs He. split_and!.
  - unfold computeDiffColumns. by rewrite He.
  - intros allSubjects. unfold computeDiffRelationalColumns. by rewrite Hs, He.
  - unfold compute. generalize subjects at 2. intros l. revert store Hs.
    induction l as [|x l IH]; intros store Hs; [done|].
    simpl. apply IH. by apply computeSubject_absent_entity.
Qed.

End RelationClaims.

(** ** The comparison of a relation's value with the snapshot *)

Section RelatedIds.
Context `{Collaborators}.

(** A related value that is not an object is handed to [compareIds] as it
    is; no id map is made from it. *)
Lemma areRelatedIdsEqual_scalar relation relatedEntity db :
  is_object relatedEntity = false →
  areRelatedIdsEqual relation relatedEntity db
  = compareIds (OfValue relatedEntity) (relation_getEntityValue relation db).
Proof. unfold areRelatedIdsEqual. by intros ->. Qed.

(** A related object is reduced to its id map first. *)
Lemma areRelatedIdsEqual_object relation relatedEntity db :
  is_object relatedEntity = true →
  areRelatedIdsEqual relation relatedEntity db
  = compareIds (id_operand_of (getRelationIdMap relation relatedEntity))
               (relation_getEntityValue relation db).
Proof. unfold areRelatedIdsEqual. by intros ->. Qed.

End RelatedIds.

Lemma empty_changeMaps_wf : changeMaps_wf [].
Proof. split_and!; constructor. Qed.

(** ** The computer on the example heap *)

Section Examples.
Import Fixture.
#[local] Existing Instance world.

(** C1 (the code at the failing input): the [labels] column of the loaded
    post has the delimited-array type, and the entity-side array and the
    stored array are equal after the canonical join, yet the column step
    records the column as changed, since the code normalizes columns of a
    type named "sample-array" only and compares the two arrays by
    identity. *)
Theorem simple_array_recorded_as_changed :
  type labelsColumn = TypeName "simple-array"
  ∧ isSpecialColumn labelsColumn = false
  ∧ column_getEntityValue labelsColumn 1 = VObj 6
  ∧ column_getEntityValue labelsColumn 4 = VObj 7
  ∧ simpleArrayToString (VObj 6) = VStr "a,b"
  ∧ simpleArrayToString (VObj 7) = VStr "a,b"
  ∧ spec_equal_after_normalization labelsColumn (VObj 6) (VObj 7) = true
  ∧ normalizeForComparison labelsColumn (VObj 6) (VObj 7) = (VObj 6, VObj 7)
  ∧ diffColumns (diffColumn 1 loadedPost labelsColumn) = [labelsColumn]
  ∧ changeMaps (diffColumn 1 loadedPost labelsColumn)
    = [mkChangeMap (Some labelsColumn) None (VObj 6)]
  ∧ computeDiffColumns loadedPost
    = mkSubject postMetadata (Some 1) (Some 4) false [labelsColumn] []
                [mkChangeMap (Some labelsColumn) None (VObj 6)].
Proof. split_and!; by vm_compute. Qed.

(** C2 (the code at the failing input): the stored snapshot holds the
    id-only related value {id: 1}.  The post whose [tag] is the bare key 1 is
    compared as the scalar 1, which has no field to compare, and a change of
    the relation is recorded with the value 1; the post whose [tag] is the
    entity {id: 1} is reduced to the id map {id: 1}, found equal, and nothing
    is recorded. *)
Theorem bare_key_not_reduced_to_id_map :
  relation_getEntityValue tagRelation 11 = VNum 1
  ∧ relation_getEntityValue tagRelation 2 = VObj 3
  ∧ getRelationIdMap tagRelation (VObj 3) = Some [("id", VNum 1)]
  ∧ relation_getEntityValue tagRelation 4 = VObj 5
  ∧ Fixture.fields_of memory (VObj 5) = Some [("id", VNum 1)]
  ∧ areRelatedIdsEqual tagRelation (VNum 1) 4 = compareIds (OfValue (VNum 1)) (VObj 5)
  ∧ areRelatedIdsEqual tagRelation (VNum 1) 4 = false
  ∧ areRelatedIdsEqual tagRelation (VObj 3) 4 = true
  ∧ compute [0] {[0 := loadedPostWithKey]} !! 0
    = Some (mkSubject postMetadata (Some 11) (Some 4) false [] [tagRelation]
                      [mkChangeMap None (Some tagRelation) (VNum 1)])
  ∧ compute [0] {[0 := loadedPostWithTag]} !! 0 = Some loadedPostWithTag.
Proof. split_and!; by vm_compute. Qed.

(** C3 (as it is worded, refuted): a column outside the list "virtual,
    discriminator, version, create-date" with a provided value is not always
    diffed: the update-date column of the post about to be inserted holds a
    date, and its step leaves the Subject as it is. *)
Lemma update_date_column_not_diffed :
  ¬ (∀ e subject column,
       spec_excluded column = false →
       column_getEntityValue column e ≠ VUndefined →
       diffColumn e subject column
       = if columnUnchanged e subject column (column_getEntityValue column e)
         then subject
         else recordColumnChange subject column (column_getEntityValue column e)).
Proof.
  intros Hclaim.
  specialize (Hclaim 1 freshPost updatedAtColumn).
  vm_compute in Hclaim. by specialize (Hclaim eq_refl ltac:(discriminate)).
Qed.

Lemma ordinary_columns_are_diffed_witness :
  isSpecialColumn updatedAtColumn = true
  ∧ diffColumn 1 freshPost updatedAtColumn = freshPost
  ∧ isSpecialColumn titleColumn = false
  ∧ diffColumn 1 freshPost titleColumn
    = recordColumnChange freshPost titleColumn (VStr "hello").
Proof.
  destruct (ordinary_columns_are_diffed freshPost) as (_ & _ & Hskip & Hdiff).
  split_and!.
  - reflexivity.
  - apply Hskip. reflexivity.
  - reflexivity.
  - apply (Hdiff 1 titleColumn); [reflexivity|]. vm_compute. discriminate.
Defined.

Lemma relation_backed_column_skipped_witness :
  column_getEntityValue tagIdColumn 12 = VNum 2
  ∧ column_getEntityValue tagIdColumn 4 = VNum 1
  ∧ relation_getEntityValue tagRelation 12 = VObj 3
  ∧ diffColumn 12 loadedPostWithTagId tagIdColumn = loadedPostWithTagId
  ∧ filter (eq tagIdColumn) (diffColumns (computeDiffColumns loadedPostWithTagId)) = []
  ∧ filter (is_column_change tagIdColumn)
           (changeMaps (computeDiffColumns loadedPostWithTagId)) = [].
Proof.
  split; [reflexivity|]. split; [reflexivity|]. split; [reflexivity|].
  apply (relation_backed_column_skipped 12 4 loadedPostWithTagId tagIdColumn tagRelation);
    try reflexivity; vm_compute; discriminate.
Defined.

Lemma change_records_stay_well_formed_witness :
  ∃ s',
    compute [0; 1] (<[1 := freshTag]> {[0 := preparedPost]}) !! 0 = Some s'
    ∧ changeMaps s'
      = [mkChangeMap (Some titleColumn) None (VStr "hello");
         mkChangeMap (Some idColumn) None (VNum 10);
         mkChangeMap (Some labelsColumn) None (VObj 6);
         mkChangeMap None (Some tagRelation) (VNum 1)]
    ∧ Forall well_tagged (changeMaps s')
    ∧ NoDup (omap cm_column (changeMaps s'))
    ∧ NoDup (omap cm_relation (changeMaps s')).
Proof.
  eexists. split; [vm_compute; reflexivity|]. split; [reflexivity|].
  destruct (change_records_stay_well_formed [0; 1]
              (<[1 := freshTag]> {[0 := preparedPost]})) as [_ Hpreserved].
  apply Hpreserved with (h := 0).
  - intros h s Hs.
    apply lookup_insert_Some in Hs as [[_ <-]|[_ Hs]]; [apply empty_changeMaps_wf|].
    apply lookup_singleton_Some in Hs as [_ <-].
    split_and!; simpl.
    + constructor; [|constructor]. left. split; [by eexists|reflexivity].
    + apply NoDup_singleton.
    + constructor.
  - vm_compute. reflexivity.
Defined.

Lemma absent_entity_untouched_witness :
  computeDiffColumns emptySubject = emptySubject
  ∧ (∀ allSubjects,
       computeDiffRelationalColumns allSubjects 0 (<[1 := freshPost]> {[0 := emptySubject]})
       = <[1 := freshPost]> {[0 := emptySubject]})
  ∧ compute [0; 1] (<[1 := freshPost]> {[0 := emptySubject]}) !! 0 = Some emptySubject.
Proof.
  apply (absent_entity_untouched [0; 1] (<[1 := freshPost]> {[0 := emptySubject]})
           0 emptySubject); reflexivity.
Defined.

End Examples.

(** ** The transaction of [DeleteQueryBuilder.execute] *)

Section DeleteExecution.
Import DeleteQueryBuilder.

(** Case analysis on the answers of the query runner a run depends on. *)
Ltac case_answers ans :=
  repeat match goal with
         | |- context [ans ?c] =>
             let E := fresh "E" in destruct (ans c) as [|?|] eqn:E
         end.

Ltac run_cases expressionMap env :=
  let ans := fresh "ans" in
  let rawv := fresh "rawv" in
  destruct expressionMap as [[] [] []], env as [ans rawv];
  vm_compute; case_answers ans.

Ltac absurd_membership :=
  repeat match goal with
         | H : list_elem_of _ _ |- _ => inversion H; clear H; subst
         | H : _ ∈ _ |- _ => inversion H; clear H; subst
         end.

(** A transaction that is not started by the call is not touched by it. *)
Lemma not_owned_not_touched expressionMap ownQueryRunner env active :
  useTransaction expressionMap && negb active = false →
  let r := run expressionMap ownQueryRunner env active in
  (StartTransaction ∉ issued r)
  ∧ (CommitTransaction ∉ issued r)
  ∧ (RollbackTransaction ∉ issued r).
Proof.
  intros Hcond r. subst r. revert Hcond.
  destruct ownQueryRunner, active; run_cases expressionMap env;
    intros Hcond; try discriminate Hcond;
    split_and!; intros Hin; absurd_membership.
Qed.

(** With a transaction to start, the start is the first call. *)
Lemma start_is_first expressionMap ownQueryRunner env :
  useTransaction expressionMap = true →
  let r := run expressionMap ownQueryRunner env false in
  (∃ rest, issued r = StartTransaction :: rest)
  ∧ (answer env StartTransaction = Resolves → transactionStartedByUs r.2 = true).
Proof.
  intros Hcond r. subst r. revert Hcond.
  destruct ownQueryRunner; run_cases expressionMap env;
    intros Hcond; try discriminate Hcond; split; eauto; done.
Qed.

(** The first rejected step of an owned transaction: the rollback is
    awaited and no commit is awaited after another step was rejected; the
    transaction is ended only when the rollback is fulfilled; the call
    throws the error of that step when the rollback is settled and the
    release of its own query runner is fulfilled, throws the error of the
    release when that is rejected, and does not complete when the rollback
    or the release is never settled. *)
Lemma rejected_step_rolls_back expressionMap ownQueryRunner env c e :
  useTransaction expressionMap = true →
  answer env StartTransaction = Resolves →
  firstRejection env (stepsBeforeCommit expressionMap ++ [CommitTransaction]) = Some (c, e) →
  let r := run expressionMap ownQueryRunner env false in
  RollbackTransaction ∈ issued r
  ∧ (c ≠ CommitTransaction → CommitTransaction ∉ issued r)
  ∧ isTransactionActive r.2
    = match answer env RollbackTransaction with Resolves => false | _ => true end
  ∧ outcome r
    = match answer env RollbackTransaction with
      | NeverSettles => Unsettled
      | _ => afterRelease ownQueryRunner env e
      end.
Proof.
  intros Hcond Hstart Hfirst r. subst r. revert Hcond Hstart Hfirst.
  destruct ownQueryRunner; run_cases expressionMap env;
    intros Hcond Hstart Hfirst; try discriminate;
    injection Hfirst as <- <-;
    (split_and!;
     [ repeat first [apply list_elem_of_here | apply list_elem_of_further]
     | try (intros Hc; by destruct Hc); intros _ Hin; absurd_membership
     | reflexivity
     | reflexivity ]).
Qed.

(** The commit is awaited only after the start and every step before it
    were fulfilled. *)
Lemma commit_after_success expressionMap ownQueryRunner env active :
  CommitTransaction ∈ issued (run expressionMap ownQueryRunner env active) →
  useTransaction expressionMap = true
  ∧ active = false
  ∧ answer env StartTransaction = Resolves
  ∧ Forall (λ c, answer env c = Resolves) (stepsBeforeCommit expressionMap).
Proof.
  destruct ownQueryRunner, active; run_cases expressionMap env;
    intros Hin; absurd_membership;
    (split_and!; [done|done|done|]); repeat constructor; done.
Qed.

(** C9 (as amended): configured to use a transaction while none is active,
    execute starts one first and owns it once the start is fulfilled; if then
    a step of the try block is rejected (a lifecycle broadcast, the query or
    the commit), the rollback is awaited and no commit is awaited after a
    rejected earlier step; the transaction is ended only when the rollback
    is fulfilled, a rejected rollback being swallowed; the error of the
    rejected step is rethrown when the rollback is settled and the release
    of a query runner the call created itself is fulfilled, the error of the
    release is thrown when the release is rejected, and execute does not
    complete when the rollback or that release is never settled; the commit
    is awaited only when the start and every step before it were fulfilled;
    and with a transaction already active execute awaits neither a start, a
    commit nor a rollback. *)
Theorem owned_transaction_protocol (expressionMap : ExpressionMap)
    (ownQueryRunner : bool) (env : Environment) (active : bool) :
  let r := run expressionMap ownQueryRunner env active in
  (useTransaction expressionMap = true → active = false →
     (∃ rest, issued r = StartTransaction :: rest)
     ∧ (answer env StartTransaction = Resolves → transactionStartedByUs r.2 = true)
     ∧ (∀ c e,
          answer env StartTransaction = Resolves →
          firstRejection env (stepsBeforeCommit expressionMap ++ [CommitTransaction])
          = Some (c, e) →
          RollbackTransaction ∈ issued r
          ∧ (c ≠ CommitTransaction → CommitTransaction ∉ issued r)
          ∧ isTransactionActive r.2
            = match answer env RollbackTransaction with Resolves => false | _ => true end
          ∧ outcome r
            = match answer env RollbackTransaction with
              | NeverSettles => Unsettled
              | _ => afterRelease ownQueryRunner env e
              end))
  ∧ (CommitTransaction ∈ issued r →
       useTransaction expressionMap = true
       ∧ active = false
       ∧ answer env StartTransaction = Resolves
       ∧ Forall (λ c, answer env c = Resolves) (stepsBeforeCommit expressionMap))
  ∧ (active = true →
       (StartTransaction ∉ issued r)
       ∧ (CommitTransaction ∉ issued r)
       ∧ (RollbackTransaction ∉ issued r)).
Proof.
  intros r. subst r. split_and!.
  - intros Huse ->.
    destruct (start_is_first expressionMap ownQueryRunner env Huse) as [Hfirst Howned].
    split_and!; [done|done|].
    intros c e Hstart Hrej.
    by apply rejected_step_rolls_back.
  - apply commit_after_success.
  - intros ->. apply not_owned_not_touched. apply andb_false_r.
Qed.

(** The answers of [unconnectedRunner] are those of an [OracleQueryRunner]
    created for the call whose driver cannot connect, on the calls execute
    issues after a rejected query. *)
Lemma unconnected_runner_answers (sql : string) (parameters : option (list jsval)) :
  let r0 := OracleQueryRunner.newRunner OracleQueryRunner.master in
  let started := OracleQueryRunner.startTransaction r0 in
  let queried :=
    OracleQueryRunner.query OracleQueryRunner.unreachableDriver sql parameters started.2 in
  let rolledBack :=
    OracleQueryRunner.rollbackTransaction OracleQueryRunner.unreachableDriver queried.2 in
  let released :=
    OracleQueryRunner.release OracleQueryRunner.unreachableDriver rolledBack.2 in
  started.1 = OracleQueryRunner.Resolved tt
  ∧ queried.1 = OracleQueryRunner.Rejected (OracleQueryRunner.DriverFailure "ORA-12541")
  ∧ rolledBack.1 = OracleQueryRunner.Rejected (OracleQueryRunner.DriverFailure "ORA-12541")
  ∧ OracleQueryRunner.isTransactionActive rolledBack.2 = true
  ∧ released.1 = OracleQueryRunner.Pending.
Proof. by split_and!. Qed.

(** C9 (as it is worded, refuted): after a rejected step of an owned
    transaction the transaction is not always rolled back and the error is
    not always rethrown.  When the rollback is rejected too, the error of the
    step is thrown while the transaction stays active; when the release of
    the call's own query runner is rejected, the error of the release is
    thrown; and on a query runner of its own that cannot connect, whose
    release is never settled, nothing is thrown at all. *)
Lemma failure_not_always_rolled_back_and_rethrown :
  (outcome (run (mkExpressionMap true true true) true failingQueryAndRollback false)
   = Throw "query failed"
   ∧ isTransactionActive
       (run (mkExpressionMap true true true) true failingQueryAndRollback false).2 = true)
  ∧ (issued (run (mkExpressionMap true true true) true failingQueryAndRelease false)
     = [StartTransaction; BroadcastBeforeRemoveEvent; Query; RollbackTransaction; Release]
     ∧ outcome (run (mkExpressionMap true true true) true failingQueryAndRelease false)
       = Throw "release failed")
  ∧ (issued (run (mkExpressionMap true true true) true unconnectedRunner false)
     = [StartTransaction; BroadcastBeforeRemoveEvent; Query; RollbackTransaction; Release]
     ∧ outcome (run (mkExpressionMap true true true) true unconnectedRunner false)
       = Unsettled)
  ∧ ¬ (∀ expressionMap ownQueryRunner env c e,
         useTransaction expressionMap = true →
         answer env StartTransaction = Resolves →
         firstRejection env (stepsBeforeCommit expressionMap ++ [CommitTransaction])
         = Some (c, e) →
         isTransactionActive (run expressionMap ownQueryRunner env false).2 = false
         ∧ outcome (run expressionMap ownQueryRunner env false) = Throw e).
Proof.
  split_and!; try reflexivity.
  intros Hclaim.
  destruct (Hclaim (mkExpressionMap true true true) true unconnectedRunner
              Query "ORA-12541" eq_refl eq_refl eq_refl) as [_ Hthrown].
  vm_compute in Hthrown. discriminate.
Qed.

Lemma owned_transaction_protocol_witness :
  issued (run (mkExpressionMap true true true) true failingQuery false)
  = [StartTransaction; BroadcastBeforeRemoveEvent; Query; RollbackTransaction; Release]
  ∧ RollbackTransaction ∈ issued (run (mkExpressionMap true true true) true failingQuery false)
  ∧ (CommitTransaction
     ∉ issued (run (mkExpressionMap true true true) true failingQuery false))
  ∧ isTransactionActive (run (mkExpressionMap true true true) true failingQuery false).2
    = false
  ∧ outcome (run (mkExpressionMap true true true) true failingQuery false)
    = Throw "query failed"
  ∧ outcome (run (mkExpressionMap true true true) true failingQueryAndRelease false)
    = Throw "release failed"
  ∧ outcome (run (mkExpressionMap true true true) true unconnectedRunner false)
    = Unsettled
  ∧ (StartTransaction
     ∉ issued (run (mkExpressionMap true true true) true failingQuery true)).
Proof.
  split; [reflexivity|].
  destruct (owned_transaction_protocol (mkExpressionMap true true true) true
              failingQuery false) as (Howned & _ & _).
  destruct (Howned eq_refl eq_refl) as (_ & _ & Hfail).
  destruct (Hfail Query "query failed" eq_refl eq_refl)
    as (Hrollback & Hcommit & Hflag & Hthrown).
  split; [exact Hrollback|]. split; [by apply Hcommit|]. split; [exact Hflag|].
  split; [exact Hthrown|].
  destruct (owned_transaction_protocol (mkExpressionMap true true true) true
              failingQueryAndRelease false) as (Howned' & _ & _).
  destruct (Howned' eq_refl eq_refl) as (_ & _ & Hfail').
  destruct (Hfail' Query "query failed" eq_refl eq_refl) as (_ & _ & _ & Hthrown').
  split; [exact Hthrown'|].
  destruct (owned_transaction_protocol (mkExpressionMap true true true) true
              unconnectedRunner false) as (Howned'' & _ & _).
  destruct (Howned'' eq_refl eq_refl) as (_ & _ & Hfail'').
  destruct (Hfail'' Query "ORA-12541" eq_refl eq_refl) as (_ & _ & _ & Hhangs).
  split; [exact Hhangs|].
  destruct (owned_transaction_protocol (mkExpressionMap true true true) true
              failingQuery true) as (_ & _ & Houter).
  by destruct (Houter eq_refl) as (Hstart & _ & _).
Defined.

End DeleteExecution.

(** * Further properties of the change computer *)

Section ComputerOutcome.
Context `{Collaborators}.

Lemma diffColumn_recorded e subject column :
  diffColumn e subject column
  = if columnRecorded e subject column
    then recordColumnChange subject column (column_getEntityValue column e)
    else subject.
Proof.
  unfold diffColumn, columnRecorded.
  destruct (isSpecialColumn column); [done|].
  destruct (is_undefined _); [done|].
  by destruct (columnUnchanged _ _ _ _).
Qed.

(** The decision of a step reads the snapshot of the Subject only. *)
Lemma columnRecorded_snapshot e s s' column :
  databaseEntity s' = databaseEntity s →
  columnRecorded e s' column = columnRecorded e s column.
Proof. unfold columnRecorded, columnUnchanged. by intros ->. Qed.

Lemma foldl_diffColumn_diffColumns e l s0 s :
  databaseEntity s = databaseEntity s0 →
  diffColumns (foldl (diffColumn e) s l)
  = diffColumns s ++ filter (λ c, columnRecorded e s0 c = true) l.
Proof.
  revert s. induction l as [|c l IH]; intros s Hdb; simpl.
  - by rewrite ?filter_nil, app_nil_r.
  - rewrite IH by (destruct (diffColumn_frame e s c) as (_ & _ & -> & _); done).
    rewrite filter_cons, diffColumn_recorded, (columnRecorded_snapshot e s0 s c Hdb).
    destruct (columnRecorded e s0 c).
    + rewrite decide_True by done.
      by rewrite recordColumnChange_diffColumns, <- app_assoc.
    + by rewrite decide_False by done.
Qed.

(** X1: after the column pass the diff list of a Subject is the list it
    held before followed by exactly the columns the pass found changed, in
    the order of the metadata. *)
Theorem column_pass_diff_list (e : ref) (subject : Subject) :
  entity subject = Some e →
  diffColumns (computeDiffColumns subject)
  = diffColumns subject
    ++ filter (λ c, columnRecorded e subject c = true) (columns (metadata subject)).
Proof.
  intros He. unfold computeDiffColumns. rewrite He.
  by apply foldl_diffColumn_diffColumns.
Qed.

Lemma foldl_diffColumn_changeMaps e l s0 s :
  databaseEntity s = databaseEntity s0 →
  NoDup l →
  (∀ c, c ∈ l → c ∉ omap cm_column (changeMaps s)) →
  changeMaps (foldl (diffColumn e) s l)
  = changeMaps s ++ (columnChange e <$> filter (λ c, columnRecorded e s0 c = true) l).
Proof.
  revert s. induction l as [|c l IH]; intros s Hdb Hnd Hnew; simpl.
  - by rewrite ?filter_nil, app_nil_r.
  - apply NoDup_cons in Hnd as [Hc Hnd].
    assert (c ∉ omap cm_column (changeMaps s)) as Hcnew
      by (apply Hnew; apply list_elem_of_here).
    rewrite filter_cons.
    pose proof (diffColumn_recorded e s c) as Hstep.
    rewrite (columnRecorded_snapshot e s0 s c Hdb) in Hstep.
    destruct (columnRecorded e s0 c) eqn:Hrec.
    + rewrite decide_True by done.
      assert (changeMaps (diffColumn e s c) = changeMaps s ++ [columnChange e c]) as Hmaps.
      { rewrite Hstep, recordColumnChange_changeMaps. unfold upsert.
        destruct (list_find _ _) as [[i m]|] eqn:Hfind; [|done].
        apply list_find_Some in Hfind as (Hi & Hm & _). exfalso. apply Hcnew.
        apply list_elem_of_omap. exists m. split; [|done].
        apply list_elem_of_lookup. eauto. }
      rewrite IH.
      * rewrite Hmaps, fmap_cons, <- app_assoc. done.
      * destruct (diffColumn_frame e s c) as (_ & _ & -> & _). done.
      * done.
      * intros c' Hc'. rewrite Hmaps, omap_app. simpl.
        intros Hin. apply elem_of_app in Hin as [Hin|Hin].
        -- revert Hin. apply Hnew. by apply list_elem_of_further.
        -- apply list_elem_of_singleton in Hin as ->. done.
    + rewrite decide_False by done.
      rewrite Hstep in *. apply IH; [done|done|].
      intros c' Hc'. apply Hnew. by apply list_elem_of_further.
Qed.

(** X2: when the metadata lists no column twice and no change record of
    the Subject is tagged with one of its columns yet (as on a Subject without
    change records), the column pass appends one record per changed column,
    in the order of the metadata, each carrying the entity value as it is
    (not its normalized form), and leaves the earlier records as they are. *)
Theorem column_pass_change_records (e : ref) (subject : Subject) :
  entity subject = Some e →
  NoDup (columns (metadata subject)) →
  (∀ c, c ∈ columns (metadata subject) → c ∉ omap cm_column (changeMaps subject)) →
  changeMaps (computeDiffColumns subject)
  = changeMaps subject
    ++ (columnChange e
          <$> filter (λ c, columnRecorded e subject c = true) (columns (metadata subject))).
Proof.
  intros He Hnd Hnew. unfold computeDiffColumns. rewrite He.
  by apply foldl_diffColumn_changeMaps.
Qed.

(** What a relation step does to the diff list of the Subject it runs on. *)
Lemma diffRelation_diffRelations allSubjects h e store s relation :
  store !! h = Some s →
  ∃ s', diffRelation allSubjects h e store relation !! h = Some s'
        ∧ databaseEntity s' = databaseEntity s
        ∧ diffRelations s'
          = diffRelations s ++ (if relationPushed e s relation then [relation] else []).
Proof.
  intros Hs. unfold diffRelation, relationPushed. rewrite Hs.
  destruct (is_undefined _); simpl.
  - exists s. by rewrite app_nil_r.
  - destruct (databaseEntity s) as [db|] eqn:Hdb.
    + destruct (areRelatedIdsEqual _ _ _); simpl.
      * exists s. by rewrite app_nil_r.
      * rewrite recordRelationChange_lookup. eexists. by split_and!.
    + rewrite recordRelationChange_lookup. eexists.
      split_and!; [done|done|]. simpl. by rewrite app_nil_r.
Qed.

Lemma relationPushed_snapshot e s s' relation :
  databaseEntity s' = databaseEntity s →
  relationPushed e s' relation = relationPushed e s relation.
Proof. unfold relationPushed. by intros ->. Qed.

Lemma relationPushed_no_snapshot e s l :
  databaseEntity s = None → filter (λ r, relationPushed e s r = true) l = [].
Proof.
  intros Hdb. induction l as [|r l IH]; [done|].
  rewrite filter_cons_False; [exact IH|].
  unfold relationPushed. rewrite Hdb. by rewrite andb_false_r.
Qed.

(** X3: after the relation pass the relation diff list of a Subject is the
    list it held before followed by exactly the relations whose value is
    provided and whose ids differ from the snapshot's, in the order of the
    metadata; on a Subject without a snapshot the list is left as it is. *)
Theorem relation_pass_diff_list (allSubjects : list handle) (h : handle) (e : ref)
    (store : gmap handle Subject) (subject : Subject) :
  store !! h = Some subject →
  entity subject = Some e →
  ∃ s', computeDiffRelationalColumns allSubjects h store !! h = Some s'
        ∧ diffRelations s'
          = diffRelations subject
            ++ filter (λ r, relationPushed e subject r = true)
                      (relationsWithJoinColumns (metadata subject))
        ∧ (databaseEntity subject = None → diffRelations s' = diffRelations subject).
Proof.
  intros Hs He. unfold computeDiffRelationalColumns. rewrite Hs, He.
  assert (∀ l st s,
            st !! h = Some s → databaseEntity s = databaseEntity subject →
            ∃ s', foldl (diffRelation allSubjects h e) st l !! h = Some s'
                  ∧ diffRelations s'
                    = diffRelations s
                      ++ filter (λ r, relationPushed e subject r = true) l) as Hfold.
  { induction l as [|r l IH]; intros st s Hst Hdb; simpl.
    - exists s. by rewrite ?filter_nil, app_nil_r.
    - destruct (diffRelation_diffRelations allSubjects h e st s r Hst)
        as (s1 & Hs1 & Hdb1 & Hdiff1).
      destruct (IH _ s1 Hs1) as (s' & Hs' & Hdiff'); [congruence|].
      exists s'. split; [done|].
      rewrite Hdiff', Hdiff1, filter_cons, (relationPushed_snapshot e subject s r Hdb).
      destruct (relationPushed e subject r).
      + rewrite decide_True by done. by rewrite <- app_assoc.
      + rewrite decide_False by done. by rewrite app_nil_r. }
  destruct (Hfold (relationsWithJoinColumns (metadata subject)) store subject Hs eq_refl)
    as (s' & Hs' & Hdiff).
  exists s'. split_and!; [done|done|].
  intros Hdb. rewrite Hdiff.
  by rewrite (relationPushed_no_snapshot e subject _ Hdb), app_nil_r.
Qed.

End ComputerOutcome.

Section ComputeFrame.
Context `{Collaborators}.

Lemma identity_kept_refl s : identity_kept s s.
Proof. by split_and!. Qed.

Lemma store_identity_kept_refl store : store_identity_kept store store.
Proof. intros h. destruct (store !! h); [apply identity_kept_refl|done]. Qed.

Lemma store_identity_kept_trans store store' store'' :
  store_identity_kept store store' → store_identity_kept store' store'' →
  store_identity_kept store store''.
Proof.
  intros H1 H2 h. specialize (H1 h). specialize (H2 h).
  destruct (store !! h), (store' !! h), (store'' !! h); try done.
  destruct H1 as (? & ? & ? & ?), H2 as (? & ? & ? & ?).
  split_and!; congruence.
Qed.

Lemma diffRelation_identity allSubjects h e store relation :
  store_identity_kept store (diffRelation allSubjects h e store relation).
Proof.
  intros h'. destruct (decide (h' = h)) as [->|Hne].
  - destruct (store !! h) as [s|] eqn:Hs.
    + destruct (diffRelation_frame allSubjects h e store s relation Hs)
        as (s' & -> & ? & ? & ? & ? & _). by split_and!.
    + by rewrite diffRelation_absent, Hs.
  - rewrite diffRelation_other by done.
    destruct (store !! h'); [apply identity_kept_refl|done].
Qed.

Lemma computeSubject_identity subjects store h :
  store_identity_kept store (computeSubject subjects store h).
Proof.
  unfold computeSubject.
  eapply store_identity_kept_trans with (store' := alter computeDiffColumns h store).
  - intros h'. rewrite lookup_alter. case_decide as Hh.
    + subst h'. destruct (store !! h) as [s|]; simpl; [|done].
      destruct (computeDiffColumns_frame s) as (? & ? & ? & ? & _). by split_and!.
    + destruct (store !! h'); [apply identity_kept_refl|done].
  - generalize (alter computeDiffColumns h store). intros st.
    unfold computeDiffRelationalColumns.
    destruct (st !! h) as [s|]; [|apply store_identity_kept_refl].
    destruct (entity s) as [e|]; [|apply store_identity_kept_refl].
    generalize (relationsWithJoinColumns (metadata s)). intros l. revert st.
    induction l as [|r l IH]; intros st; simpl; [apply store_identity_kept_refl|].
    eapply store_identity_kept_trans; [apply diffRelation_identity|apply IH].
Qed.

(** X4: compute neither adds nor removes a Subject, and it writes none of
    the metadata, the entity, the snapshot and the insert intent of any
    Subject: only the two diff lists and the change records can differ. *)
Theorem compute_keeps_identity (subjects : list handle) (store : gmap handle Subject)
    (h : handle) :
  match store !! h, compute subjects store !! h with
  | Some s, Some s' =>
      metadata s' = metadata s
      ∧ entity s' = entity s
      ∧ databaseEntity s' = databaseEntity s
      ∧ mustBeInserted s' = mustBeInserted s
  | None, None => True
  | _, _ => False
  end.
Proof.
  revert h. change (store_identity_kept store (compute subjects store)).
  unfold compute. generalize subjects at 2. intros l. revert store.
  induction l as [|x l IH]; intros store; simpl; [apply store_identity_kept_refl|].
  eapply store_identity_kept_trans; [apply computeSubject_identity|apply IH].
Qed.

Lemma computeSubject_other subjects store h h' :
  h ≠ h' → computeSubject subjects store h' !! h = store !! h.
Proof.
  intros Hne. unfold computeSubject.
  rewrite computeDiffRelationalColumns_other by done.
  by rewrite lookup_alter_ne.
Qed.

(** X5: a Subject that is not listed in the batch is left exactly as it
    is, although the passes may read it when they look for a pending
    sibling. *)
Theorem compute_outside_batch (subjects : list handle) (store : gmap handle Subject)
    (h : handle) :
  h ∉ subjects → compute subjects store !! h = store !! h.
Proof.
  unfold compute. generalize subjects at 1 3. intros l. revert store.
  induction l as [|x l IH]; intros store Hnot; [done|].
  simpl. rewrite IH.
  - apply computeSubject_other. intros ->. apply Hnot. apply list_elem_of_here.
  - intros Hin. apply Hnot. by apply list_elem_of_further.
Qed.

End ComputeFrame.

(** * The claims about [compute] on a whole batch *)

Section UpsertFacts.
Context (P : SubjectChangeMap → Prop) `{!∀ m, Decision (P m)}.
Context (fresh : SubjectChangeMap) (v : jsval).

(** A record stays, with its tags and its value, unless the upsert finds it
    and writes another value. *)
Lemma upsert_keeps_record l m :
  m ∈ l → (P m → cm_value m = v) →
  ∃ m', m' ∈ upsert P fresh v l
        ∧ cm_column m' = cm_column m
        ∧ cm_relation m' = cm_relation m
        ∧ cm_value m' = cm_value m.
Proof.
  intros Hm Hval. unfold upsert.
  destruct (list_find P l) as [[i mi]|] eqn:Hfind.
  - apply list_find_Some in Hfind as (Hi & HPi & _).
    apply list_elem_of_lookup in Hm as [j Hj].
    destruct (decide (i = j)) as [<-|Hne].
    + assert (mi = m) as -> by congruence.
      exists (set_value v m). split_and!; [|done|done|].
      * apply list_elem_of_lookup. exists i.
        apply list_lookup_insert_eq. eapply lookup_lt_Some; eauto.
      * simpl. symmetry. by apply Hval.
    + exists m. split_and!; try done.
      apply list_elem_of_lookup. exists j. by rewrite list_lookup_insert_ne.
  - exists m. split_and!; try done. apply elem_of_app. by left.
Qed.

(** The records an upsert does not look for are as they were. *)
Lemma upsert_filter_other (Q : SubjectChangeMap → Prop) `{!∀ m, Decision (Q m)} l :
  (∀ m, Q (set_value v m) → Q m) →
  (∀ m, m ∈ l → P m → ¬ Q m) →
  ¬ Q fresh →
  filter Q (upsert P fresh v l) = filter Q l.
Proof.
  intros Hset Hother Hfresh. unfold upsert.
  destruct (list_find P l) as [[i mi]|] eqn:Hfind.
  - apply list_find_Some in Hfind as (Hi & HPi & _).
    assert (¬ Q mi) as Hmi.
    { apply Hother; [|done]. apply list_elem_of_lookup. eauto. }
    eapply filter_insert_irrelevant; eauto.
  - rewrite filter_app, filter_cons_False by done.
    by rewrite filter_nil, app_nil_r.
Qed.

End UpsertFacts.

Lemma foldl_invariant {A B} (f : A → B → A) (J : A → Prop) (l : list B) (a : A) :
  (∀ a y, J a → J (f a y)) → J a → J (foldl f a l).
Proof.
  intros Hstep. revert a. induction l as [|y l IH]; intros a Ha; [done|].
  simpl. apply IH. by apply Hstep.
Qed.

(** A property the step on [x] establishes and every step keeps holds after
    a pass over a list that holds [x]. *)
Lemma foldl_establish {A B} (f : A → B → A) (J P : A → Prop) (x : B)
    (l : list B) (a : A) :
  x ∈ l →
  (∀ a y, J a → J (f a y)) →
  (∀ a, J a → P (f a x)) →
  (∀ a y, J a → P a → P (f a y)) →
  J a → P (foldl f a l).
Proof.
  intros Hx HJ Hest Hkeep. revert a.
  induction l as [|y l IH]; intros a Ha; [by apply not_elem_of_nil in Hx|].
  simpl. apply elem_of_cons in Hx as [<-|Hx].
  - apply (foldl_invariant f (λ a, J a ∧ P a)).
    + intros a' y' [HJa HPa]. split; [by apply HJ|by apply Hkeep].
    + split; [by apply HJ|by apply Hest].
  - apply IH; [done|]. by apply HJ.
Qed.

Section ComputeClaims.
Context `{Collaborators}.

Lemma well_tagged_column m c : well_tagged m → cm_column m = Some c → cm_relation m = None.
Proof. intros [[_ Hr]|[Hc _]] Hm; [done|congruence]. Qed.

Lemma well_tagged_relation m r : well_tagged m → cm_relation m = Some r → cm_column m = None.
Proof. intros [[_ Hr]|[Hc _]] Hm; [congruence|done]. Qed.

(** *** From the store to the Subject *)

Lemma recordedValue_identity store0 store allSubjects v :
  store_identity_kept store0 store →
  recordedValue store allSubjects v = recordedValue store0 allSubjects v.
Proof.
  intros Hkept. unfold recordedValue, findValueSubject.
  assert (∀ x, isInsertedSubjectOf store v x = isInsertedSubjectOf store0 v x) as Hsame.
  { intros x. unfold isInsertedSubjectOf, entity_value. specialize (Hkept x).
    destruct (store0 !! x) as [s0|], (store !! x) as [s|]; try done.
    destruct Hkept as (_ & -> & _ & ->). done. }
  assert (find (isInsertedSubjectOf store v) allSubjects
          = find (isInsertedSubjectOf store0 v) allSubjects) as ->; [|done].
  induction allSubjects as [|x l IH]; [done|]. simpl. by rewrite Hsame, IH.
Qed.

Lemma diffRelation_relationStep allSubjects h e store s relation :
  store !! h = Some s →
  diffRelation allSubjects h e store relation !! h
  = Some (relationStep
            (recordedValue store allSubjects (relation_getEntityValue relation e))
            e s relation).
Proof.
  intros Hs. unfold diffRelation, relationStep. rewrite Hs.
  destruct (is_undefined _); [done|].
  destruct (databaseEntity s) as [db|].
  - destruct (areRelatedIdsEqual _ _ _); [done|].
    rewrite recordRelationChange_lookup. unfold recordRelation, recordedValue. simpl.
    by rewrite (findValueSubject_insert _ _ _ _ _ _ Hs).
  - rewrite recordRelationChange_lookup. unfold recordRelation, recordedValue. simpl.
    by rewrite (findValueSubject_insert _ _ _ _ _ _ Hs).
Qed.

Lemma relation_pass_on_subject store0 allSubjects h e l :
  ∀ store s,
    store_identity_kept store0 store →
    store !! h = Some s →
    foldl (diffRelation allSubjects h e) store l !! h
    = Some (foldl (λ s relation, subjectStep store0 allSubjects e s (inr relation)) s l).
Proof.
  induction l as [|r l IH]; intros store s Hkept Hs; [done|]. simpl.
  rewrite (IH _ (relationStep
                   (recordedValue store0 allSubjects (relation_getEntityValue r e))
                   e s r)).
  - done.
  - eapply store_identity_kept_trans; [exact Hkept|apply diffRelation_identity].
  - rewrite (diffRelation_relationStep _ _ _ _ _ _ Hs).
    by rewrite (recordedValue_identity store0 store).
Qed.

Lemma alter_computeDiffColumns_identity h store :
  store_identity_kept store (alter computeDiffColumns h store).
Proof.
  intros h'. rewrite lookup_alter. case_decide as Hh.
  - subst h'. destruct (store !! h) as [s|]; simpl; [|done].
    destruct (computeDiffColumns_frame s) as (? & ? & ? & ? & _). by split_and!.
  - destruct (store !! h'); [apply identity_kept_refl|done].
Qed.

(** The turn of the Subject at [h] is [subjectTurn], whatever the turns
    before it have written. *)
Lemma computeSubject_turn store0 subjects h store s :
  store_identity_kept store0 store →
  store !! h = Some s →
  computeSubject subjects store h !! h = Some (subjectTurn store0 subjects s).
Proof.
  intros Hkept Hs. unfold computeSubject, computeDiffRelationalColumns, subjectTurn.
  assert (alter computeDiffColumns h store !! h = Some (computeDiffColumns s)) as Haltered.
  { by rewrite lookup_alter, decide_True, Hs by done. }
  rewrite Haltered.
  destruct (computeDiffColumns_frame s) as (Hmd & He & _). rewrite He, Hmd.
  destruct (entity s) as [e|] eqn:Hentity.
  - rewrite (relation_pass_on_subject store0 subjects h e _ _ (computeDiffColumns s)).
    + unfold turnSteps. rewrite foldl_app, !foldl_fmap.
      unfold computeDiffColumns. by rewrite Hentity.
    + eapply store_identity_kept_trans; [exact Hkept|].
      apply alter_computeDiffColumns_identity.
    + exact Haltered.
  - rewrite Haltered. unfold computeDiffColumns. by rewrite Hentity.
Qed.

(** What every turn keeps holds of a Subject after [compute]; what the turn
    of the Subject establishes as well, when the Subject is in the batch. *)
Lemma compute_on_subject (J P : Subject → Prop) subjects store h s0 :
  (∀ s, J s → J (subjectTurn store subjects s)) →
  (∀ s, J s → P s → P (subjectTurn store subjects s)) →
  store !! h = Some s0 →
  J s0 →
  ∃ s', compute subjects store !! h = Some s'
        ∧ J s'
        ∧ ((∀ s, J s → P (subjectTurn store subjects s)) → h ∈ subjects → P s').
Proof.
  intros HJ HP Hs0 HJ0. unfold compute.
  set (inv := λ st : gmap handle Subject,
         store_identity_kept store st ∧ ∃ s, st !! h = Some s ∧ J s).
  assert (∀ st x, inv st → inv (computeSubject subjects st x)) as Hinv.
  { intros st x [Hkept (s & Hs & HJs)]. split.
    - eapply store_identity_kept_trans; [exact Hkept|apply computeSubject_identity].
    - destruct (decide (x = h)) as [->|Hne].
      + exists (subjectTurn store subjects s).
        split; [by apply computeSubject_turn|by apply HJ].
      + exists s. split; [|done]. by rewrite computeSubject_other. }
  assert (inv store) as Hinv0.
  { split; [apply store_identity_kept_refl|eauto]. }
  generalize subjects at 2 4. intros l.
  pose proof (foldl_invariant (computeSubject subjects) inv l store Hinv Hinv0)
    as [_ (s' & Hs' & HJs')].
  exists s'. split_and!; [done|done|].
  intros Hest Hin.
  assert (∃ s, foldl (computeSubject subjects) store l !! h = Some s ∧ P s)
    as (s & Hs & HPs); [|congruence].
  apply (foldl_establish (computeSubject subjects) inv
           (λ st, ∃ s, st !! h = Some s ∧ P s) h l store Hin Hinv).
  - intros st [Hkept (s & Hs & HJs)]. exists (subjectTurn store subjects s).
    split; [by apply computeSubject_turn|by apply Hest].
  - intros st y [Hkept (s & Hs & HJs)] (s2 & Hs2 & HPs2).
    assert (s2 = s) as -> by congruence.
    destruct (decide (y = h)) as [->|Hne].
    + exists (subjectTurn store subjects s).
      split; [by apply computeSubject_turn|by apply HP].
    + exists s. split; [|done]. by rewrite computeSubject_other.
  - exact Hinv0.
Qed.


(** *** The steps of a turn *)

Section Steps.
Context (store : gmap handle Subject) (subjects : list handle) (e : ref).

Lemma recordColumnChange_reached s0 s column v :
  reached s0 s → reached s0 (recordColumnChange s column v).
Proof.
  intros (Hid & Hw & Hc & Hr). split_and!; [done| |by apply prefix_app_r|done].
  rewrite recordColumnChange_changeMaps. apply upsert_well_tagged; [|done].
  left. simpl. eauto.
Qed.

Lemma recordRelation_reached s0 s relation v :
  reached s0 s → reached s0 (recordRelation s relation v).
Proof.
  intros (Hid & Hw & Hc & Hr). split_and!; [done| |done|done].
  simpl. apply upsert_well_tagged; [|done]. right. simpl. eauto.
Qed.

Lemma push_diffRelation_reached s0 s relation :
  reached s0 s → reached s0 (push_diffRelation relation s).
Proof. intros (Hid & Hw & Hc & Hr). split_and!; [done|done|done|by apply prefix_app_r]. Qed.

(** A step returns the Subject as it is, or records a column, or records a
    relation, after appending it to the diff list when there is a
    snapshot. *)
Lemma subjectStep_cases s step :
  subjectStep store subjects e s step = s
  ∨ (∃ column,
       step = inl column
       ∧ subjectStep store subjects e s step
         = recordColumnChange s column (column_getEntityValue column e))
  ∨ (∃ relation base,
       step = inr relation
       ∧ (base = s ∨ base = push_diffRelation relation s)
       ∧ subjectStep store subjects e s step
         = recordRelation base relation
             (recordedValue store subjects (relation_getEntityValue relation e))).
Proof.
  destruct step as [column|relation]; simpl.
  - destruct (diffColumn_cases e s column) as [-> | ->]; [by left|].
    right. left. eauto.
  - unfold relationStep. destruct (is_undefined _); [by left|].
    destruct (databaseEntity s).
    + destruct (areRelatedIdsEqual _ _ _); [by left|]. right. right. eauto 10.
    + right. right. eauto 10.
Qed.

Lemma subjectStep_reached s0 s step :
  reached s0 s → reached s0 (subjectStep store subjects e s step).
Proof.
  intros Hs.
  destruct (subjectStep_cases s step)
    as [-> | [(column & _ & ->) | (relation & base & _ & Hbase & ->)]]; [done| |].
  - by apply recordColumnChange_reached.
  - apply recordRelation_reached.
    destruct Hbase as [-> | ->]; [done|by apply push_diffRelation_reached].
Qed.

(** A record of a column outlives every step that writes the same value for
    the column. *)
Lemma subjectStep_keeps_column s0 s step column :
  reached s0 s →
  column_recorded_with column (column_getEntityValue column e) s →
  column_recorded_with column (column_getEntityValue column e)
                       (subjectStep store subjects e s step).
Proof.
  intros (_ & Hw & _) (m & Hm & Hcol & Hval).
  destruct (subjectStep_cases s step)
    as [-> | [(column' & _ & ->) | (relation & base & _ & Hbase & ->)]].
  - by exists m.
  - unfold column_recorded_with. rewrite recordColumnChange_changeMaps.
    destruct (upsert_keeps_record (is_column_change column')
                (mkChangeMap (Some column') None (column_getEntityValue column' e))
                (column_getEntityValue column' e) (changeMaps s) m Hm)
      as (m' & Hm' & Hc' & _ & Hv').
    + unfold is_column_change. intros Hfound. congruence.
    + exists m'. split_and!; congruence.
  - assert (changeMaps base = changeMaps s) as Hmaps by (by destruct Hbase as [-> | ->]).
    unfold column_recorded_with, recordRelation. simpl. rewrite Hmaps.
    destruct (upsert_keeps_record (is_relation_change relation)
                (mkChangeMap None (Some relation)
                   (recordedValue store subjects (relation_getEntityValue relation e)))
                (recordedValue store subjects (relation_getEntityValue relation e))
                (changeMaps s) m Hm) as (m' & Hm' & Hc' & _ & Hv').
    + unfold is_relation_change. intros Hfound. exfalso.
      rewrite Forall_forall in Hw.
      pose proof (well_tagged_column m column (Hw m Hm) Hcol). congruence.
    + exists m'. split_and!; congruence.
Qed.

(** A record of a relation outlives every step likewise. *)
Lemma subjectStep_keeps_relation s0 s step relation :
  reached s0 s →
  relation_recorded_with relation
    (recordedValue store subjects (relation_getEntityValue relation e)) s →
  relation_recorded_with relation
    (recordedValue store subjects (relation_getEntityValue relation e))
    (subjectStep store subjects e s step).
Proof.
  intros (_ & Hw & _) (m & Hm & Hrel & Hval).
  destruct (subjectStep_cases s step)
    as [-> | [(column & _ & ->) | (relation' & base & _ & Hbase & ->)]].
  - by exists m.
  - unfold relation_recorded_with. rewrite recordColumnChange_changeMaps.
    destruct (upsert_keeps_record (is_column_change column)
                (mkChangeMap (Some column) None (column_getEntityValue column e))
                (column_getEntityValue column e) (changeMaps s) m Hm)
      as (m' & Hm' & _ & Hr' & Hv').
    + unfold is_column_change. intros Hfound. exfalso.
      rewrite Forall_forall in Hw.
      pose proof (well_tagged_relation m relation (Hw m Hm) Hrel). congruence.
    + exists m'. split_and!; congruence.
  - assert (changeMaps base = changeMaps s) as Hmaps by (by destruct Hbase as [-> | ->]).
    unfold relation_recorded_with, recordRelation. simpl. rewrite Hmaps.
    destruct (upsert_keeps_record (is_relation_change relation')
                (mkChangeMap None (Some relation')
                   (recordedValue store subjects (relation_getEntityValue relation' e)))
                (recordedValue store subjects (relation_getEntityValue relation' e))
                (changeMaps s) m Hm) as (m' & Hm' & _ & Hr' & Hv').
    + unfold is_relation_change. intros Hfound. congruence.
    + exists m'. split_and!; congruence.
Qed.

(** A step appends to the two diff lists. *)
Lemma subjectStep_appends s step :
  (∃ added, diffColumns (subjectStep store subjects e s step) = diffColumns s ++ added)
  ∧ (∃ added, diffRelations (subjectStep store subjects e s step)
              = diffRelations s ++ added).
Proof.
  destruct (subjectStep_cases s step)
    as [-> | [(column & _ & ->) | (relation & base & _ & [-> | ->] & ->)]].
  - split; exists []; by rewrite app_nil_r.
  - split; [by exists [column]|exists []; by rewrite app_nil_r].
  - split; exists []; by rewrite app_nil_r.
  - split; [exists []; by rewrite app_nil_r|by exists [relation]].
Qed.

Lemma appended_keeps {A} (l0 l : list A) (x : A) (added' : list A) :
  (∃ added, l = l0 ++ added ∧ x ∈ added) →
  ∃ added, l ++ added' = l0 ++ added ∧ x ∈ added.
Proof.
  intros (added & -> & Hx). exists (added ++ added').
  split; [by rewrite app_assoc|]. apply elem_of_app. by left.
Qed.

(** The step of a column without a value, and every other step, leaves the
    entries and the records of the column alone. *)
Lemma subjectStep_skips_column s0 s step column :
  reached s0 s →
  column_getEntityValue column e = VUndefined →
  filter (eq column) (diffColumns (subjectStep store subjects e s step))
  = filter (eq column) (diffColumns s)
  ∧ filter (is_column_change column) (changeMaps (subjectStep store subjects e s step))
    = filter (is_column_change column) (changeMaps s).
Proof.
  intros (_ & Hw & _) Hundefined. destruct step as [column'|relation]; simpl.
  - destruct (decide (column' = column)) as [->|Hne].
    + assert (diffColumn e s column = s) as ->; [|done].
      unfold diffColumn. rewrite Hundefined. by destruct (isSpecialColumn column).
    + destruct (diffColumn_cases e s column') as [-> | ->]; [done|].
      by apply recordColumnChange_other.
  - destruct (subjectStep_cases s (inr relation))
      as [Hsame | [(column' & Hstep & _) | (relation' & base & Hstep & Hbase & Hrec)]];
      simpl in *; [by rewrite Hsame|done|].
    injection Hstep as <-. rewrite Hrec.
    assert (diffColumns base = diffColumns s ∧ changeMaps base = changeMaps s)
      as [Hcols Hmaps] by (by destruct Hbase as [-> | ->]).
    unfold recordRelation. simpl. rewrite Hcols, Hmaps. split; [done|].
    apply upsert_filter_other; unfold is_column_change, is_relation_change; simpl.
    + done.
    + intros m Hm Hrel Hcol. rewrite Forall_forall in Hw.
      pose proof (well_tagged_relation m relation (Hw m Hm) Hrel). congruence.
    + done.
Qed.

(** The step of a relation without a value, and every other step, leaves
    the entries and the records of the relation alone. *)
Lemma subjectStep_skips_relation s0 s step relation :
  reached s0 s →
  relation_getEntityValue relation e = VUndefined →
  filter (eq relation) (diffRelations (subjectStep store subjects e s step))
  = filter (eq relation) (diffRelations s)
  ∧ filter (is_relation_change relation)
           (changeMaps (subjectStep store subjects e s step))
    = filter (is_relation_change relation) (changeMaps s).
Proof.
  intros (_ & Hw & _) Hundefined. destruct step as [column|relation']; simpl.
  - destruct (diffColumn_cases e s column) as [-> | ->]; [done|].
    split; [done|]. rewrite recordColumnChange_changeMaps.
    apply upsert_filter_other; unfold is_column_change, is_relation_change; simpl.
    + done.
    + intros m Hm Hcol Hrel. rewrite Forall_forall in Hw.
      pose proof (well_tagged_relation m relation (Hw m Hm) Hrel). congruence.
    + done.
  - destruct (decide (relation' = relation)) as [->|Hne].
    + unfold relationStep. by rewrite Hundefined.
    + destruct (subjectStep_cases s (inr relation'))
        as [Hsame | [(column' & Hstep & _) | (r & base & Hstep & Hbase & Hrec)]];
        simpl in *; [by rewrite Hsame|done|].
      injection Hstep as <-. rewrite Hrec.
      assert (filter (eq relation) (diffRelations base)
              = filter (eq relation) (diffRelations s)
              ∧ changeMaps base = changeMaps s) as [Hrels Hmaps].
      { destruct Hbase as [-> | ->]; [done|]. split; [|done]. simpl.
        rewrite filter_app, filter_cons_False by congruence.
        by rewrite filter_nil, app_nil_r. }
      unfold recordRelation. simpl. rewrite Hrels, Hmaps. split; [done|].
      apply upsert_filter_other; unfold is_relation_change; simpl.
      * done.
      * intros m Hm Hfound Hrel. congruence.
      * congruence.
Qed.

(** The step of a column that is recorded. *)
Lemma subjectStep_records_column s column :
  columnRecorded e s column = true →
  diffColumns (subjectStep store subjects e s (inl column)) = diffColumns s ++ [column]
  ∧ column_recorded_with column (column_getEntityValue column e)
                         (subjectStep store subjects e s (inl column)).
Proof.
  intros Hrec. simpl. rewrite diffColumn_recorded, Hrec. split; [done|].
  unfold column_recorded_with. rewrite recordColumnChange_changeMaps.
  apply upsert_records; done.
Qed.

(** The step of a relation whose value is provided and, with a snapshot,
    differs from the snapshot's. *)
Lemma subjectStep_records_relation s relation :
  relation_getEntityValue relation e ≠ VUndefined →
  (∀ db, databaseEntity s = Some db →
         areRelatedIdsEqual relation (relation_getEntityValue relation e) db = false) →
  relation_recorded_with relation
    (recordedValue store subjects (relation_getEntityValue relation e))
    (subjectStep store subjects e s (inr relation))
  ∧ diffRelations (subjectStep store subjects e s (inr relation))
    = match databaseEntity s with
      | Some _ => diffRelations s ++ [relation]
      | None => diffRelations s
      end.
Proof.
  intros Hprovided Hchanged. simpl. unfold relationStep.
  assert (is_undefined (relation_getEntityValue relation e) = false) as ->
    by (by destruct (relation_getEntityValue relation e)).
  destruct (databaseEntity s) as [db|] eqn:Hdb.
  - rewrite (Hchanged db eq_refl). split; [|done].
    unfold relation_recorded_with, recordRelation. simpl. apply upsert_records; done.
  - split; [|done].
    unfold relation_recorded_with, recordRelation. simpl. apply upsert_records; done.
Qed.

End Steps.

(** *** The turn of a Subject *)

Lemma subjectTurn_reached store subjects s0 s :
  reached s0 s → reached s0 (subjectTurn store subjects s).
Proof.
  intros Hs. unfold subjectTurn. destruct (entity s) as [e|]; [|done].
  apply foldl_invariant; [|done]. intros a y. apply subjectStep_reached.
Qed.

Lemma reached_refl s : Forall well_tagged (changeMaps s) → reached s s.
Proof. intros Hw. split_and!; [apply identity_kept_refl|done|done|done]. Qed.

Lemma reached_entity s0 s e : entity s0 = Some e → reached s0 s → entity s = Some e.
Proof. intros He ((_ & -> & _) & _). done. Qed.

(** What every step keeps, the turn keeps. *)
Lemma subjectTurn_keeps (Q : Subject → Prop) store subjects s0 e s :
  entity s0 = Some e →
  (∀ s step, reached s0 s → Q s → Q (subjectStep store subjects e s step)) →
  reached s0 s → Q s → Q (subjectTurn store subjects s).
Proof.
  intros He Hstep Hs HQ. unfold subjectTurn.
  rewrite (reached_entity s0 s e He Hs).
  apply (foldl_invariant (subjectStep store subjects e) (λ s, reached s0 s ∧ Q s));
    [|done].
  intros a y [Ha HQa]. split; [by apply subjectStep_reached|by apply Hstep].
Qed.

(** What one step of the turn establishes and every step keeps holds after
    the turn. *)
Lemma subjectTurn_establishes (Q : Subject → Prop) store subjects s0 e s step :
  entity s0 = Some e →
  step ∈ turnSteps (metadata s0) →
  (∀ s, reached s0 s → Q (subjectStep store subjects e s step)) →
  (∀ s y, reached s0 s → Q s → Q (subjectStep store subjects e s y)) →
  reached s0 s → Q (subjectTurn store subjects s).
Proof.
  intros He Hin Hest Hkeep Hs. unfold subjectTurn.
  rewrite (reached_entity s0 s e He Hs).
  destruct Hs as ((Hmd & Hrest) & Hs'). rewrite Hmd.
  apply (foldl_establish (subjectStep store subjects e) (reached s0) Q step); try done.
  intros a y. apply subjectStep_reached.
Qed.

Lemma column_step_of_turn md column :
  column ∈ columns md → inl column ∈ turnSteps md.
Proof.
  intros Hin. unfold turnSteps. apply elem_of_app. left.
  apply list_elem_of_fmap. eauto.
Qed.

Lemma relation_step_of_turn md relation :
  relation ∈ relationsWithJoinColumns md → inr relation ∈ turnSteps md.
Proof.
  intros Hin. unfold turnSteps. apply elem_of_app. right.
  apply list_elem_of_fmap. eauto.
Qed.


(** The record of a relation that the turn writes. *)
Lemma subjectTurn_records_relation store subjects s0 e s relation :
  entity s0 = Some e →
  relation ∈ relationsWithJoinColumns (metadata s0) →
  relation_getEntityValue relation e ≠ VUndefined →
  (∀ db, databaseEntity s0 = Some db →
         areRelatedIdsEqual relation (relation_getEntityValue relation e) db = false) →
  reached s0 s →
  relation_recorded_with relation
    (recordedValue store subjects (relation_getEntityValue relation e))
    (subjectTurn store subjects s)
  ∧ (is_Some (databaseEntity s0) →
     ∃ added, diffRelations (subjectTurn store subjects s) = diffRelations s0 ++ added
              ∧ relation ∈ added).
Proof.
  intros He Hin Hprovided Hchanged Hs.
  apply (subjectTurn_establishes
           (λ s, relation_recorded_with relation
                   (recordedValue store subjects (relation_getEntityValue relation e)) s
                 ∧ (is_Some (databaseEntity s0) →
                    ∃ added, diffRelations s = diffRelations s0 ++ added
                             ∧ relation ∈ added))
           store subjects s0 e s (inr relation)); try done.
  - by apply relation_step_of_turn.
  - intros a Ha.
    assert (databaseEntity a = databaseEntity s0) as Hdb by (by destruct Ha as ((_ & _ & -> & _) & _)).
    destruct (subjectStep_records_relation store subjects e a relation Hprovided)
      as [Hrecord Hdiff]; [by rewrite Hdb|].
    split; [done|]. intros [db Hsnapshot].
    rewrite Hdiff, Hdb, Hsnapshot.
    destruct Ha as (_ & _ & _ & [added ->]).
    exists (added ++ [relation]). split; [by rewrite app_assoc|].
    apply elem_of_app. right. by apply list_elem_of_singleton.
  - intros a y Ha [Hrecord Hdiff]. split.
    + by eapply subjectStep_keeps_relation.
    + intros Hsnapshot.
      destruct (subjectStep_appends store subjects e a y) as [_ [added' ->]].
      apply appended_keeps. by apply Hdiff.
Qed.

(** The record and the diff entry of a column that the turn writes. *)
Lemma subjectTurn_records_column store subjects s0 e s column :
  entity s0 = Some e →
  column ∈ columns (metadata s0) →
  columnRecorded e s0 column = true →
  reached s0 s →
  (∃ added, diffColumns (subjectTurn store subjects s) = diffColumns s0 ++ added
            ∧ column ∈ added)
  ∧ column_recorded_with column (column_getEntityValue column e)
                         (subjectTurn store subjects s).
Proof.
  intros He Hin Hrec Hs.
  apply (subjectTurn_establishes
           (λ s, (∃ added, diffColumns s = diffColumns s0 ++ added ∧ column ∈ added)
                 ∧ column_recorded_with column (column_getEntityValue column e) s)
           store subjects s0 e s (inl column)); try done.
  - by apply column_step_of_turn.
  - intros a Ha.
    assert (columnRecorded e a column = true) as Hrec'.
    { rewrite <- Hrec. apply columnRecorded_snapshot.
      by destruct Ha as ((_ & _ & -> & _) & _). }
    destruct (subjectStep_records_column store subjects e a column Hrec')
      as [Hdiff Hrecord].
    split; [|done]. rewrite Hdiff.
    destruct Ha as (_ & _ & [added ->] & _).
    exists (added ++ [column]). split; [by rewrite app_assoc|].
    apply elem_of_app. right. by apply list_elem_of_singleton.
  - intros a y Ha [Hdiff Hrecord]. split.
    + destruct (subjectStep_appends store subjects e a y) as [[added' ->] _].
      by apply appended_keeps.
    + by eapply subjectStep_keeps_column.
Qed.




(** *** The claims *)

(** C4: for a Subject whose change records are tagged with exactly one of
    a column or a relation, compute skips every column and every owning
    relation whose entity-side value is undefined: the diff list holds the
    entries of it that it held before and the change records of it are those
    held before; and when the Subject is in the batch and has no stored
    snapshot, every considered column and every owning relation whose value
    is provided, explicit null included, is recorded as changed: the column
    is appended to diffColumns and a change record carries its value, and a
    change record of the relation carries the related value (or the Subject
    of the batch that is to insert it). *)
Theorem undefined_skipped_provided_recorded (subjects : list handle)
    (store : gmap handle Subject) (h : handle) (subject : Subject) (e : ref) :
  store !! h = Some subject →
  entity subject = Some e →
  Forall well_tagged (changeMaps subject) →
  ∃ subject',
    compute subjects store !! h = Some subject'
    ∧ (∀ column,
         column_getEntityValue column e = VUndefined →
         filter (eq column) (diffColumns subject')
         = filter (eq column) (diffColumns subject)
         ∧ filter (is_column_change column) (changeMaps subject')
           = filter (is_column_change column) (changeMaps subject))
    ∧ (∀ relation,
         relation_getEntityValue relation e = VUndefined →
         filter (eq relation) (diffRelations subject')
         = filter (eq relation) (diffRelations subject)
         ∧ filter (is_relation_change relation) (changeMaps subject')
           = filter (is_relation_change relation) (changeMaps subject))
    ∧ (h ∈ subjects →
       databaseEntity subject = None →
       (∀ column,
          column ∈ columns (metadata subject) →
          isSpecialColumn column = false →
          column_getEntityValue column e ≠ VUndefined →
          (∃ added, diffColumns subject' = diffColumns subject ++ added
                    ∧ column ∈ added)
          ∧ ∃ m, m ∈ changeMaps subject'
                 ∧ cm_column m = Some column
                 ∧ cm_value m = column_getEntityValue column e)
       ∧ (∀ relation,
            relation ∈ relationsWithJoinColumns (metadata subject) →
            relation_getEntityValue relation e ≠ VUndefined →
            ∃ m, m ∈ changeMaps subject'
                 ∧ cm_relation m = Some relation
                 ∧ cm_value m
                   = recordedValue store subjects (relation_getEntityValue relation e))).
Proof.
  intros Hs He Hw.
  set (skipped := λ s : Subject,
         (∀ column,
            column_getEntityValue column e = VUndefined →
            filter (eq column) (diffColumns s) = filter (eq column) (diffColumns subject)
            ∧ filter (is_column_change column) (changeMaps s)
              = filter (is_column_change column) (changeMaps subject))
         ∧ (∀ relation,
              relation_getEntityValue relation e = VUndefined →
              filter (eq relation) (diffRelations s)
              = filter (eq relation) (diffRelations subject)
              ∧ filter (is_relation_change relation) (changeMaps s)
                = filter (is_relation_change relation) (changeMaps subject))).
  set (recorded := λ s : Subject,
         (∀ column,
            column ∈ columns (metadata subject) →
            isSpecialColumn column = false →
            column_getEntityValue column e ≠ VUndefined →
            (∃ added, diffColumns s = diffColumns subject ++ added ∧ column ∈ added)
            ∧ column_recorded_with column (column_getEntityValue column e) s)
         ∧ (∀ relation,
              relation ∈ relationsWithJoinColumns (metadata subject) →
              relation_getEntityValue relation e ≠ VUndefined →
              relation_recorded_with relation
                (recordedValue store subjects (relation_getEntityValue relation e)) s)).
  destruct (compute_on_subject (λ s, reached subject s ∧ skipped s)
              (λ s, databaseEntity subject = None → recorded s)
              subjects store h subject) as (subject' & Hlookup & [_ Hskipped] & Hrecorded).
  - intros s [Hreached Hskip]. split; [by apply subjectTurn_reached|].
    apply (subjectTurn_keeps skipped store subjects subject e s He); [|done|done].
    intros a step Ha [Hcolumns Hrelations]. split.
    + intros column Hundefined.
      destruct (subjectStep_skips_column store subjects e subject a step column Ha
                  Hundefined) as [-> ->].
      by apply Hcolumns.
    + intros relation Hundefined.
      destruct (subjectStep_skips_relation store subjects e subject a step relation Ha
                  Hundefined) as [-> ->].
      by apply Hrelations.
  - intros s [Hreached _] Hkept Hdb. specialize (Hkept Hdb).
    apply (subjectTurn_keeps recorded store subjects subject e s He); [|done|done].
    intros a step Ha [Hcolumns Hrelations]. split.
    + intros column Hin Hordinary Hprovided.
      destruct (Hcolumns column Hin Hordinary Hprovided) as [Hdiff Hrecord]. split.
      * destruct (subjectStep_appends store subjects e a step) as [[added' ->] _].
        by apply appended_keeps.
      * by eapply subjectStep_keeps_column.
    + intros relation Hin Hprovided.
      eapply subjectStep_keeps_relation; [done|]. by apply Hrelations.
  - done.
  - split; [by apply reached_refl|]. by split.
  - exists subject'. destruct Hskipped as [Hcolumns Hrelations].
    split_and!; [done|done|done|].
    intros Hin Hdb.
    assert (recorded subject') as [Hcols Hrels]; [|by split].
    apply Hrecorded; [|done|done].
    intros s [Hreached _] _. split.
    + intros column Hcolumn Hordinary Hprovided.
      apply (subjectTurn_records_column store subjects subject e s column); try done.
      unfold columnRecorded, columnUnchanged. rewrite Hordinary, Hdb.
      by destruct (column_getEntityValue column e).
    + intros relation Hrelation Hprovided.
      apply (subjectTurn_records_relation store subjects subject e s relation);
        try done.
      intros db. by rewrite Hdb.
Qed.

(** C6: when compute records a change of a relation of a Subject of the
    batch and the related value is, by identity, the entity of a Subject of
    the batch that must be inserted, then after compute a change record of
    the relation carries a Subject of the batch with that property, not the
    related entity: the first such Subject of the batch, hence that very
    sibling when no other Subject of the batch shares its entity. *)
Theorem pending_sibling_recorded (subjects : list handle) (store : gmap handle Subject)
    (h : handle) (subject : Subject) (e : ref) (relation : RelationMetadata)
    (sibling : handle) (siblingSubject : Subject) :
  h ∈ subjects →
  store !! h = Some subject →
  entity subject = Some e →
  Forall well_tagged (changeMaps subject) →
  relation ∈ relationsWithJoinColumns (metadata subject) →
  relation_getEntityValue relation e ≠ VUndefined →
  (∀ db, databaseEntity subject = Some db →
         areRelatedIdsEqual relation (relation_getEntityValue relation e) db = false) →
  sibling ∈ subjects →
  store !! sibling = Some siblingSubject →
  mustBeInserted siblingSubject = true →
  entity_value siblingSubject = relation_getEntityValue relation e →
  ∃ subject' m valueSubject found,
    compute subjects store !! h = Some subject'
    ∧ m ∈ changeMaps subject'
    ∧ cm_relation m = Some relation
    ∧ cm_value m = VSubject valueSubject
    ∧ cm_value m ≠ relation_getEntityValue relation e
    ∧ valueSubject ∈ subjects
    ∧ store !! valueSubject = Some found
    ∧ mustBeInserted found = true
    ∧ entity_value found = relation_getEntityValue relation e
    ∧ ((∀ other otherSubject,
          other ∈ subjects → store !! other = Some otherSubject →
          mustBeInserted otherSubject = true →
          entity_value otherSubject = relation_getEntityValue relation e →
          other = sibling) →
       valueSubject = sibling).
Proof.
  intros Hin Hs He Hw Hrelation Hprovided Hchanged Hsibling Hsib Hins Hent.
  set (relatedEntity := relation_getEntityValue relation e) in *.
  assert (∃ valueSubject, findValueSubject store subjects relatedEntity
                          = Some valueSubject) as [valueSubject Hfind].
  { unfold findValueSubject.
    destruct (find _ subjects) as [x|] eqn:Hf; [by eauto|].
    apply list_elem_of_In in Hsibling.
    pose proof (find_none _ _ Hf sibling Hsibling) as Hfalse.
    unfold isInsertedSubjectOf, strict_eq in Hfalse.
    rewrite Hsib, Hins, Hent, bool_decide_eq_true_2 in Hfalse; done. }
  pose proof Hfind as Hfound. unfold findValueSubject in Hfound.
  apply find_some in Hfound as [Hvin Hvp]. apply list_elem_of_In in Hvin.
  unfold isInsertedSubjectOf in Hvp.
  destruct (store !! valueSubject) as [found|] eqn:Hvs; [|done].
  apply andb_prop in Hvp as [Hvm Hve]. apply bool_decide_eq_true_1 in Hve.
  destruct (compute_on_subject (reached subject)
              (relation_recorded_with relation
                 (recordedValue store subjects relatedEntity))
              subjects store h subject) as (subject' & Hlookup & _ & Hrecorded).
  - intros s. apply subjectTurn_reached.
  - intros s Hreached.
    apply (subjectTurn_keeps _ store subjects subject e s He); [|done].
    intros a step Ha. by apply subjectStep_keeps_relation with (s0 := subject).
  - done.
  - by apply reached_refl.
  - destruct Hrecorded as (m & Hm & Hrel & Hval); [|done|].
    { intros s Hreached.
      by apply (subjectTurn_records_relation store subjects subject e s relation). }
    unfold recordedValue in Hval. rewrite Hfind in Hval.
    exists subject', m, valueSubject, found.
    split_and!; try done.
    + rewrite Hval, <- Hent. unfold entity_value. by destruct (entity siblingSubject).
    + intros Honly. by eapply Honly.
Qed.


End ComputeClaims.

(** ** The claims about the batch on the example heap *)

Section ComputeExamples.
Import Fixture.
#[local] Existing Instance world.

Lemma undefined_skipped_provided_recorded_witness :
  ∃ subject',
    compute [0] {[0 := freshNullPost]} !! 0 = Some subject'
    ∧ (filter (eq labelsColumn) (diffColumns subject') = []
       ∧ filter (is_column_change labelsColumn) (changeMaps subject') = [])
    ∧ (filter (eq ownerRelation) (diffRelations subject') = []
       ∧ filter (is_relation_change ownerRelation) (changeMaps subject') = [])
    ∧ ((∃ added, diffColumns subject' = added ∧ titleColumn ∈ added)
       ∧ ∃ m, m ∈ changeMaps subject'
              ∧ cm_column m = Some titleColumn ∧ cm_value m = VNull)
    ∧ ∃ m, m ∈ changeMaps subject'
           ∧ cm_relation m = Some tagRelation ∧ cm_value m = VNull.
Proof.
  destruct (undefined_skipped_provided_recorded [0] {[0 := freshNullPost]} 0
              freshNullPost 10) as (subject' & Hlookup & Hcolumns & Hrelations & Hrecorded);
    [reflexivity|reflexivity|constructor|].
  exists subject'. split; [exact Hlookup|].
  split; [exact (Hcolumns labelsColumn eq_refl)|].
  split; [exact (Hrelations ownerRelation eq_refl)|].
  destruct Hrecorded as [Hcols Hrels]; [apply list_elem_of_here|reflexivity|].
  split.
  - apply (Hcols titleColumn); [|reflexivity|vm_compute; discriminate].
    apply list_elem_of_further, list_elem_of_here.
  - apply (Hrels tagRelation); [apply list_elem_of_here|vm_compute; discriminate].
Defined.

Lemma pending_sibling_recorded_witness :
  ∃ subject' m valueSubject found,
    compute [0; 1] (<[1 := freshTag]> {[0 := freshPostWithTag]}) !! 0 = Some subject'
    ∧ m ∈ changeMaps subject'
    ∧ cm_relation m = Some tagRelation
    ∧ cm_value m = VSubject valueSubject
    ∧ cm_value m ≠ VObj 3
    ∧ valueSubject ∈ [0; 1]
    ∧ (<[1 := freshTag]> {[0 := freshPostWithTag]} : gmap handle Subject) !! valueSubject
      = Some found
    ∧ mustBeInserted found = true
    ∧ entity_value found = VObj 3
    ∧ ((∀ other otherSubject,
          other ∈ [0; 1] →
          (<[1 := freshTag]> {[0 := freshPostWithTag]} : gmap handle Subject) !! other
          = Some otherSubject →
          mustBeInserted otherSubject = true →
          entity_value otherSubject = VObj 3 →
          other = 1) →
       valueSubject = 1).
Proof.
  change (VObj 3) with (relation_getEntityValue tagRelation 2).
  apply (pending_sibling_recorded [0; 1] (<[1 := freshTag]> {[0 := freshPostWithTag]})
           0 freshPostWithTag 2 tagRelation 1 freshTag).
  - apply list_elem_of_here.
  - reflexivity.
  - reflexivity.
  - constructor.
  - apply list_elem_of_here.
  - vm_compute. discriminate.
  - intros db Hdb. vm_compute in Hdb. discriminate.
  - apply list_elem_of_further, list_elem_of_here.
  - reflexivity.
  - reflexivity.
  - reflexivity.
Defined.



End ComputeExamples.

(** * Further properties of [DeleteQueryBuilder.execute] *)

Section DeleteExecutionOutcome.
Import DeleteQueryBuilder.

Ltac by_cases expressionMap env :=
  let ans := fresh "ans" in
  let rawv := fresh "rawv" in
  destruct expressionMap as [[] [] []], env as [ans rawv];
  vm_compute;
  repeat match goal with
         | |- context [ans ?c] =>
             let E := fresh "E" in destruct (ans c) as [|?|] eqn:E
         end.

Ltac no_member :=
  repeat match goal with
         | H : list_elem_of _ _ |- _ => inversion H; clear H; subst
         | H : _ ∈ _ |- _ => inversion H; clear H; subst
         end.

(** A call other than the release that is never settled, against the
    assumption that there is none. *)
Ltac settled_by Hsettled :=
  exfalso;
  match goal with
  | E : _ ?c = NeverSettles |- _ => exact (Hsettled c ltac:(discriminate) E)
  end.

(** X6: a query runner the call created itself is released at most once,
    and as the last call; it is released exactly once, whether the statement
    succeeded or any step was rejected, when every call before the release
    is settled; a query runner supplied by the caller is never released. *)
Theorem own_runner_released_last (expressionMap : ExpressionMap)
    (ownQueryRunner : bool) (env : Environment) (active : bool) :
  let r := run expressionMap ownQueryRunner env active in
  (ownQueryRunner = true →
     length (filter (eq Release) (issued r)) ≤ 1
     ∧ (Release ∈ issued r → last (issued r) = Some Release)
     ∧ ((∀ c, c ≠ Release → answer env c ≠ NeverSettles) →
        last (issued r) = Some Release
        ∧ length (filter (eq Release) (issued r)) = 1))
  ∧ (ownQueryRunner = false → Release ∉ issued r).
Proof.
  intros r. subst r.
  destruct ownQueryRunner, active; by_cases expressionMap env;
    (split;
     [ intros Hown; try discriminate Hown;
       (split_and!;
        [ vm_compute; lia
        | intros Hin; first [reflexivity | no_member]
        | intros Hsettled; first [split; reflexivity | settled_by Hsettled] ])
     | intros Hown; try discriminate Hown; intros Hin; no_member ]).
Qed.

(** X7: the statement is sent at most once, and only after the start of
    the transaction (when the call starts one) and the before-remove
    broadcast (when listeners are called) were fulfilled; the after-remove
    broadcast is awaited only after the statement was fulfilled. *)
Theorem statement_only_after_acceptance (expressionMap : ExpressionMap)
    (ownQueryRunner : bool) (env : Environment) (active : bool) :
  let r := run expressionMap ownQueryRunner env active in
  (Query ∈ issued r →
     (useTransaction expressionMap && negb active = true →
      answer env StartTransaction = Resolves)
     ∧ (listenersCalled expressionMap = true →
        answer env BroadcastBeforeRemoveEvent = Resolves))
  ∧ (BroadcastAfterRemoveEvent ∈ issued r → answer env Query = Resolves)
  ∧ length (filter (eq Query) (issued r)) ≤ 1.
Proof.
  intros r. subst r.
  destruct ownQueryRunner, active; by_cases expressionMap env;
    (split_and!;
     [ intros Hin; split; intros Hc; first [discriminate Hc | reflexivity | no_member]
     | intros Hin; first [reflexivity | no_member]
     | vm_compute; lia ]).
Qed.

(** X8: when every call before the release is settled and the rollback is
    not rejected, the query runner's transaction flag after the call is what
    it was before it, on success and on every failure; when a step of an
    owned transaction and the rollback are both rejected, the transaction is
    left open. *)
Theorem transaction_flag_after_execute (expressionMap : ExpressionMap)
    (ownQueryRunner : bool) (env : Environment) (active : bool) :
  let r := run expressionMap ownQueryRunner env active in
  ((∀ c, c ≠ Release → answer env c ≠ NeverSettles) →
   (∀ e, answer env RollbackTransaction ≠ Rejects e) →
   isTransactionActive r.2 = active)
  ∧ (useTransaction expressionMap = true → active = false →
     answer env StartTransaction = Resolves →
     is_Some (firstRejection env (stepsBeforeCommit expressionMap ++ [CommitTransaction])) →
     (∃ e, answer env RollbackTransaction = Rejects e) →
     isTransactionActive r.2 = true).
Proof.
  intros r. subst r.
  destruct ownQueryRunner, active; by_cases expressionMap env;
    (split;
     [ intros Hsettled Hrb;
       first [ reflexivity
             | settled_by Hsettled
             | exfalso; eapply Hrb; first [eassumption | reflexivity] ]
     | intros Huse Hact Hstart [x Hfirst] [y Hrb];
       first [discriminate | reflexivity] ]).
Qed.

(** X9: when every call is fulfilled, execute returns the raw result of
    the statement, and the calls are, in this order, the start (if the call
    starts a transaction), the before-remove broadcast (if listeners are
    called), the statement, the after-remove broadcast (if listeners are
    called), the commit (if the call started the transaction) and the release
    (if the call created the query runner). *)
Theorem successful_execute (expressionMap : ExpressionMap)
    (ownQueryRunner : bool) (env : Environment) (active : bool) :
  (∀ c, answer env c = Resolves) →
  let r := run expressionMap ownQueryRunner env active in
  let owned := useTransaction expressionMap && negb active in
  outcome r = Normal (mkDeleteResult (rawResult env))
  ∧ issued r
    = (if owned then [StartTransaction] else [])
      ++ stepsBeforeCommit expressionMap
      ++ (if owned then [CommitTransaction] else [])
      ++ (if ownQueryRunner then [Release] else []).
Proof.
  intros Hall r owned. subst r owned.
  destruct expressionMap as [[] [] []], env as [ans rawv], ownQueryRunner, active;
    simpl in Hall; vm_compute; rewrite ?Hall; split; reflexivity.
Qed.

End DeleteExecutionOutcome.

(** * Properties of [OracleQueryRunner] *)

Section OracleTransactions.
Import OracleQueryRunner.

Lemma connect_flags driver r :
  isReleased (connect driver r).2 = isReleased r
  ∧ isTransactionActive (connect driver r).2 = isTransactionActive r
  ∧ executed (connect driver r).2 = executed r
  ∧ mode (connect driver r).2 = mode r.
Proof.
  unfold connect. destruct (databaseConnection r); [done|].
  destruct (databaseConnectionPromise r) as [[?|]|]; [done|done|].
  by destruct (match mode r with master => _ | slave => _ end).
Qed.

(** What a statement does to a runner that is not released. *)
Lemma query_unreleased driver sql parameters r :
  isReleased r = false →
  let r' := (query driver sql parameters r).2 in
  isReleased r' = false
  ∧ isTransactionActive r' = isTransactionActive r
  ∧ (executed r' = executed r
     ∨ executed r' = executed r ++ [(sql, parameters, negb (isTransactionActive r))]).
Proof.
  intros Hrel. unfold query. rewrite Hrel.
  destruct (connect_flags driver r) as (Hr & Ht & He & _).
  destruct (connect driver r) as [[[]| |] r1]; simpl in *.
  - destruct (execute driver sql); simpl; (split; [congruence|]); (split; [done|]);
      right; rewrite He; by destruct (isTransactionActive r).
  - split; [congruence|]. split; [done|]. by left.
  - split; [congruence|]. split; [done|]. by left.
Qed.

(** X10: on a runner that is not released, has no transaction and can
    connect, starting a transaction and then committing it (or rolling it
    back) with a statement the connection accepts resolves both calls,
    leaves the runner without a transaction again, and sends exactly that one
    statement, with autoCommit off. *)
Theorem transaction_round_trip (driver : Driver) (r : Runner) (statement : string)
    (rows : jsval) :
  isReleased r = false →
  isTransactionActive r = false →
  (connect driver r).1 = Resolved tt →
  execute driver statement = inr rows →
  let started := startTransaction r in
  let ended := endTransaction statement driver started.2 in
  started.1 = Resolved tt
  ∧ isTransactionActive started.2 = true
  ∧ ended.1 = Resolved tt
  ∧ isTransactionActive ended.2 = false
  ∧ isReleased ended.2 = false
  ∧ executed ended.2 = executed r ++ [(statement, None, false)].
Proof.
  destruct r as [m rel act dc pr ex]. simpl. intros -> -> Hconn Hexec.
  unfold startTransaction, endTransaction, query, connect in *. simpl in *.
  destruct dc; simpl in *.
  - rewrite Hexec. by split_and!.
  - destruct pr as [[?|]|]; simpl in *; [done| |].
    + rewrite Hexec. by split_and!.
    + destruct (match m with master => _ | slave => _ end); simpl in *; [done|].
      rewrite Hexec. by split_and!.
Qed.

Ltac connect_cases :=
  repeat match goal with
         | |- context [match ?x with _ => _ end] =>
             match type of x with
             | bool => destruct x eqn:?
             | option _ => destruct x eqn:?
             | sum _ _ => destruct x eqn:?
             | Mode => destruct x eqn:?
             end; simpl in *
         end.

(** Inside a transaction, its end is never refused for want of one. *)
Lemma endTransaction_admitted statement driver r :
  isTransactionActive r = true →
  (endTransaction statement driver r).1 ≠ Rejected TransactionNotStartedError.
Proof.
  destruct r as [m rel act dc pr ex]. simpl. intros ->.
  unfold endTransaction, query, connect. simpl. connect_cases; done.
Qed.

(** X11: a commit or rollback that does not resolve, for whatever reason
    (the runner is released, no connection, the statement is refused), leaves
    the transaction active; a later rollback is therefore never rejected for
    want of a transaction. *)
Theorem failed_end_keeps_transaction (driver driver' : Driver) (r : Runner)
    (statement : string) :
  isTransactionActive r = true →
  (endTransaction statement driver r).1 ≠ Resolved tt →
  isTransactionActive (endTransaction statement driver r).2 = true
  ∧ (rollbackTransaction driver' (endTransaction statement driver r).2).1
    ≠ Rejected TransactionNotStartedError.
Proof.
  intros Hact Hfail.
  assert (isTransactionActive (endTransaction statement driver r).2 = true) as Hkept.
  { revert Hact Hfail. destruct r as [m rel act dc pr ex]. simpl. intros ->.
    unfold endTransaction, query, connect. simpl. connect_cases; done. }
  split; [done|]. by apply endTransaction_admitted.
Qed.

(** X12: the first attempt to connect is the only one: once it has
    failed, every later statement is rejected with the same error and nothing
    is sent, even when the driver could connect by then. *)
Theorem failed_connection_is_kept (driver driver' : Driver) (r : Runner)
    (sql sql' : string) (parameters parameters' : option (list jsval)) (e : DriverError) :
  isReleased r = false →
  (query driver sql parameters r).1 = Rejected (DriverFailure e) →
  query driver' sql' parameters' (query driver sql parameters r).2
  = (Rejected (DriverFailure e), (query driver sql parameters r).2).
Proof.
  destruct r as [m rel act dc pr ex]. simpl. intros ->.
  unfold query, connect. simpl. connect_cases; intros Hq; try done;
    by injection Hq as ->.
Qed.

(** X13: release marks the runner released whatever the connection
    answers, and it does not end a transaction that is active: afterwards
    every statement, start, commit and rollback is rejected with
    QueryRunnerAlreadyReleasedError, nothing is sent, and the transaction
    stays active. *)
Theorem release_with_open_transaction (driver driver' : Driver) (r : Runner)
    (sql : string) (parameters : option (list jsval)) :
  let r' := (release driver r).2 in
  isReleased r' = true
  ∧ isTransactionActive r' = isTransactionActive r
  ∧ query driver' sql parameters r' = (Rejected QueryRunnerAlreadyReleasedError, r')
  ∧ startTransaction r' = (Rejected QueryRunnerAlreadyReleasedError, r')
  ∧ (isTransactionActive r = true →
     commitTransaction driver' r' = (Rejected QueryRunnerAlreadyReleasedError, r')
     ∧ rollbackTransaction driver' r' = (Rejected QueryRunnerAlreadyReleasedError, r')).
Proof.
  destruct r as [m rel act dc pr ex].
  unfold release, commitTransaction, rollbackTransaction, endTransaction, query,
    startTransaction. simpl.
  destruct dc; simpl; [destruct (close driver); simpl|];
    (split_and!; try done; by intros ->).
Qed.

(** X14: release settles exactly when the runner holds a connection: on a
    runner that never connected (a new one, or one whose connection failed)
    the promise of release stays pending for ever, although the runner is
    marked released. *)
Theorem release_settles_iff_connected (driver : Driver) (r : Runner) (m : Mode) :
  ((release driver r).1 = Pending ↔ databaseConnection r = false)
  ∧ isReleased (release driver r).2 = true
  ∧ (release driver (newRunner m)).1 = Pending.
Proof.
  destruct r as [m' rel act dc pr ex]. unfold release. simpl.
  destruct dc; simpl; [destruct (close driver); simpl|]; by split_and!.
Qed.

Lemma call_released driver c r :
  isReleased r = true →
  isReleased (call driver c r) = true ∧ executed (call driver c r) = executed r.
Proof.
  destruct r as [m rel act dc pr ex]. simpl. intros ->.
  destruct c; unfold call, commitTransaction, rollbackTransaction, endTransaction,
    query, startTransaction, release; simpl; connect_cases; done.
Qed.

Lemma call_executed driver c r :
  ∃ sent, executed (call driver c r) = executed r ++ sent.
Proof.
  destruct r as [m rel act dc pr ex].
  destruct c; unfold call, commitTransaction, rollbackTransaction, endTransaction,
    query, connect, startTransaction, release; simpl; connect_cases;
    first [by exists []; rewrite app_nil_r | by eexists].
Qed.

(** X15: over any sequence of calls, each answered by any driver, the
    statements handed to the connection are only ever added to, and none is
    added once the runner is released; a released runner stays released. *)
Theorem nothing_sent_after_release (before after : list (Driver * Call)) (r : Runner) :
  (∃ sent, executed (calls before r) = executed r ++ sent)
  ∧ (isReleased (calls before r) = true →
     isReleased (calls after (calls before r)) = true
     ∧ executed (calls after (calls before r)) = executed (calls before r)).
Proof.
  split.
  - revert r. induction before as [|[d c] l IH]; intros r; simpl.
    + exists []. by rewrite app_nil_r.
    + destruct (call_executed d c r) as [s1 Hs1].
      destruct (IH (call d c r)) as [s2 Hs2].
      exists (s1 ++ s2). unfold calls in *. by rewrite Hs2, Hs1, app_assoc.
  - generalize (calls before r). clear. intros r.
    revert r. induction after as [|[d c] l IH]; intros r Hrel; simpl; [done|].
    destruct (call_released d c r Hrel) as [Hrel' Hex'].
    destruct (IH _ Hrel') as [Hrel'' Hex'']. unfold calls in *.
    split; [done|]. by rewrite Hex'', Hex'.
Qed.

Lemma transaction_round_trip_witness :
  let started := startTransaction (newRunner master) in
  let ended := endTransaction "COMMIT" healthyDriver started.2 in
  started.1 = Resolved tt
  ∧ isTransactionActive started.2 = true
  ∧ ended.1 = Resolved tt
  ∧ isTransactionActive ended.2 = false
  ∧ isReleased ended.2 = false
  ∧ executed ended.2 = [("COMMIT", None, false)].
Proof.
  apply (transaction_round_trip healthyDriver (newRunner master) "COMMIT" VNull);
    reflexivity.
Defined.

Lemma failed_end_keeps_transaction_witness :
  let r := (startTransaction (newRunner master)).2 in
  (commitTransaction commitFailingDriver r).1
  = Rejected (QueryFailedError "COMMIT" None "ORA-02091")
  ∧ isTransactionActive (commitTransaction commitFailingDriver r).2 = true
  ∧ (rollbackTransaction commitFailingDriver (commitTransaction commitFailingDriver r).2).1
    ≠ Rejected TransactionNotStartedError.
Proof.
  split; [reflexivity|].
  apply (failed_end_keeps_transaction commitFailingDriver commitFailingDriver
           (startTransaction (newRunner master)).2 "COMMIT"); [reflexivity|].
  vm_compute. discriminate.
Defined.

Lemma failed_connection_is_kept_witness :
  let r := (query unreachableDriver "SELECT 1" None (newRunner master)).2 in
  query healthyDriver "SELECT 2" None r = (Rejected (DriverFailure "ORA-12541"), r).
Proof.
  apply (failed_connection_is_kept unreachableDriver healthyDriver (newRunner master)
           "SELECT 1" "SELECT 2" None None "ORA-12541"); reflexivity.
Defined.

End OracleTransactions.

(** * Properties of [BaseQueryRunner] *)

Section TableCache.
Import BaseQueryRunner.
Context (runInSequence :
           list string → (string → Runner → Completion jsval * Runner)
           → Runner → Completion (list jsval) * Runner).
Context (env : Environment).

Lemma find_app_None {A} (f : A → bool) (l1 l2 : list A) :
  find f l1 = None → find f (l1 ++ l2) = find f l2.
Proof.
  induction l1 as [|x l1 IH]; [done|]. simpl. destruct (f x); [done|exact IH].
Qed.

(** X16: a table asked for by name is loaded at most once: when the cache
    holds a table of that name, the first such table is returned and neither
    the cache nor the database is touched; when it holds none and the database
    returns tables, the first of them is returned and appended to the cache,
    and, if it bears the name asked for, the next call for that name returns
    it from the cache. *)
Theorem cached_table_loaded_once (tableName : string) (r : Runner) :
  (∀ table,
     find (λ t, bool_decide (name t = tableName)) (loadedTables r) = Some table →
     getCachedTable env tableName r = (Normal table, r))
  ∧ (∀ table others,
       find (λ t, bool_decide (name t = tableName)) (loadedTables r) = None →
       loadTablesAnswer env [tableName] = inr (table :: others) →
       let r' := (getCachedTable env tableName r).2 in
       (getCachedTable env tableName r).1 = Normal table
       ∧ loadedTables r' = loadedTables r ++ [table]
       ∧ loads r' = loads r ++ [[tableName]]
       ∧ (name table = tableName →
          getCachedTable env tableName r' = (Normal table, r'))).
Proof.
  split.
  - intros table Hfind. unfold getCachedTable. by rewrite Hfind.
  - intros table others Hfind Hload. unfold getCachedTable, loadTables.
    rewrite Hfind, Hload. simpl. split_and!; try done.
    intros Hname. rewrite (find_app_None _ _ _ Hfind). simpl.
    by rewrite bool_decide_eq_true_2.
Qed.

(** X17: a table the database returns under another name than the one
    asked for is never found in the cache by the name asked for: every
    request loads it again and appends it once more. *)
Theorem unmatched_name_loaded_again (tableName : string) (table : Table)
    (others : list Table) (r : Runner) :
  Forall (λ t, name t ≠ tableName) (loadedTables r) →
  loadTablesAnswer env [tableName] = inr (table :: others) →
  name table ≠ tableName →
  let r1 := (getCachedTable env tableName r).2 in
  let r2 := (getCachedTable env tableName r1).2 in
  loadedTables r2 = loadedTables r ++ [table; table]
  ∧ loads r2 = loads r ++ [[tableName]; [tableName]].
Proof.
  intros Hnone Hload Hname. simpl.
  assert (∀ l, Forall (λ t, name t ≠ tableName) l →
               find (λ t, bool_decide (name t = tableName)) l = None) as Hfind.
  { induction 1 as [|t l Ht _ IH]; [done|]. simpl.
    by rewrite bool_decide_eq_false_2. }
  unfold getCachedTable at 2 4, loadTables. rewrite (Hfind _ Hnone), Hload. simpl.
  unfold getCachedTable, loadTables. simpl.
  rewrite Hfind by (apply Forall_app; split; [exact Hnone|by repeat constructor]).
  rewrite Hload. simpl. by rewrite <- !app_assoc.
Qed.

(** X18: asking for a table the cache does not hold and the database does
    not return is an error that names the table; an error of the database is
    passed on; in both cases the cache is left as it is. *)
Theorem missing_table_is_an_error (tableName : string) (r : Runner) :
  find (λ t, bool_decide (name t = tableName)) (loadedTables r) = None →
  (loadTablesAnswer env [tableName] = inr [] →
   (getCachedTable env tableName r).1
   = Throw ("Table " +:+ doubleQuote +:+ tableName +:+ doubleQuote +:+ " does not exist.")
   ∧ loadedTables (getCachedTable env tableName r).2 = loadedTables r)
  ∧ (∀ e, loadTablesAnswer env [tableName] = inl e →
       (getCachedTable env tableName r).1 = Throw e
       ∧ loadedTables (getCachedTable env tableName r).2 = loadedTables r).
Proof.
  intros Hfind. unfold getCachedTable, loadTables. rewrite Hfind.
  split; [intros ->|intros e ->]; done.
Qed.

(** X19: getTable replaces the whole cache by what the database returns
    for the one path: a table cached before under another name is forgotten,
    and the next request for it asks the database again. *)
Theorem getTable_replaces_cache (tablePath other : string) (tables : list Table)
    (r : Runner) :
  loadTablesAnswer env [tablePath] = inr tables →
  (∀ t, t ∈ tables → name t ≠ other) →
  let r' := (getTable env tablePath r).2 in
  (getTable env tablePath r).1 = Normal (head tables)
  ∧ loadedTables r' = tables
  ∧ loads (getCachedTable env other r').2 = loads r ++ [[tablePath]; [other]].
Proof.
  intros Hload Hother. unfold getTable, loadTables. rewrite Hload. simpl.
  split_and!; try done.
  unfold getCachedTable, loadTables. simpl.
  assert (find (λ t, bool_decide (name t = other)) tables = None) as ->.
  { clear Hload. induction tables as [|t l IH]; [done|]. simpl.
    rewrite bool_decide_eq_false_2 by (apply Hother; apply list_elem_of_here).
    apply IH. intros t' Ht'. apply Hother. by apply list_elem_of_further. }
  destruct (loadTablesAnswer env [other]) as [e|[|t l]]; simpl;
    by rewrite <- app_assoc.
Qed.

(** X20: replaceCachedTable does nothing when the cache holds no table of
    the given table's name; otherwise it overwrites the first such table in
    place: the cache keeps its length, the entries that are this object keep
    their identity and take the name and the parts of the changed table, and
    every other entry stays as it is.  Neither the memory nor the database is
    touched. *)
Theorem replaceCachedTable_in_place (table changedTable : Table) (r : Runner) :
  let r' := replaceCachedTable table changedTable r in
  (Forall (λ t, name t ≠ name table) (loadedTables r) → r' = r)
  ∧ length (loadedTables r') = length (loadedTables r)
  ∧ (∀ foundTable,
       find (λ t, bool_decide (name t = name table)) (loadedTables r) = Some foundTable →
       ∀ i t, loadedTables r !! i = Some t →
         (tableId t = tableId foundTable →
          loadedTables r' !! i = Some (overwrite foundTable changedTable))
         ∧ (tableId t ≠ tableId foundTable → loadedTables r' !! i = Some t))
  ∧ tableId <$> loadedTables r' = tableId <$> loadedTables r
  ∧ getMemorySql r' = getMemorySql r
  ∧ sqlMemoryMode r' = sqlMemoryMode r
  ∧ sent r' = sent r
  ∧ loads r' = loads r.
Proof.
  simpl. unfold replaceCachedTable.
  destruct (find _ (loadedTables r)) as [found|] eqn:Hfind; split_and!; try done.
  - intros Hnone. apply find_some in Hfind as [Hin Hname].
    apply bool_decide_eq_true_1 in Hname.
    rewrite Forall_forall in Hnone. apply list_elem_of_In in Hin.
    by apply Hnone in Hin.
  - simpl. by rewrite length_fmap.
  - intros ? [= <-] i t Hi. simpl. rewrite list_lookup_fmap, Hi. simpl.
    split; intros Hid.
    + by rewrite bool_decide_eq_true_2.
    + by rewrite bool_decide_eq_false_2.
  - simpl. rewrite <- list_fmap_compose. apply list_fmap_ext.
    intros i t _. simpl. by destruct (bool_decide _) eqn:Hid;
      [apply bool_decide_eq_true_1 in Hid|].
Qed.

(** X21: after replaceCachedTable has found a table, a request for the
    name of the changed table is answered from the cache with the overwritten
    table, provided no other table of the cache already bears that name. *)
Theorem replaced_table_found_by_new_name (table changedTable foundTable : Table)
    (r : Runner) :
  find (λ t, bool_decide (name t = name table)) (loadedTables r) = Some foundTable →
  (∀ t, t ∈ loadedTables r → name t = name changedTable →
        tableId t = tableId foundTable) →
  let r' := replaceCachedTable table changedTable r in
  getCachedTable env (name changedTable) r'
  = (Normal (overwrite foundTable changedTable), r').
Proof.
  intros Hfind Honly. simpl. unfold replaceCachedTable. rewrite Hfind.
  unfold getCachedTable. simpl.
  apply find_some in Hfind as [Hin _]. apply list_elem_of_In in Hin.
  assert (find (λ t, bool_decide (name t = name changedTable))
            ((λ loadedTable,
                if bool_decide (tableId loadedTable = tableId foundTable)
                then overwrite foundTable changedTable else loadedTable)
               <$> loadedTables r)
          = Some (overwrite foundTable changedTable)) as ->; [|done].
  induction (loadedTables r) as [|t l IH]; [by apply not_elem_of_nil in Hin|].
  rewrite fmap_cons. simpl.
  destruct (decide (tableId t = tableId foundTable)) as [Hid|Hid].
  - rewrite (bool_decide_eq_true_2 _ Hid). simpl.
    by rewrite bool_decide_eq_true_2.
  - rewrite (bool_decide_eq_false_2 _ Hid).
    rewrite bool_decide_eq_false_2.
    + apply IH.
      * apply elem_of_cons in Hin as [->|Hin]; [done|exact Hin].
      * intros t' Ht'. apply Honly. by apply list_elem_of_further.
    + intros Hname. apply Hid, Honly; [apply list_elem_of_here|exact Hname].
Qed.

Lemma executeQueriesEach_cons ups downs calls (r : Runner) :
  executeQueriesEach runInSequence env ((ups, downs) :: calls) r
  = executeQueriesEach runInSequence env calls
      (executeQueries runInSequence env ups downs r).2.
Proof. reflexivity. Qed.

(** X22: in sql-memory mode executeQueries only memorises: over any
    sequence of calls every call resolves, no statement is given to query, and
    the memory grows by the up and the down statements of the calls, in the
    order of the calls. *)
Theorem memory_mode_sends_nothing
    (calls : list ((string + list string) * (string + list string))) (r : Runner) :
  sqlMemoryMode r = true →
  let r' := executeQueriesEach runInSequence env calls r in
  sent r' = sent r
  ∧ sqlMemoryMode r' = true
  ∧ getMemorySql r'
    = (upQueries r ++ concat ((λ call, statements call.1) <$> calls),
       downQueries r ++ concat ((λ call, statements call.2) <$> calls))
  ∧ (∀ ups downs, (executeQueries runInSequence env ups downs r').1 = Normal tt).
Proof.
  simpl. revert r. induction calls as [|[ups downs] calls IH]; intros r Hmode.
  - simpl. unfold getMemorySql, executeQueries. simpl.
    rewrite !app_nil_r, Hmode. done.
  - rewrite executeQueriesEach_cons.
    assert ((executeQueries runInSequence env ups downs r).2
            = setMemory true (upQueries r ++ statements ups)
                        (downQueries r ++ statements downs) r) as ->.
    { unfold executeQueries. simpl. by rewrite Hmode. }
    destruct (IH (setMemory true (upQueries r ++ statements ups)
                            (downQueries r ++ statements downs) r) eq_refl)
      as (Hsent & Hmode' & Hmem & Hres).
    split_and!; try done. rewrite Hmem. simpl. by rewrite <- !app_assoc.
Qed.

(** X23: when runInSequence changes the runner through its callback only,
    executeQueries memorises its statements in every mode: over any sequence of
    calls, also outside sql-memory mode and also when a statement fails, the
    memory grows by the up and the down statements of the calls, and the mode
    stays what it was. *)
Theorem statements_memorised_in_any_mode
    (calls : list ((string + list string) * (string + list string))) (r : Runner) :
  (∀ items r0,
     (sqlMemoryMode (runInSequence items (query env) r0).2,
      upQueries (runInSequence items (query env) r0).2,
      downQueries (runInSequence items (query env) r0).2)
     = (sqlMemoryMode r0, upQueries r0, downQueries r0)) →
  let r' := executeQueriesEach runInSequence env calls r in
  sqlMemoryMode r' = sqlMemoryMode r
  ∧ getMemorySql r'
    = (upQueries r ++ concat ((λ call, statements call.1) <$> calls),
       downQueries r ++ concat ((λ call, statements call.2) <$> calls)).
Proof.
  intros Hkept. simpl. revert r.
  induction calls as [|[ups downs] calls IH]; intros r.
  - simpl. unfold getMemorySql. by rewrite !app_nil_r.
  - rewrite executeQueriesEach_cons.
    assert (sqlMemoryMode (executeQueries runInSequence env ups downs r).2
            = sqlMemoryMode r
            ∧ upQueries (executeQueries runInSequence env ups downs r).2
              = upQueries r ++ statements ups
            ∧ downQueries (executeQueries runInSequence env ups downs r).2
              = downQueries r ++ statements downs) as (Hmode & Hups & Hdowns).
    { unfold executeQueries. simpl. destruct (sqlMemoryMode r) eqn:Hmode; [done|].
      specialize (Hkept (statements ups)
                    (setMemory false (upQueries r ++ statements ups)
                               (downQueries r ++ statements downs) r)).
      destruct (runInSequence _ _ _) as [[?|?] r1]; simpl in *;
        by injection Hkept as -> -> ->. }
    destruct (IH (executeQueries runInSequence env ups downs r).2) as [Hmode' Hmem].
    rewrite Hmode', Hmem, Hmode, Hups, Hdowns. simpl. by rewrite <- !app_assoc.
Qed.

(** X24: when runInSequence changes the runner through its callback only,
    executeMemoryDownSql leaves the list of down statements reversed in the
    memory: a second call hands the statements over in the order in which they
    were memorised, not in the reverse order. *)
Theorem down_statements_reversed_in_place (r : Runner) :
  (∀ items r0,
     (sqlMemoryMode (runInSequence items (query env) r0).2,
      upQueries (runInSequence items (query env) r0).2,
      downQueries (runInSequence items (query env) r0).2)
     = (sqlMemoryMode r0, upQueries r0, downQueries r0)) →
  let r1 := (executeMemoryDownSql runInSequence env r).2 in
  downQueries r1 = reverse (downQueries r)
  ∧ upQueries r1 = upQueries r
  ∧ executeMemoryDownSql runInSequence env r
    = (let '(c, r') := runInSequence (reverse (downQueries r)) (query env)
                         (setMemory (sqlMemoryMode r) (upQueries r)
                                    (reverse (downQueries r)) r) in
       (match c with Normal _ => Normal tt | Throw e => Throw e end, r'))
  ∧ executeMemoryDownSql runInSequence env r1
    = (let '(c, r') := runInSequence (downQueries r) (query env)
                         (setMemory (sqlMemoryMode r1) (upQueries r1) (downQueries r) r1) in
       (match c with Normal _ => Normal tt | Throw e => Throw e end, r')).
Proof.
  intros Hmem. simpl.
  assert ((sqlMemoryMode (executeMemoryDownSql runInSequence env r).2,
           upQueries (executeMemoryDownSql runInSequence env r).2,
           downQueries (executeMemoryDownSql runInSequence env r).2)
          = (sqlMemoryMode r, upQueries r, reverse (downQueries r))) as Hm.
  { unfold executeMemoryDownSql. simpl.
    specialize (Hmem (reverse (downQueries r))
                  (setMemory (sqlMemoryMode r) (upQueries r) (reverse (downQueries r)) r)).
    destruct (runInSequence _ _ _) as [[?|?] r']; simpl in *; exact Hmem. }
  injection Hm as Hmode Hups Hdowns.
  split_and!; [done|done| |].
  - unfold executeMemoryDownSql. simpl.
    by destruct (runInSequence _ _ _) as [[?|?] r'].
  - unfold executeMemoryDownSql at 1. simpl. rewrite Hdowns, reverse_involutive.
    by destruct (runInSequence _ _ _) as [[?|?] r'].
Qed.

End TableCache.

Section TableCacheExamples.
Import BaseQueryRunner.

Lemma runSequentially_memory env items r :
  (sqlMemoryMode (runSequentially items (query env) r).2,
   upQueries (runSequentially items (query env) r).2,
   downQueries (runSequentially items (query env) r).2)
  = (sqlMemoryMode r, upQueries r, downQueries r).
Proof.
  revert r. induction items as [|item rest IH]; intros r; [done|].
  cbn [runSequentially].
  destruct (query env item r) as [c r1] eqn:Hquery.
  assert ((sqlMemoryMode r1, upQueries r1, downQueries r1)
          = (sqlMemoryMode r, upQueries r, downQueries r)) as Hkept.
  { unfold query in Hquery.
    destruct (queryAnswer env item); injection Hquery as <- <-; done. }
  destruct c as [result|e]; [|exact Hkept].
  specialize (IH r1).
  destruct (runSequentially rest (query env) r1) as [[?|?] r2]; simpl in *;
    by rewrite IH.
Qed.

Lemma cached_table_loaded_once_witness :
  let r' := (getCachedTable usersDatabase "users" newRunner).2 in
  (getCachedTable usersDatabase "users" newRunner).1 = Normal usersTable
  ∧ loadedTables r' = [usersTable]
  ∧ loads r' = [["users"]]
  ∧ getCachedTable usersDatabase "users" r' = (Normal usersTable, r').
Proof.
  destruct (cached_table_loaded_once usersDatabase "users" newRunner) as [_ Hmiss].
  destruct (Hmiss usersTable [] eq_refl eq_refl) as (H1 & H2 & H3 & H4).
  split; [exact H1|]. split; [exact H2|]. split; [exact H3|]. by apply H4.
Defined.

Lemma missing_table_is_an_error_witness :
  (getCachedTable usersDatabase "orders" newRunner).1
  = Throw ("Table " +:+ doubleQuote +:+ "orders" +:+ doubleQuote +:+ " does not exist.")
  ∧ loadedTables (getCachedTable usersDatabase "orders" newRunner).2 = [].
Proof.
  destruct (missing_table_is_an_error usersDatabase "orders" newRunner eq_refl)
    as [Hmissing _].
  by apply Hmissing.
Defined.

Lemma getTable_replaces_cache_witness :
  let cached := (getCachedTable usersDatabase "users" newRunner).2 in
  let r' := (getTable usersDatabase "orders" cached).2 in
  loadedTables cached = [usersTable]
  ∧ (getTable usersDatabase "orders" cached).1 = Normal None
  ∧ loadedTables r' = []
  ∧ loads (getCachedTable usersDatabase "users" r').2
    = [["users"]; ["orders"]; ["users"]].
Proof.
  split; [reflexivity|].
  apply (getTable_replaces_cache usersDatabase "orders" "users" []
           (getCachedTable usersDatabase "users" newRunner).2); [reflexivity|].
  intros t Ht. by apply not_elem_of_nil in Ht.
Defined.

Lemma unmatched_name_loaded_again_witness :
  let r1 := (getCachedTable qualifiedDatabase "users" newRunner).2 in
  let r2 := (getCachedTable qualifiedDatabase "users" r1).2 in
  loadedTables r2 = [qualifiedTable; qualifiedTable]
  ∧ loads r2 = [["users"]; ["users"]].
Proof.
  apply (unmatched_name_loaded_again qualifiedDatabase "users" qualifiedTable []
           newRunner); [constructor|reflexivity|discriminate].
Defined.

Lemma replaced_table_found_by_new_name_witness :
  let r := setLoadedTables [usersTable] newRunner in
  let r' := replaceCachedTable usersTable renamedTable r in
  getCachedTable usersDatabase "members" r'
  = (Normal (overwrite usersTable renamedTable), r').
Proof.
  apply (replaced_table_found_by_new_name usersDatabase usersTable renamedTable
           usersTable (setLoadedTables [usersTable] newRunner)); [reflexivity|].
  intros t Ht. apply list_elem_of_singleton in Ht as ->. discriminate.
Defined.

Lemma replaceCachedTable_in_place_witness :
  let r := setLoadedTables [qualifiedTable; usersTable] newRunner in
  let r' := replaceCachedTable usersTable renamedTable r in
  loadedTables r' !! 1 = Some (overwrite usersTable renamedTable)
  ∧ loadedTables r' !! 0 = Some qualifiedTable.
Proof.
  destruct (replaceCachedTable_in_place usersTable renamedTable
              (setLoadedTables [qualifiedTable; usersTable] newRunner))
    as (_ & _ & Hfound & _).
  split.
  - by apply (Hfound usersTable eq_refl 1 usersTable eq_refl).
  - by apply (Hfound usersTable eq_refl 0 qualifiedTable eq_refl).
Defined.

Lemma memory_mode_sends_nothing_witness :
  let r' := executeQueriesEach runSequentially usersDatabase
              [(inl "CREATE a", inl "DROP a");
               (inr ["CREATE b"; "CREATE c"], inr ["DROP c"; "DROP b"])]
              (enableSqlMemory newRunner) in
  sent r' = []
  ∧ getMemorySql r'
    = (["CREATE a"; "CREATE b"; "CREATE c"], ["DROP a"; "DROP c"; "DROP b"]).
Proof.
  destruct (memory_mode_sends_nothing runSequentially usersDatabase
              [(inl "CREATE a", inl "DROP a");
               (inr ["CREATE b"; "CREATE c"], inr ["DROP c"; "DROP b"])]
              (enableSqlMemory newRunner) eq_refl) as (Hsent & _ & Hmem & _).
  split; [exact Hsent|exact Hmem].
Defined.

Lemma statements_memorised_in_any_mode_witness :
  let r' := executeQueriesEach runSequentially usersDatabase
              [(inl "CREATE a", inl "DROP a")] newRunner in
  sqlMemoryMode r' = false
  ∧ getMemorySql r' = (["CREATE a"], ["DROP a"]).
Proof.
  apply (statements_memorised_in_any_mode runSequentially usersDatabase
           [(inl "CREATE a", inl "DROP a")] newRunner).
  intros items r0. apply runSequentially_memory.
Defined.

Lemma down_statements_reversed_in_place_witness :
  let r := setMemory false ["CREATE a"; "CREATE b"] ["DROP a"; "DROP b"] newRunner in
  let r1 := (executeMemoryDownSql runSequentially usersDatabase r).2 in
  let r2 := (executeMemoryDownSql runSequentially usersDatabase r1).2 in
  downQueries r1 = ["DROP b"; "DROP a"]
  ∧ sent r1 = ["DROP b"; "DROP a"]
  ∧ sent r2 = ["DROP b"; "DROP a"; "DROP a"; "DROP b"].
Proof.
  destruct (down_statements_reversed_in_place runSequentially usersDatabase
              (setMemory false ["CREATE a"; "CREATE b"] ["DROP a"; "DROP b"] newRunner))
    as (Hdowns & _ & _ & _).
  - intros items r0. apply runSequentially_memory.
  - split; [exact Hdowns|]. split; reflexivity.
Defined.

End TableCacheExamples.

(** * Properties of [QueryBuilder] *)

Section BuilderConditions.
Import QueryBuilder.
Context `{ObjectHeap}.
Context (replacePropertyNames : string → string).

Lemma string_app_assoc (a b c : string) : (a +:+ b) +:+ c = a +:+ (b +:+ c).
Proof.
  induction a as [|x a IH]; [reflexivity|].
  change (String x ((a +:+ b) +:+ c) = String x (a +:+ (b +:+ c))). by rewrite IH.
Qed.

Lemma setParameter_parameters key value qb key' :
  parameters (setParameter key value qb) !! key'
  = if decide (key' = key ∧ key ≠ "__proto__") then Some value
    else parameters qb !! key'.
Proof.
  unfold setParameter, parameters, assign. simpl.
  case_bool_decide as Hproto.
  - rewrite decide_False by (intros [_ Hne]; done).
    destruct (ownProto (parametersObject qb)); [done|].
    destruct (accessorReached _); [|done].
    by destruct (is_object value || bool_decide (value = VNull)).
  - simpl. destruct (decide (key' = key)) as [->|Hne].
    + rewrite decide_True by done. by rewrite lookup_insert_eq.
    + rewrite decide_False by (intros [Heq _]; done). by rewrite lookup_insert_ne.
Qed.

(** What an assignment does with the key "__proto__" is read off the two
    fields that stand for the prototype chain. *)
Lemma assign_proto_fields value object object' :
  ownProto object = ownProto object' →
  prototype object = prototype object' →
  ownProto (assign "__proto__" value object) = ownProto (assign "__proto__" value object')
  ∧ prototype (assign "__proto__" value object)
    = prototype (assign "__proto__" value object').
Proof.
  destruct object as [props own proto], object' as [props' own' proto']. simpl.
  intros <- <-. unfold assign. rewrite bool_decide_eq_true_2 by done. simpl.
  destruct own; [done|].
  destruct (accessorReached proto); [|done].
  by destruct (is_object value || bool_decide (value = VNull)).
Qed.

Lemma assign_other_fields key value object :
  key ≠ "__proto__" →
  ownProto (assign key value object) = ownProto object
  ∧ prototype (assign key value object) = prototype object.
Proof. intros Hne. unfold assign. by rewrite bool_decide_eq_false_2. Qed.

Lemma setParameters_fields given qb :
  fromTableName (setParameters given qb) = fromTableName qb
  ∧ mainMetadata (setParameters given qb) = mainMetadata qb
  ∧ wheres (setParameters given qb) = wheres qb
  ∧ havings (setParameters given qb) = havings qb
  ∧ (∀ key, parameters (setParameters given qb) !! key
            = if decide (key = "__proto__") then parameters qb !! key
              else match given !! key with
                   | Some value => Some value
                   | None => parameters qb !! key
                   end)
  ∧ let assigned :=
      match given !! "__proto__" with
      | Some value => assign "__proto__" value (parametersObject qb)
      | None => parametersObject qb
      end in
    ownProto (parametersObject (setParameters given qb)) = ownProto assigned
    ∧ prototype (parametersObject (setParameters given qb)) = prototype assigned.
Proof.
  unfold setParameters.
  induction given as [|k v m Hk Hfirst IH] using map_first_key_ind.
  - rewrite map_fold_empty. split_and!; try done. intros key. by case_decide.
  - rewrite map_fold_insert_first_key by done.
    destruct IH as (H1 & H2 & H3 & H4 & H5 & H6 & H7).
    split_and!; try done.
    + intros key. rewrite setParameter_parameters, H5.
      destruct (decide (key = "__proto__")) as [->|Hkey].
      * by rewrite decide_False by (intros [-> Hne]; done).
      * destruct (decide (key = k)) as [->|Hne].
        -- rewrite decide_True by done. by rewrite lookup_insert_eq.
        -- rewrite decide_False by (intros [Heq _]; done).
           by rewrite lookup_insert_ne.
    + simpl. destruct (decide (k = "__proto__")) as [->|Hne].
      * rewrite lookup_insert_eq. rewrite Hk in H6, H7.
        by destruct (assign_proto_fields v (parametersObject (map_fold setParameter qb m))
                       (parametersObject qb) H6 H7) as [-> _].
      * rewrite lookup_insert_ne by done.
        destruct (assign_other_fields k v (parametersObject (map_fold setParameter qb m))
                    Hne) as [-> _].
        exact H6.
    + simpl. destruct (decide (k = "__proto__")) as [->|Hne].
      * rewrite lookup_insert_eq. rewrite Hk in H6, H7.
        by destruct (assign_proto_fields v (parametersObject (map_fold setParameter qb m))
                       (parametersObject qb) H6 H7) as [_ ->].
      * rewrite lookup_insert_ne by done.
        destruct (assign_other_fields k v (parametersObject (map_fold setParameter qb m))
                    Hne) as [_ ->].
        exact H7.
Qed.


Lemma setOptionalParameters_fields given qb :
  fromTableName (setOptionalParameters given qb) = fromTableName qb
  ∧ mainMetadata (setOptionalParameters given qb) = mainMetadata qb
  ∧ wheres (setOptionalParameters given qb) = wheres qb
  ∧ havings (setOptionalParameters given qb) = havings qb
  ∧ ∀ key, is_Some (parameters qb !! key) →
           is_Some (parameters (setOptionalParameters given qb) !! key).
Proof.
  destruct given as [given|]; simpl; [|by split_and!].
  destruct (setParameters_fields given qb) as (H1 & H2 & H3 & H4 & H5 & _).
  split_and!; try done.
  intros key Hkey. rewrite H5. case_decide; [done|]. by destruct (given !! key).
Qed.

(** What one call does to the builder. *)
Lemma call_adds (c : Call) (qb : Builder) :
  fromTableName (call c qb) = fromTableName qb
  ∧ mainMetadata (call c qb) = mainMetadata qb
  ∧ wheres qb `prefix_of` wheres (call c qb)
  ∧ havings qb `prefix_of` havings (call c qb)
  ∧ ∀ key, is_Some (parameters qb !! key) → is_Some (parameters (call c qb) !! key).
Proof.
  destruct c as [w g|w g|w g|w g|w g|w g|k v|g]; simpl;
    unfold where_, andWhere, orWhere, having, andHaving, orHaving.
  1-6: match goal with
       | |- context [setOptionalParameters ?g ?b] =>
           destruct (setOptionalParameters_fields g b) as (-> & -> & -> & -> & Hp)
       end; simpl in *;
       (split_and!; first [done | reflexivity | by apply prefix_app_r | exact Hp]).
  - split_and!; try done. intros key Hkey.
    rewrite setParameter_parameters. by case_decide.
  - destruct (setParameters_fields g qb) as (-> & -> & -> & -> & Hp & _).
    split_and!; try done. intros key Hkey. rewrite Hp.
    case_decide; [done|]. by destruct (g !! key).
Qed.

(** X26: the calls that add conditions or parameters only ever add: over
    any sequence of them, the where and the having conditions set before stay
    in front, in their order, every parameter set before is still set, and the
    selection is the same.  In particular [where] and [having] do not discard
    the conditions set before them. *)
Theorem builder_calls_only_add (l : list Call) (qb : Builder) :
  wheres qb `prefix_of` wheres (calls l qb)
  ∧ havings qb `prefix_of` havings (calls l qb)
  ∧ (∀ key, is_Some (parameters qb !! key) →
            is_Some (parameters (calls l qb) !! key))
  ∧ fromTableName (calls l qb) = fromTableName qb
  ∧ mainMetadata (calls l qb) = mainMetadata qb
  ∧ (∀ condition given,
       wheres (where_ condition given qb) = wheres qb ++ [(Simple, condition)]
       ∧ havings (having condition given qb) = havings qb ++ [(Simple, condition)]).
Proof.
  split_and!.
  1-5: revert qb; induction l as [|c l IH]; intros qb; [done|];
       unfold calls in *; simpl;
       destruct (call_adds c qb) as (Hf & Hm & Hw & Hh & Hp).
  - etrans; [exact Hw|apply IH].
  - etrans; [exact Hh|apply IH].
  - intros key Hkey. apply IH, Hp, Hkey.
  - by rewrite IH.
  - by rewrite IH.
  - intros condition given. unfold where_, having.
    destruct (setOptionalParameters_fields given
                (setWheres (wheres qb ++ [(Simple, condition)]) qb))
      as (_ & _ & -> & _).
    destruct (setOptionalParameters_fields given
                (setHavings (havings qb ++ [(Simple, condition)]) qb))
      as (_ & _ & _ & -> & _).
    done.
Qed.

(** X27: the connective of the first condition is never rendered: the
    where and the having expression are the same whatever the type of the
    first condition, so a builder whose first condition was added with
    andWhere or orWhere renders like one that began with where. *)
Theorem first_connective_not_rendered (type : ConditionType) (condition : string)
    (rest : list (ConditionType * string)) (qb : Builder) :
  createWhereExpression replacePropertyNames (setWheres ((type, condition) :: rest) qb)
  = createWhereExpression replacePropertyNames (setWheres ((Simple, condition) :: rest) qb)
  ∧ createHavingExpression replacePropertyNames
      (setHavings ((type, condition) :: rest) qb)
    = createHavingExpression replacePropertyNames
        (setHavings ((Simple, condition) :: rest) qb).
Proof.
  assert (renderConditions replacePropertyNames ((type, condition) :: rest)
          = renderConditions replacePropertyNames ((Simple, condition) :: rest)) as Heq.
  { unfold renderConditions. simpl. by destruct type. }
  unfold createWhereExpression, createHavingExpression, addsDiscriminator.
  cbn [wheres havings setWheres setHavings fromTableName mainMetadata].
  by rewrite Heq.
Qed.

Lemma join_snoc separator (pieces : list string) (piece : string) :
  pieces ≠ [] →
  join separator (pieces ++ [piece]) = join separator pieces +:+ separator +:+ piece.
Proof.
  destruct pieces as [|first rest]; [done|]. intros _. simpl.
  by rewrite foldl_app.
Qed.

Lemma imap_snoc {A B} (f : nat → A → B) (l : list A) (x : A) :
  imap f (l ++ [x]) = imap f l ++ [f (length l) x].
Proof. rewrite imap_app. simpl. by rewrite Nat.add_0_r. Qed.

Lemma renderConditions_snoc conditions type condition :
  conditions ≠ [] →
  renderConditions replacePropertyNames (conditions ++ [(type, condition)])
  = renderConditions replacePropertyNames conditions
    +:+ match type with
        | Simple => " "
        | And => " AND "
        | Or => " OR "
        end
    +:+ replacePropertyNames condition.
Proof.
  intros Hne. unfold renderConditions. rewrite imap_snoc, join_snoc.
  - unfold renderCondition. cbn [fst snd].
    destruct conditions as [|c l]; [done|].
    destruct type; cbn [length]; rewrite ?bool_decide_eq_true_2 by lia; reflexivity.
  - by destruct conditions.
Qed.

(** X28: on a builder that holds a condition already, andWhere extends the
    rendered conditions by " AND " and the rewritten condition, orWhere by
    " OR " and it, and where by a blank and it, with no connective between
    the earlier conditions and the new one; the expression is then " WHERE "
    followed by these conditions when no discriminator is added. *)
Theorem added_condition_rendered (condition : string)
    (given : option (gmap string jsval)) (qb : Builder) :
  wheres qb ≠ [] →
  let rendered qb := renderConditions replacePropertyNames (wheres qb) in
  rendered (andWhere condition given qb)
  = rendered qb +:+ " AND " +:+ replacePropertyNames condition
  ∧ rendered (orWhere condition given qb)
    = rendered qb +:+ " OR " +:+ replacePropertyNames condition
  ∧ rendered (where_ condition given qb)
    = rendered qb +:+ " " +:+ replacePropertyNames condition
  ∧ (addsDiscriminator qb = false →
     rendered (andWhere condition given qb) ≠ EmptyString →
     createWhereExpression replacePropertyNames (andWhere condition given qb)
     = " WHERE " +:+ rendered qb +:+ " AND " +:+ replacePropertyNames condition).
Proof.
  intros Hne. simpl.
  assert (∀ type,
            wheres (setOptionalParameters given
                      (setWheres (wheres qb ++ [(type, condition)]) qb))
            = wheres qb ++ [(type, condition)]) as Hwheres.
  { intros type.
    by destruct (setOptionalParameters_fields given
                   (setWheres (wheres qb ++ [(type, condition)]) qb))
      as (_ & _ & -> & _). }
  unfold andWhere, orWhere, where_. rewrite !Hwheres.
  rewrite !renderConditions_snoc by done.
  split_and!; try done.
  intros Hadds Hrendered. unfold createWhereExpression.
  assert (addsDiscriminator
            (setOptionalParameters given (setWheres (wheres qb ++ [(And, condition)]) qb))
          = addsDiscriminator qb) as ->.
  { unfold addsDiscriminator.
    by destruct (setOptionalParameters_fields given
                   (setWheres (wheres qb ++ [(And, condition)]) qb))
      as (-> & -> & _). }
  rewrite Hadds, Hwheres, renderConditions_snoc by done.
  by rewrite bool_decide_eq_false_2.
Qed.

(** X29: the placeholder of the discriminator and its value go together:
    exactly when createWhereExpression adds the condition on the discriminator
    column (no table name set, and the main selection has a discriminator
    column), getParameters binds discriminatorColumnValue to the discriminator
    value of the metadata, over a parameter of that name the user has set;
    otherwise getParameters returns the parameters as they are.  Every other
    parameter is returned as set, and no call that adds conditions or
    parameters changes which of the two cases holds. *)
Theorem discriminator_placeholder_bound (qb : Builder) (l : list Call) :
  (addsDiscriminator qb = true →
   getParameters qb !! "discriminatorColumnValue"
   = Some (discriminatorValue (mainMetadata qb))
   ∧ ∃ front, createWhereExpression replacePropertyNames qb
              = " WHERE " +:+ front +:+ " "
                +:+ discriminatorColumnFullName (mainMetadata qb)
                +:+ "=:discriminatorColumnValue")
  ∧ (addsDiscriminator qb = false →
     getParameters qb = parameters qb
     ∧ createWhereExpression replacePropertyNames qb
       = if bool_decide (renderConditions replacePropertyNames (wheres qb) = EmptyString)
         then EmptyString
         else " WHERE " +:+ renderConditions replacePropertyNames (wheres qb))
  ∧ (∀ key, key ≠ "discriminatorColumnValue" →
            getParameters qb !! key = parameters qb !! key)
  ∧ addsDiscriminator (calls l qb) = addsDiscriminator qb.
Proof.
  unfold getParameters, createWhereExpression. split_and!.
  - intros ->. split; [by rewrite lookup_insert_eq|].
    by eexists.
  - by intros ->.
  - intros key Hkey. destruct (addsDiscriminator qb); [|done].
    by rewrite lookup_insert_ne.
  - unfold addsDiscriminator. revert qb. induction l as [|c l IH]; intros qb; [done|].
    unfold calls in *. simpl. rewrite IH.
    by destruct (call_adds c qb) as (-> & -> & _).
Qed.

End BuilderConditions.

Section BuilderExamples.
Import QueryBuilder.
#[local] Existing Instance literals.

Lemma added_condition_rendered_witness :
  let qb := where_ "a = 1" None tableBuilder in
  createWhereExpression id (andWhere "b = 2" None qb) = " WHERE a = 1 AND b = 2".
Proof.
  destruct (added_condition_rendered id "b = 2" None (where_ "a = 1" None tableBuilder))
    as (_ & _ & _ & Hexpression); [discriminate|].
  apply Hexpression; [reflexivity|discriminate].
Defined.


Lemma builder_calls_only_add_witness :
  is_Some (parameters (calls [CallWhere "b = 2" (Some {["id" := VNum 2]})]
                         (setParameter "name" (VStr "a") tableBuilder)) !! "name").
Proof.
  destruct (builder_calls_only_add [CallWhere "b = 2" (Some {["id" := VNum 2]})]
              (setParameter "name" (VStr "a") tableBuilder)) as (_ & _ & Hkept & _).
  apply Hkept. vm_compute. eauto.
Defined.

Lemma discriminator_placeholder_bound_witness :
  getParameters (setParameter "discriminatorColumnValue" (VStr "Teacher") childBuilder)
    !! "discriminatorColumnValue" = Some (VStr "Student")
  ∧ getParameters tableBuilder = ∅.
Proof.
  split.
  - destruct (discriminator_placeholder_bound id
                (setParameter "discriminatorColumnValue" (VStr "Teacher") childBuilder) [])
      as (Hadds & _).
    destruct (Hadds eq_refl) as [Hbound _]. exact Hbound.
  - destruct (discriminator_placeholder_bound id tableBuilder []) as (_ & Hplain & _).
    destruct (Hplain eq_refl) as [Hsame _]. exact Hsame.
Defined.

End BuilderExamples.

(** * The further properties at concrete inputs *)

Section OutcomeExamples.
Import Fixture.
#[local] Existing Instance world.

Lemma column_pass_diff_list_witness :
  diffColumns (computeDiffColumns loadedPost) = [labelsColumn]
  ∧ diffColumns (computeDiffColumns freshPost) = [idColumn; titleColumn; labelsColumn].
Proof.
  split.
  - exact (column_pass_diff_list 1 loadedPost eq_refl).
  - exact (column_pass_diff_list 1 freshPost eq_refl).
Defined.

Lemma column_pass_change_records_witness :
  changeMaps (computeDiffColumns loadedPost)
  = [mkChangeMap (Some labelsColumn) None (VObj 6)].
Proof.
  refine (column_pass_change_records 1 loadedPost eq_refl _ _).
  - refine (bool_decide_unpack (NoDup (columns (metadata loadedPost))) _).
    vm_compute. exact I.
  - intros c _ Hin. vm_compute in Hin. inversion Hin.
Defined.

Lemma relation_pass_diff_list_witness :
  ∃ s', computeDiffRelationalColumns [0] 0 {[0 := loadedPostWithKey]} !! 0 = Some s'
        ∧ diffRelations s' = [tagRelation].
Proof.
  destruct (relation_pass_diff_list [0] 0 11 {[0 := loadedPostWithKey]} loadedPostWithKey)
    as (s' & Hs' & Hdiff & _); [reflexivity|reflexivity|].
  exists s'. split; [exact Hs'|exact Hdiff].
Defined.

Lemma compute_outside_batch_witness :
  compute [0] (<[1 := freshTag]> {[0 := freshPostWithTag]}) !! 1 = Some freshTag.
Proof.
  refine (compute_outside_batch [0] (<[1 := freshTag]> {[0 := freshPostWithTag]}) 1 _).
  intros Hin. apply list_elem_of_singleton in Hin. discriminate Hin.
Defined.

End OutcomeExamples.

Section DeleteExecutionExamples.
Import DeleteQueryBuilder.

Lemma own_runner_released_last_witness :
  last (issued (run (mkExpressionMap true true true) true failingQuery false))
  = Some Release
  ∧ length (filter (eq Release)
              (issued (run (mkExpressionMap true true true) true failingQuery false))) = 1.
Proof.
  destruct (own_runner_released_last (mkExpressionMap true true true) true failingQuery
              false) as [Hown _].
  destruct (Hown eq_refl) as (_ & _ & Hreleased).
  apply Hreleased. intros c _. by destruct c.
Defined.

Lemma statement_only_after_acceptance_witness :
  answer accepting StartTransaction = Resolves
  ∧ answer accepting BroadcastBeforeRemoveEvent = Resolves
  ∧ answer accepting Query = Resolves.
Proof.
  destruct (statement_only_after_acceptance (mkExpressionMap true true true) true
              accepting false) as (Hquery & Hafter & _).
  destruct Hquery as [Hstart Hbefore].
  - vm_compute. apply list_elem_of_further, list_elem_of_further, list_elem_of_here.
  - split; [by apply Hstart|]. split; [by apply Hbefore|].
    apply Hafter. vm_compute.
    apply list_elem_of_further, list_elem_of_further, list_elem_of_further,
      list_elem_of_here.
Defined.

Lemma transaction_flag_after_execute_witness :
  isTransactionActive (run (mkExpressionMap true true true) true failingQuery false).2
  = false
  ∧ isTransactionActive
      (run (mkExpressionMap true true true) true failingQueryAndRollback false).2
    = true.
Proof.
  split.
  - apply (transaction_flag_after_execute (mkExpressionMap true true true) true
             failingQuery false).
    + intros c _. by destruct c.
    + intros e. discriminate.
  - apply (transaction_flag_after_execute (mkExpressionMap true true true) true
             failingQueryAndRollback false); try reflexivity.
    + vm_compute. eauto.
    + vm_compute. eauto.
Defined.

Lemma successful_execute_witness :
  outcome (run (mkExpressionMap true true true) true accepting false)
  = Normal (mkDeleteResult (VNum 1))
  ∧ issued (run (mkExpressionMap true true true) true accepting false)
    = [StartTransaction; BroadcastBeforeRemoveEvent; Query; BroadcastAfterRemoveEvent;
       CommitTransaction; Release].
Proof.
  apply (successful_execute (mkExpressionMap true true true) true accepting false).
  intros c. reflexivity.
Defined.

End DeleteExecutionExamples.

Section OracleExamples.
Import OracleQueryRunner.

Lemma release_with_open_transaction_witness :
  let r' := (release healthyDriver (startTransaction (newRunner master)).2).2 in
  isTransactionActive r' = true
  ∧ commitTransaction healthyDriver r' = (Rejected QueryRunnerAlreadyReleasedError, r')
  ∧ rollbackTransaction healthyDriver r' = (Rejected QueryRunnerAlreadyReleasedError, r').
Proof.
  destruct (release_with_open_transaction healthyDriver healthyDriver
              (startTransaction (newRunner master)).2 "SELECT 1" None)
    as (_ & Hactive & _ & _ & Hend).
  split; [exact Hactive|]. by apply Hend.
Defined.

Lemma nothing_sent_after_release_witness :
  let before := [(healthyDriver, CallQuery "SELECT 1" None); (healthyDriver, CallRelease)] in
  let after := [(healthyDriver, CallQuery "SELECT 2" None);
                (healthyDriver, CallStartTransaction)] in
  isReleased (calls after (calls before (newRunner master))) = true
  ∧ executed (calls after (calls before (newRunner master))) = [("SELECT 1", None, true)].
Proof.
  destruct (nothing_sent_after_release
              [(healthyDriver, CallQuery "SELECT 1" None); (healthyDriver, CallRelease)]
              [(healthyDriver, CallQuery "SELECT 2" None);
               (healthyDriver, CallStartTransaction)]
              (newRunner master)) as [_ Hafter].
  by apply Hafter.
Defined.

Lemma release_settles_iff_connected_witness :
  let r := (query healthyDriver "SELECT 1" None (newRunner master)).2 in
  databaseConnection r = true ∧ (release healthyDriver r).1 ≠ Pending.
Proof.
  split; [reflexivity|].
  intros Hpending.
  destruct (release_settles_iff_connected healthyDriver
              (query healthyDriver "SELECT 1" None (newRunner master)).2 master)
    as ([Hnever _] & _).
  apply Hnever in Hpending. discriminate Hpending.
Defined.

End OracleExamples.
